(** * TimestampsInChatbox: the span registry and the scan of [src/index.tsx]

    A shallow embedding of the time-expression engine of the plugin:
    the pattern catalog ([humanTimeFormats], [humanTimeFormatRegex]), the
    registry operations ([addNode], [getIntersectingNodes]), the scan with
    its placeholder reconciliation and widening loop
    ([findTimesInOriginalSource]), the whole-string branch of
    [customRules.validTime.match], the conversion branch of
    [customRules.validTime.parse] and [parseHumanTime].

    Conventions.
    - A JavaScript string is a sequence of code units; it is modelled by
      [string], one [ascii] per code unit, which covers every character the
      catalog can match.  Offsets ([index], [lastIndex]) are [nat].
    - The module-level [parsedNodes] is passed explicitly.
    - Exceptions and a loop that cannot end are results ([outcome]). *)

From Stdlib Require Import Bool Arith Lia List String Ascii ZArith Sorted Permutation.
Import ListNotations.
Open Scope string_scope.
Open Scope list_scope.
Open Scope nat_scope.

(* ================================================================== *)
(** ** Outcomes of effectful code *)

Inductive failure : Type :=
| TypeError       (* reading [.length] of [undefined] *)
| RegExpError     (* [new RegExp(src)] rejects [src], or [src] is outside the modelled syntax *)
| NoTermination.  (* a [while (match)] loop whose match is empty never advances *)

Inductive outcome (A : Type) : Type :=
| Ok (a : A)
| Fail (f : failure).

Arguments Ok {A} a.
Arguments Fail {A} f.

Definition bind {A B : Type} (m : outcome A) (k : A -> outcome B) : outcome B :=
  match m with
  | Ok a => k a
  | Fail f => Fail f
  end.

Notation "x <- m ;; k" := (bind m (fun x => k))
  (at level 61, m at next level, right associativity).

(** [for (const x of xs) body] over a state threaded through the iterations. *)
Fixpoint forEach {A St : Type} (body : A -> St -> outcome St) (xs : list A) (st : St)
  : outcome St :=
  match xs with
  | [] => Ok st
  | x :: xs' => st' <- body x st ;; forEach body xs' st'
  end.

(* ================================================================== *)
(** ** JavaScript string primitives *)

Module JS.

(** [s.charAt(i)]: the one-unit string at [i], or the empty string. *)
Definition charAt (s : string) (i : nat) : string :=
  match String.get i s with
  | Some c => String c EmptyString
  | None => EmptyString
  end.

(** [s.includes(t)]. *)
Definition includes (s t : string) : bool :=
  match String.index 0 t s with
  | Some _ => true
  | None => false
  end.

(** The text a replacement string stands for when the pattern is a string:
    [$$] is a dollar sign, [$&] the matched text, [$`] the text before the
    match and [$'] the text after it.  A string pattern has no capture
    group, so a dollar sign before anything else stands for itself. *)
Fixpoint expand (matched before after rep : string) : string :=
  match rep with
  | EmptyString => EmptyString
  | String c rest =>
      if Ascii.eqb c "$" then
        match rest with
        | String d rest' =>
            if Ascii.eqb d "$" then
              String "$" (expand matched before after rest')
            else if Ascii.eqb d "&" then
              (matched ++ expand matched before after rest')%string
            else if Ascii.eqb d "`" then
              (before ++ expand matched before after rest')%string
            else if Ascii.eqb d "'" then
              (after ++ expand matched before after rest')%string
            else String c (expand matched before after rest)
        | EmptyString => String c EmptyString
        end
      else String c (expand matched before after rest)
  end.

(** [s.replace(pat, rep)] with a string pattern: the first occurrence of
    [pat] is replaced by what [rep] stands for there. *)
Definition replace (s pat rep : string) : string :=
  match String.index 0 pat s with
  | Some i =>
      let before := String.substring 0 i s in
      let after := String.substring (i + String.length pat)
                     (String.length s - (i + String.length pat)) s in
      (before ++ expand pat before after rep ++ after)%string
  | None => s
  end.

(** [s.substring(a, b)]: both arguments are clamped to [0 .. length] and
    swapped when [a > b]. *)
Definition clamp (s : string) (a : Z) : nat :=
  Nat.min (Z.to_nat a) (String.length s).

Definition substring (s : string) (a b : Z) : string :=
  let a' := clamp s a in
  let b' := clamp s b in
  String.substring (Nat.min a' b') (Nat.max a' b' - Nat.min a' b') s.

End JS.

(* ================================================================== *)
(** ** Regular expressions: the syntax the catalog uses *)

Module RegExp.

Inductive regex : Type :=
| Empty                                   (* matches the empty string *)
| Chr (c : ascii)                         (* a literal or an identity escape *)
| Digit                                   (* \d *)
| Class (ranges : list (ascii * ascii))   (* [...] *)
| Seq (r1 r2 : regex)
| Alt (r1 r2 : regex)                     (* r1|r2, r1 tried first *)
| Opt (r : regex).                        (* r?, greedy *)

Definition inRange (c : ascii) (rg : ascii * ascii) : bool :=
  (nat_of_ascii (fst rg) <=? nat_of_ascii c)
  && (nat_of_ascii c <=? nat_of_ascii (snd rg)).

Definition isDigit (c : ascii) : bool := inRange c ("0"%char, "9"%char).

(** [{n}] is expanded when the source is read. *)
Fixpoint repeat (n : nat) (r : regex) : regex :=
  match n with
  | 0 => Empty
  | 1 => r
  | S n' => Seq r (repeat n' r)
  end.

(** *** Backtracking matcher
    [run r s k] matches [r] at the head of [s] and hands the rest to the
    continuation; alternatives are tried in the order a backtracking
    engine tries them, so the first success is the engine's match. *)
Fixpoint run (r : regex) (s : string) (k : string -> option nat) : option nat :=
  match r with
  | Empty => k s
  | Chr c =>
      match s with
      | String x s' => if Ascii.eqb x c then k s' else None
      | EmptyString => None
      end
  | Digit =>
      match s with
      | String x s' => if isDigit x then k s' else None
      | EmptyString => None
      end
  | Class ranges =>
      match s with
      | String x s' => if existsb (inRange x) ranges then k s' else None
      | EmptyString => None
      end
  | Seq r1 r2 => run r1 s (fun s' => run r2 s' k)
  | Alt r1 r2 =>
      match run r1 s k with
      | Some n => Some n
      | None => run r2 s k
      end
  | Opt r1 =>
      match run r1 s k with
      | Some n => Some n
      | None => k s
      end
  end.

(** Length of the match of [r] at the head of [s], if there is one. *)
Definition matchAt (r : regex) (s : string) : option nat :=
  run r s (fun rest => Some (String.length s - String.length rest)).

(** *** Reading a pattern source
    Recursive descent over the source text; [fuel] bounds the nesting and
    is taken from the length of the source. *)

Fixpoint readNumber (acc : nat) (s : string) : option (nat * string) :=
  match s with
  | String c s' =>
      if isDigit c then readNumber (10 * acc + (nat_of_ascii c - 48)) s'
      else if Ascii.eqb c "}"%char then Some (acc, s') else None
  | EmptyString => None
  end.

(** The items of a character class, up to the closing bracket. *)
Fixpoint readClass (acc : list (ascii * ascii)) (s : string)
  : option (regex * string) :=
  match s with
  | String "]"%char s' => Some (Class (rev acc), s')
  | String "\"%char _ => None
  | String a (String "-"%char (String b s')) =>
      if Ascii.eqb b "]"%char then
        Some (Class (rev (("-"%char, "-"%char) :: (a, a) :: acc)), s')
      else readClass ((a, b) :: acc) s'
  | String a s' => readClass ((a, a) :: acc) s'
  | EmptyString => None
  end.

Definition quantify (r : regex) (s : string) : option (regex * string) :=
  match s with
  | String "?"%char s' => Some (Opt r, s')
  | String "{"%char (String c s') =>
      if isDigit c then
        match readNumber 0 (String c s') with
        | Some (n, rest) => Some (repeat n r, rest)
        | None => None
        end
      else None
  | String "{"%char EmptyString => None
  | String "*"%char _ => None
  | String "+"%char _ => None
  | _ => Some (r, s)
  end.

Definition isSyntax (c : ascii) : bool :=
  existsb (Ascii.eqb c)
    ["("; ")"; "["; "]"; "{"; "}"; "|"; "?"; "*"; "+"; "."; "^"; "$"; "\"]%char.

Fixpoint readDisjunction (fuel : nat) (s : string) {struct fuel}
  : option (regex * string) :=
  match fuel with
  | 0 => None
  | S fuel' =>
      match readAlternative fuel' s with
      | Some (r1, String "|"%char rest) =>
          match readDisjunction fuel' rest with
          | Some (r2, rest') => Some (Alt r1 r2, rest')
          | None => None
          end
      | other => other
      end
  end

with readAlternative (fuel : nat) (s : string) {struct fuel}
  : option (regex * string) :=
  match fuel with
  | 0 => None
  | S fuel' =>
      match s with
      | EmptyString => Some (Empty, s)
      | String "|"%char _ => Some (Empty, s)
      | String ")"%char _ => Some (Empty, s)
      | _ =>
          match readAtom fuel' s with
          | Some (r, rest) =>
              match quantify r rest with
              | Some (rq, rest') =>
                  match readAlternative fuel' rest' with
                  | Some (Empty, rest'') => Some (rq, rest'')
                  | Some (r2, rest'') => Some (Seq rq r2, rest'')
                  | None => None
                  end
              | None => None
              end
          | None => None
          end
      end
  end

with readAtom (fuel : nat) (s : string) {struct fuel}
  : option (regex * string) :=
  match fuel with
  | 0 => None
  | S fuel' =>
      match s with
      | String "("%char (String "?"%char (String ":"%char rest)) =>
          match readDisjunction fuel' rest with
          | Some (r, String ")"%char rest') => Some (r, rest')
          | _ => None
          end
      | String "("%char (String "?"%char _) => None
      | String "("%char rest =>
          match readDisjunction fuel' rest with
          | Some (r, String ")"%char rest') => Some (r, rest')
          | _ => None
          end
      | String "["%char (String "^"%char _) => None
      | String "["%char rest => readClass [] rest
      | String "\"%char (String "d"%char rest) => Some (Digit, rest)
      | String "\"%char (String c rest) =>
          if isSyntax c || Ascii.eqb c "/"%char then Some (Chr c, rest) else None
      | String c rest => if isSyntax c then None else Some (Chr c, rest)
      | EmptyString => None
      end
  end.

(** [new RegExp(src)]: the whole source must be read. *)
Definition compile (src : string) : option regex :=
  match readDisjunction (3 * String.length src + 3) src with
  | Some (r, EmptyString) => Some r
  | _ => None
  end.

(** *** What a match can start with *)

Fixpoint nullable (r : regex) : bool :=
  match r with
  | Empty => true
  | Chr _ | Digit | Class _ => false
  | Seq r1 r2 => nullable r1 && nullable r2
  | Alt r1 r2 => nullable r1 || nullable r2
  | Opt _ => true
  end.

Fixpoint first (r : regex) (c : ascii) : bool :=
  match r with
  | Empty => false
  | Chr x => Ascii.eqb c x
  | Digit => isDigit c
  | Class ranges => existsb (inRange c) ranges
  | Seq r1 r2 => first r1 c || (nullable r1 && first r2 c)
  | Alt r1 r2 => first r1 c || first r2 c
  | Opt r1 => first r1 c
  end.

End RegExp.

(* ================================================================== *)
(** ** The pattern catalog *)

(** [humanTimeFormats]: the strict parse formats, in the order they are tried. *)
Definition humanTimeFormats : list string :=
  [ "YYYY-MM-DD HH:mm";
    "[at] HH:mm [on] DD/MM";
    "HH:mm [on] DD/MM";
    "HH:mm DD/MM/YYYY";
    "DD/MM/YYYY";
    "MM/DD/YYYY";
    "YYYY-MM-DD";
    "DD/MM";
    "MM/DD";
    "[at] h:mm:ss A";
    "h:mm:ss A";
    "[at] h:mm:ssA";
    "h:mm:ssA";
    "[at] h:mm A";
    "h:mm A";
    "[at] h:mmA";
    "h:mmA";
    "[at] hA";
    "hA";
    "[at] h A";
    "h A";
    "[at] HH:mm:ss";
    "HH:mm:ss";
    "[at] HH:mm";
    "HH:mm" ].

(** [humanTimeFormatRegex]: the [source] of each literal, in order. *)
Definition humanTimeFormatRegex : list string :=
  [ "[12]\d{3}-(?:0[1-9]|1[0-2])-(?:0[1-9]|[12]\d|3[01]) (?:[01]\d|2[0-3]):(?:[0-5]\d)";
    "at (?:[01]\d|2[0-3]):(?:[0-5]\d) on (?:0[1-9]|[12]\d|3[01])\/(?:0[1-9]|1[0-2])";
    "(?:[01]\d|2[0-3]):(?:[0-5]\d) on (?:0[1-9]|[12]\d|3[01])\/(?:0[1-9]|1[0-2])";
    "(?:[01]\d|2[0-3]):(?:[0-5]\d) (?:0[1-9]|[12]\d|3[01])\/(?:0[1-9]|1[0-2])\/[12]\d{3}";
    "(?:0[1-9]|[12]\d|3[01])\/(?:0[1-9]|1[0-2])\/[12]\d{3}";
    "(?:0[1-9]|1[0-2])\/(?:0[1-9]|[12]\d|3[01])\/[12]\d{3}";
    "[12]\d{3}-(?:0[1-9]|1[0-2])-(?:0[1-9]|[12]\d|3[01])";
    "(?:0[1-9]|[12]\d|3[01])\/(?:0[1-9]|1[0-2])";
    "(?:0[1-9]|1[0-2])\/(?:0[1-9]|[12]\d|3[01])";
    "at (?:0?[1-9]|1[0-2]):(?:[0-5]\d):(?:[0-5]\d) ?[AaPp][Mm]";
    "(?:0?[1-9]|1[0-2]):(?:[0-5]\d):(?:[0-5]\d) ?[AaPp][Mm]";
    "at (?:0?[1-9]|1[0-2]):(?:[0-5]\d) ?[AaPp][Mm]";
    "(?:0?[1-9]|1[0-2]):(?:[0-5]\d) ?[AaPp][Mm]";
    "at (?:0?[1-9]|1[0-2]) ?[AaPp][Mm]";
    "(?:0?[1-9]|1[0-2]) ?[AaPp][Mm]";
    "at (?:[01]\d|2[0-3]):(?:[0-5]\d):(?:[0-5]\d)";
    "(?:[01]\d|2[0-3]):(?:[0-5]\d):(?:[0-5]\d)";
    "at (?:[01]\d|2[0-3]):(?:[0-5]\d)";
    "(?:[01]\d|2[0-3]):(?:[0-5]\d)" ].


(** A [RegExp] object held in a node's [format] field.  The test
    [pattern === node.format] compares objects: a catalog literal is
    identified by its position, and an object built with [new RegExp] in the
    widening loop is never one of the catalog literals. *)
Inductive RegExpObject : Type :=
| CatalogPattern (i : nat)
| GlobalPattern (src : string).

Definition source (f : RegExpObject) : string :=
  match f with
  | CatalogPattern i => nth i humanTimeFormatRegex "(?:)"
  | GlobalPattern src => src
  end.

(** [pattern === f] for the catalog literal at position [i]. *)
Definition sameObject (i : nat) (f : RegExpObject) : bool :=
  match f with
  | CatalogPattern j => i =? j
  | GlobalPattern _ => false
  end.

(** The positions of the catalog, in iteration order. *)
Definition patterns : list nat := seq 0 (List.length humanTimeFormatRegex).

(* ================================================================== *)
(** ** Nodes and the registry *)

(** [interface ParsedNode].  An absent boolean field is falsy and is
    modelled by [false]; an absent [extendedText] is [None].  The field
    [parsed] is written by [parse] and never read, and is left out. *)
Record ParsedNode : Type := mkNode {
  id : Z;
  originalText : string;
  fresh : bool;
  isExtension : bool;
  extendedText : option string;
  converted : bool;
  index : nat;
  format : RegExpObject
}.

Definition format_eqb (f g : RegExpObject) : bool :=
  match f, g with
  | CatalogPattern i, CatalogPattern j => i =? j
  | GlobalPattern a, GlobalPattern b => String.eqb a b
  | _, _ => false
  end.

Definition text_eqb (a b : option string) : bool :=
  match a, b with
  | Some x, Some y => String.eqb x y
  | None, None => true
  | _, _ => false
  end.

Definition node_eqb (a b : ParsedNode) : bool :=
  Z.eqb (id a) (id b)
  && String.eqb (originalText a) (originalText b)
  && Bool.eqb (fresh a) (fresh b)
  && Bool.eqb (isExtension a) (isExtension b)
  && text_eqb (extendedText a) (extendedText b)
  && Bool.eqb (converted a) (converted b)
  && (index a =? index b)
  && format_eqb (format a) (format b).

(** [array.sort((a, b) => a.index - b.index)]: the sort is stable, so its
    result is the one an insertion sort that keeps equal keys in order gives. *)
Section Sorting.
Variable A : Type.
Variable key : A -> nat.

Fixpoint insertByKey (x : A) (l : list A) : list A :=
  match l with
  | [] => [x]
  | y :: l' => if key x <? key y then x :: y :: l' else y :: insertByKey x l'
  end.

Definition sortByKey (l : list A) : list A :=
  fold_left (fun acc x => insertByKey x acc) l [].

(** The order of the result: ascending keys. *)
Definition byKey (a b : A) : Prop := key a <= key b.
End Sorting.

Arguments insertByKey {A} key x l.
Arguments sortByKey {A} key l.
Arguments byKey {A} key a b.

Definition nodeEnd (n : ParsedNode) : nat := index n + String.length (originalText n).

(** [getIntersectingNodes(index, length, arr)]. *)
Definition getIntersectingNodes (searchIndex searchLength : nat) (arr : list ParsedNode)
  : list ParsedNode :=
  filter (fun node =>
            let existingNodeStart := index node in
            let existingNodeEnd := index node + String.length (originalText node) in
            let searchingNodeStart := searchIndex in
            let searchingNodeEnd := searchIndex + searchLength in
            ((existingNodeStart <=? searchingNodeStart) && (searchingNodeStart <=? existingNodeEnd))
            || ((existingNodeStart <=? searchingNodeEnd) && (searchingNodeEnd <=? existingNodeEnd)))
         arr.

(** The text whose length [addNode] compares:
    [n.fresh ? n.isExtension ? n.extendedText : n.originalText : "?"]. *)
Definition comparedText (n : ParsedNode) : option string :=
  if fresh n then
    if isExtension n then extendedText n else Some (originalText n)
  else Some "?".

(** The callback of [intersectingNodes.find]: [oldNodeText.length > newNodeText.length]. *)
Definition isLonger (node n : ParsedNode) : outcome bool :=
  match comparedText n, comparedText node with
  | Some oldNodeText, Some newNodeText =>
      Ok (String.length newNodeText <? String.length oldNodeText)
  | _, _ => Fail TypeError
  end.

Fixpoint findLonger (node : ParsedNode) (l : list ParsedNode)
  : outcome (option ParsedNode) :=
  match l with
  | [] => Ok None
  | n :: l' =>
      b <- isLonger node n ;;
      if b then Ok (Some n) else findLonger node l'
  end.

(** The filter of [addNode]: [n.index < node.index || n.index > node.index + node.originalText.length]. *)
Definition keep (node n : ParsedNode) : bool :=
  (index n <? index node) || (index node + String.length (originalText node) <? index n).

(** [addNode(node, targetArray)], returning the array the caller assigns to
    [parsedNodes]. *)
Definition addNode (node : ParsedNode) (targetArray : list ParsedNode)
  : outcome (list ParsedNode) :=
  let intersectingNodes :=
    getIntersectingNodes (index node) (String.length (originalText node)) targetArray in
  longerNode <- match intersectingNodes with
                | [] => Ok None
                | _ => findLonger node intersectingNodes
                end ;;
  match longerNode with
  | Some _ => Ok targetArray
  | None =>
      let filteredArray := filter (keep node) targetArray in
      Ok (sortByKey index (filteredArray ++ [node]))
  end.

(* ================================================================== *)
(** ** The whole-string pass of [validTime.match] *)

(** An entry of [state.splitNodes].  The entries also carry a reference to
    the registry node ([node], [relevantNode]) that nothing reads; it is
    left out.  [id] is [None] where the source sets none. *)
Module Split.
Inductive kind : Type := prepText | prepValidTime.

Record node : Type := mk {
  index : nat;
  text : string;
  actualText : option string;
  type : kind;
  id : option Z
}.

(** What a reader of the output sees of an entry: where it is, what kind
    it is, and its text; the clock-derived [id] is not part of it. *)
Definition view (n : node) : nat * kind * string * option string :=
  (index n, type n, text n, actualText n).
End Split.

(** The body of [for (const node of parsedNodes.toReversed())]:
    the state is [(state.splitNodes, prevIndex)]. *)
Definition splitStep (text : string) (acc : list Split.node * Z) (node : ParsedNode)
  : list Split.node * Z :=
  let nodeLength := if fresh node then String.length (originalText node) else 1 in
  let prevIndex :=
    if Z.eqb (snd acc) (-1) then Z.of_nat (index node + nodeLength) else snd acc in
  let afterText :=
    if Z.eqb (Z.of_nat (index node)) prevIndex then ""
    else JS.substring text (Z.of_nat (index node + nodeLength)) prevIndex in
  let pushed :=
    if String.eqb afterText "" then fst acc
    else fst acc ++ [ {| Split.index := index node + nodeLength;
                         Split.text := afterText;
                         Split.actualText := None;
                         Split.type := Split.prepText;
                         Split.id := Some (-1)%Z |} ] in
  (pushed ++ [ {| Split.index := index node;
                  Split.text := originalText node;
                  Split.actualText :=
                    Some (if fresh node then originalText node else "?");
                  Split.type := Split.prepValidTime;
                  Split.id := Some (id node) |} ],
   Z.of_nat (index node)).

(** [state.splitNodes] as the whole-string branch leaves it. *)
Definition splitNodes (text : string) (nodes : list ParsedNode) : list Split.node :=
  let '(acc, prevIndex) := fold_left (splitStep text) (rev nodes) ([], (-1)%Z) in
  let beforeText := JS.substring text 0 prevIndex in
  let acc' :=
    if String.eqb beforeText "" then acc
    else acc ++ [ {| Split.index := 0;
                     Split.text := beforeText;
                     Split.actualText := None;
                     Split.type := Split.prepText;
                     Split.id := None |} ] in
  sortByKey Split.index acc'.

(** [node.fresh = false], done to every node the loop visits. *)
Definition markSeen (n : ParsedNode) : ParsedNode :=
  {| id := id n; originalText := originalText n; fresh := false;
     isExtension := isExtension n; extendedText := extendedText n;
     converted := converted n; index := index n; format := format n |}.

(* ================================================================== *)
(** ** The scan *)

(** [let match = re.exec(source); while (match) { body; match = re.exec(source) }]
    for a global [re]: [i] is the offset of [s] in the source and [skip] the
    distance from there to [lastIndex].  An empty match leaves [lastIndex]
    where it is, so the loop repeats it for ever. *)
Fixpoint execLoop {St : Type} (r : RegExp.regex)
    (body : nat -> string -> St -> outcome St)
    (s : string) (i skip : nat) (st : St) {struct s} : outcome St :=
  match skip with
  | S skip' =>
      match s with
      | EmptyString => Ok st
      | String _ s' => execLoop r body s' (S i) skip' st
      end
  | 0 =>
      match RegExp.matchAt r s with
      | Some 0 => Fail NoTermination
      | Some (S n) =>
          st' <- body i (String.substring 0 (S n) s) st ;;
          match s with
          | EmptyString => Ok st'
          | String _ s' => execLoop r body s' (S i) n st'
          end
      | None =>
          match s with
          | EmptyString => Ok st
          | String _ s' => execLoop r body s' (S i) 0 st
          end
      end
  end.

(** [new RegExp(src, "g")] followed by the loop over its matches. *)
Definition globalLoop {St : Type} (src : string)
    (body : nat -> string -> St -> outcome St) (text : string) (st : St) : outcome St :=
  match RegExp.compile src with
  | Some r => execLoop r body text 0 0 st
  | None => Fail RegExpError
  end.

(** The matches the loop of [execLoop] visits, as [(match.index, match[0])]. *)
Fixpoint execAll (r : RegExp.regex) (s : string) (i skip : nat) {struct s}
  : list (nat * string) :=
  match skip with
  | S skip' =>
      match s with
      | EmptyString => []
      | String _ s' => execAll r s' (S i) skip'
      end
  | 0 =>
      match RegExp.matchAt r s with
      | Some 0 => []
      | Some (S n) =>
          (i, String.substring 0 (S n) s)
            :: match s with
               | EmptyString => []
               | String _ s' => execAll r s' (S i) n
               end
      | None =>
          match s with
          | EmptyString => []
          | String _ s' => execAll r s' (S i) 0
          end
      end
  end.

(** The registry together with the number of clock readings made so far. *)
Record world : Type := mkWorld {
  parsedNodes : list ParsedNode;
  clockReads : nat
}.

Section Engine.

(** [new Date().getTime()] at the k-th reading. *)
Variable now : nat -> Z.

(** The placeholder pass at the head of [findTimesInOriginalSource]:
    [(placeholderValues, toRemove)]. *)
Definition classify (text : string) (nodes : list ParsedNode)
  : list ParsedNode * list ParsedNode :=
  fold_left
    (fun acc node =>
       if String.eqb (JS.charAt text (index node)) "?"
       then (fst acc ++ [node], snd acc)
       else (fst acc, snd acc ++ [node]))
    (rev nodes) ([], []).

Definition placeholderValues (text : string) (nodes : list ParsedNode)
  : list ParsedNode :=
  if JS.includes text "?" then fst (classify text nodes) else [].

Definition toRemove (text : string) (nodes : list ParsedNode) : list ParsedNode :=
  if JS.includes text "?" then snd (classify text nodes) else [].

(** [parsedNodes] after [parsedNodes.filter(n => !toRemove.includes(n))].
    [includes] compares objects; two held nodes with equal fields have the
    same [index], hence the same fate, so comparing fields selects the
    same nodes. *)
Definition reconcile (text : string) (nodes : list ParsedNode) : list ParsedNode :=
  let held := if JS.includes text "?" then nodes else [] in
  filter (fun n => negb (existsb (node_eqb n) (toRemove text nodes))) held.

(** The node built for a match of catalog pattern [p]. *)
Definition freshNode (p : nat) (matchIndex : nat) (match0 : string) (t : Z)
  : ParsedNode :=
  {| originalText := match0;
     index := matchIndex;
     format := CatalogPattern p;
     id := t;
     converted := false;
     fresh := true;
     isExtension := false;
     extendedText := None |}.

(** The node built for a match of the extension pattern [src] around [node]. *)
Definition extensionNode (src : string) (node : ParsedNode)
    (matchIndex : nat) (match0 : string) (t : Z) : ParsedNode :=
  {| originalText := match0;
     index := matchIndex;
     format := GlobalPattern src;
     id := t;
     isExtension := true;
     fresh := true;
     converted := false;
     extendedText := Some (JS.replace match0 "?" (originalText node)) |}.

Definition scanBody (p : nat) (matchIndex : nat) (match0 : string) (w : world)
  : outcome world :=
  nodes <- addNode (freshNode p matchIndex match0 (now (clockReads w)))
                   (parsedNodes w) ;;
  Ok {| parsedNodes := nodes; clockReads := S (clockReads w) |}.

(** One iteration of [for (const pattern of humanTimeFormatRegex)] in the scan. *)
Definition scanPattern (text : string) (p : nat) (w : world) : outcome world :=
  globalLoop (source (CatalogPattern p)) (scanBody p) text w.

(** [pattern.source.replace(node.format.source, "(\\?)")]. *)
Definition extensionSource (p : nat) (node : ParsedNode) : string :=
  JS.replace (source (CatalogPattern p)) (source (format node)) "(\?)".

Definition widenBody (src : string) (node : ParsedNode)
    (matchIndex : nat) (match0 : string) (w : world) : outcome world :=
  if negb (index node =? matchIndex) then Ok w
  else
    nodes <- addNode (extensionNode src node matchIndex match0 (now (clockReads w)))
                     (parsedNodes w) ;;
    Ok {| parsedNodes := nodes; clockReads := S (clockReads w) |}.

(** One iteration of the inner [for] of the widening loop. *)
Definition widenPattern (text : string) (node : ParsedNode) (p : nat) (w : world)
  : outcome world :=
  if sameObject p (format node) then Ok w
  else
    let src := extensionSource p node in
    globalLoop src (widenBody src node) text w.

Definition widenNode (text : string) (node : ParsedNode) (w : world) : outcome world :=
  forEach (widenPattern text node) patterns w.

(** The first loop: every catalog pattern is searched over the text, from
    the registry the placeholder pass left. *)
Definition scan (text : string) (w : world) : outcome world :=
  forEach (scanPattern text) patterns
    {| parsedNodes := reconcile text (parsedNodes w); clockReads := clockReads w |}.

(** The second loop, over [placeholderValues]. *)
Definition widen (text : string) (targets : list ParsedNode) (w : world)
  : outcome world :=
  forEach (widenNode text) targets w.

(** [findTimesInOriginalSource(source)]. *)
Definition findTimesInOriginalSource (text : string) (w : world) : outcome world :=
  w1 <- scan text w ;;
  w2 <- widen text (placeholderValues text (parsedNodes w)) w1 ;;
  Ok {| parsedNodes := sortByKey index (parsedNodes w2);
        clockReads := clockReads w2 |}.

(** The [wholeString] branch of [customRules.validTime.match]: the entries
    handed to [parse] when the rule captures, [None] when it returns
    [null], and the registry it leaves. *)
Definition matchWholeString (text : string) (w : world)
  : outcome (option (list Split.node) * world) :=
  w' <- findTimesInOriginalSource text w ;;
  if negb (existsb fresh (parsedNodes w')) then Ok (None, w')
  else
    let entries := splitNodes text (parsedNodes w') in
    let seen := {| parsedNodes := map markSeen (parsedNodes w');
                   clockReads := clockReads w' |} in
    match entries with
    | [] => Ok (None, seen)
    | _ => Ok (Some entries, seen)
    end.

End Engine.

(* ================================================================== *)
(** ** [parseHumanTime] and the conversion branch of [validTime.parse] *)

Section TimeResolver.

(** The [moment] library: the values it builds, the strict three-argument
    constructor [moment(timeString, format, true)], the one-argument
    constructor [moment(timeString)], and [isValid].  The argument may be
    [undefined] ([None]). *)
Variable Moment : Type.
Variable momentStrict : option string -> string -> Moment.
Variable momentLenient : option string -> Moment.
Variable isValid : Moment -> bool.

(** The [for (const format of humanTimeFormats)] loop. *)
Fixpoint tryFormats (timeString : option string) (formats : list string)
  : option Moment :=
  match formats with
  | [] => None
  | fmt :: rest =>
      let parsed := momentStrict timeString fmt in
      if isValid parsed then Some parsed else tryFormats timeString rest
  end.

(** [parseHumanTime(timeString)]; [null] is [None]. *)
Definition parseHumanTime (timeString : option string) : option Moment :=
  match tryFormats timeString humanTimeFormats with
  | Some parsed => Some parsed
  | None =>
      let naturalParsed := momentLenient timeString in
      if isValid naturalParsed then Some naturalParsed else None
  end.

Record Timestamp : Type := mkTimestamp {
  text : option string;
  parsed : option Moment
}.

(** [interface ValidTimeNode] (its [type] is the constant ["validTime"]). *)
Record ValidTimeNode : Type := mkValidTime {
  originalMatch : string;
  vtId : Z;
  vtIndex : nat;
  timestamp : Timestamp
}.

(** The strict parse of [timeString] with [fmt] is not valid. *)
Definition rejects (timeString : option string) (fmt : string) : Prop :=
  isValid (momentStrict timeString fmt) = false.

(** The assignments [parse] makes to the node it found. *)
Definition convert (node : ParsedNode) (shown : option string) : ParsedNode :=
  {| id := id node;
     originalText := match shown with Some t => t | None => "" end;
     fresh := false;
     isExtension := false;
     extendedText := None;
     converted := true;
     index := index node;
     format := format node |}.

(** The object [parsedNodes.find(p)] returns is updated in place. *)
Fixpoint updateFirst (p : ParsedNode -> bool) (f : ParsedNode -> ParsedNode)
    (l : list ParsedNode) : list ParsedNode :=
  match l with
  | [] => []
  | n :: l' => if p n then f n :: l' else n :: updateFirst p f l'
  end.

(** The [else] branch of [customRules.validTime.parse] ([state.prepLevel]
    false): the node returned ([None] for the empty array) and the
    registry afterwards.  [matchId] is [state.matchId]. *)
Definition parseValidTime (match0 : string) (matchId : option Z)
    (nodes : list ParsedNode) : option ValidTimeNode * list ParsedNode :=
  let sameId := fun n => match matchId with
                         | Some m => Z.eqb (id n) m
                         | None => false
                         end in
  match find sameId nodes with
  | None => (None, nodes)
  | Some node =>
      let shown := if isExtension node then extendedText node
                   else Some (originalText node) in
      let validTimeNode :=
        {| originalMatch := match0;
           vtId := id node;
           vtIndex := index node;
           timestamp := {| text := shown; parsed := parseHumanTime shown |} |} in
      (Some validTimeNode, updateFirst sameId (fun n => convert n shown) nodes)
  end.

End TimeResolver.

Arguments tryFormats {Moment} momentStrict isValid timeString formats.
Arguments rejects {Moment} momentStrict isValid timeString fmt.
Arguments parseHumanTime {Moment} momentStrict momentLenient isValid timeString.
Arguments parseValidTime {Moment} momentStrict momentLenient isValid match0 matchId nodes.
Arguments mkTimestamp {Moment} text parsed.
Arguments mkValidTime {Moment} originalMatch vtId vtIndex timestamp.
Arguments text {Moment} t.
Arguments parsed {Moment} t.
Arguments originalMatch {Moment} v.
Arguments vtId {Moment} v.
Arguments vtIndex {Moment} v.
Arguments timestamp {Moment} v.

(* ================================================================== *)
(** ** Notions of the specification, and the shape of a node *)

(** The two fields of an extension are set and cleared together. *)
Definition wellFormed (n : ParsedNode) : Prop :=
  isExtension n = true -> extendedText n <> None.

(** Length of the text [addNode] compares ([0] when that text is [undefined]). *)
Definition comparedLength (n : ParsedNode) : nat :=
  match comparedText n with
  | Some t => String.length t
  | None => 0
  end.

(** [n]'s start offset lies in the closed range the filter of [addNode] clears. *)
Definition startsWithin (node n : ParsedNode) : bool :=
  (index node <=? index n) && (index n <=? index node + String.length (originalText node)).

(** The specification's intersection: either endpoint of one range falls
    within the other range, shared boundary endpoints included. *)
Definition specIntersects (searchIndex searchLength : nat) (n : ParsedNode) : bool :=
  let qs := searchIndex in
  let qe := searchIndex + searchLength in
  ((index n <=? qs) && (qs <=? nodeEnd n))
  || ((index n <=? qe) && (qe <=? nodeEnd n))
  || ((qs <=? index n) && (index n <=? qe))
  || ((qs <=? nodeEnd n) && (nodeEnd n <=? qe)).

(** The specification's displayed text: [extendedText] if the span is
    extended, else [originalText]. *)
Definition displayedText (n : ParsedNode) : option string :=
  if isExtension n then extendedText n else Some (originalText n).

Definition displayedLength (n : ParsedNode) : nat :=
  match displayedText n with
  | Some t => String.length t
  | None => 0
  end.

(** The specification's containment: start and end both within the candidate's range. *)
Definition strictlyContained (node n : ParsedNode) : bool :=
  (index node <=? index n) && (nodeEnd n <=? nodeEnd node).

(** The ranges [[start, start+length)] of two spans intersect. *)
Definition overlaps (a b : ParsedNode) : bool :=
  (index a <? nodeEnd b) && (index b <? nodeEnd a).

(** Pairwise non-overlap of the held spans. *)
Fixpoint nonOverlapping (l : list ParsedNode) : bool :=
  match l with
  | [] => true
  | a :: l' => forallb (fun b => negb (overlaps a b)) l' && nonOverlapping l'
  end.

(** The text holds the placeholder marker at the node's start offset:
    [source.charAt(node.index) === "?"]. *)
Definition atPlaceholder (text : string) (n : ParsedNode) : bool :=
  String.eqb (JS.charAt text (index n)) "?".

(** A pattern source is usable by the loops: it is read as an expression
    that cannot match the empty string. *)
Definition loops (src : string) : bool :=
  match RegExp.compile src with
  | Some r => negb (RegExp.nullable r)
  | None => false
  end.

(** A pattern source none of whose matches can begin with the marker. *)
Definition avoidsMarker (src : string) : bool :=
  match RegExp.compile src with
  | Some r => negb (RegExp.nullable r) && negb (RegExp.first r "?"%char)
  | None => false
  end.

(** The node with its clock-derived [id] set aside. *)
Definition eraseId (n : ParsedNode) : ParsedNode :=
  {| id := 0%Z; originalText := originalText n; fresh := fresh n;
     isExtension := isExtension n; extendedText := extendedText n;
     converted := converted n; index := index n; format := format n |}.

Definition shapes (w : world) : list ParsedNode := map eraseId (parsedNodes w).

(** What a reader sees of the result of the whole-string pass. *)
Definition views (out : option (list Split.node))
  : option (list (nat * Split.kind * string * option string)) :=
  option_map (map Split.view) out.

(** A node as the scan builds it, and one that a previous pass has rendered. *)
Definition scanned (p : nat) (i : nat) (t : string) : ParsedNode :=
  mkNode 0 t true false None false i (CatalogPattern p).

Definition rendered (p : nat) (i : nat) (t : string) : ParsedNode :=
  mkNode 0 t false false None true i (CatalogPattern p).

Definition mapOutcome {A B : Type} (f : A -> B) (m : outcome A) : outcome B :=
  match m with
  | Ok a => Ok (f a)
  | Fail e => Fail e
  end.

(** The scan with the clock set aside: the loop of [scan] over registries
    of nodes whose [id] is erased. *)
Definition shapeScan (text : string) (nodes : list ParsedNode)
  : outcome (list ParsedNode) :=
  forEach (fun p => globalLoop (source (CatalogPattern p))
                      (fun i t sh => addNode (scanned p i t) sh) text)
          patterns nodes.

(** What the whole-string pass shows for a registry. *)
Definition shownFor (text : string) (nodes : list ParsedNode)
  : option (list (nat * Split.kind * string * option string)) :=
  if negb (existsb fresh nodes) then None
  else
    match splitNodes text nodes with
    | [] => None
    | entries => Some (map Split.view entries)
    end.

(** No held span sits at a marker of the text. *)
Definition clearOfMarkers (text : string) (nodes : list ParsedNode) : Prop :=
  forall n, In n nodes -> atPlaceholder text n = false.

(** A node as the scan of [text] builds it. *)
Definition scanShaped (text : string) (n : ParsedNode) : Prop :=
  fresh n = true /\ isExtension n = false /\ atPlaceholder text n = false.

(** What the whole-string pass shows in a new session, whose registry is empty. *)
Definition newSessionView (text : string)
  : outcome (option (list (nat * Split.kind * string * option string))) :=
  mapOutcome (fun sh => shownFor text (sortByKey index sh)) (shapeScan text []).

(** The pattern sources the engine can ever hold or build: the catalog's,
    and each catalog source with the first occurrence of another catalog
    source replaced by the wildcard. *)
Definition knownSources : list string :=
  Eval vm_compute in
    nodup string_dec
      (humanTimeFormatRegex
         ++ flat_map
              (fun p =>
                 map (fun q =>
                        JS.replace (source (CatalogPattern p))
                          (source (CatalogPattern q)) "(\?)")
                     patterns)
              patterns).

Definition knownFormat (f : RegExpObject) : bool :=
  match f with
  | CatalogPattern q => q <? List.length humanTimeFormatRegex
  | GlobalPattern src => existsb (String.eqb src) knownSources
  end.

(** A node as the engine builds and keeps it. *)
Definition engineNode (n : ParsedNode) : Prop :=
  wellFormed n /\ knownFormat (format n) = true.

(** A clock that stands still during a pass. *)
Definition stoppedClock : nat -> Z := fun _ => 0%Z.

(** The expression read from the extension source of "HH:mm:ss" around a
    span matched by "HH:mm", [(\?):(?:[0-5]\d)]. *)
Definition secondsAfterPlaceholder : RegExp.regex :=
  Eval vm_compute in
    match RegExp.compile
            (JS.replace (source (CatalogPattern 16)) (source (CatalogPattern 18)) "(\?)")
    with
    | Some r => r
    | None => RegExp.Empty
    end.

(* ================================================================== *)
(** ** The nested pass of [validTime.match] *)

(** [re.exec(s)]: the first match at or after [lastIndex], as
    [(match.index, match[0])]; [i] is the offset of [s] in the subject and
    [skip] the distance from there to [lastIndex].  A pattern without the
    [g] flag always starts at 0. *)
Fixpoint execFrom (r : RegExp.regex) (s : string) (i skip : nat) {struct s}
  : option (nat * string) :=
  match skip with
  | S skip' =>
      match s with
      | EmptyString => None
      | String _ s' => execFrom r s' (S i) skip'
      end
  | 0 =>
      match RegExp.matchAt r s with
      | Some n => Some (i, String.substring 0 n s)
      | None =>
          match s with
          | EmptyString => None
          | String _ s' => execFrom r s' (S i) 0
          end
      end
  end.

(** [node.format.exec(source)] for a held node whose pattern object has
    the given [lastIndex]: the match and the [lastIndex] the object is left
    with.  A catalog literal has no [g] flag: it searches from 0 and its
    [lastIndex] stays.  A pattern built by the widening loop has it: it
    searches from [lastIndex], which becomes the end of the match, or 0
    when there is none. *)
Definition formatExec (f : RegExpObject) (lastIndex : nat) (subject : string)
  : outcome (option (nat * string) * nat) :=
  match RegExp.compile (source f) with
  | None => Fail RegExpError
  | Some r =>
      match f with
      | CatalogPattern _ => Ok (execFrom r subject 0 0, lastIndex)
      | GlobalPattern _ =>
          match execFrom r subject 0 lastIndex with
          | Some m => Ok (Some m, fst m + String.length (snd m))
          | None => Ok (None, 0)
          end
      end
  end.

(** The [nestedString] branch of [customRules.validTime.match], over the
    registry with, beside each node, the [lastIndex] of its pattern object:
    the match returned ([None] for [null]) and the registry with the
    [lastIndex] values the calls to [exec] leave.  (A pattern built by the
    widening loop is held by one node only: a loop accepts at most the one
    match that starts at the widened span.) *)
Fixpoint nestedMatch (subject : string) (held : list (ParsedNode * nat))
  : outcome (option (nat * string) * list (ParsedNode * nat)) :=
  match held with
  | [] => Ok (None, [])
  | (node, lastIndex) :: rest =>
      if converted node then
        r <- nestedMatch subject rest ;; Ok (fst r, (node, lastIndex) :: snd r)
      else if negb (String.eqb subject (originalText node)) then
        r <- nestedMatch subject rest ;; Ok (fst r, (node, lastIndex) :: snd r)
      else
        e <- formatExec (format node) lastIndex subject ;;
        match fst e with
        | Some m => Ok (Some m, (node, snd e) :: rest)
        | None =>
            r <- nestedMatch subject rest ;; Ok (fst r, (node, snd e) :: snd r)
        end
  end.

(** [prepNode.actualText ?? prepNode.text]: the text the prep branch of
    [parse] hands to [nestedParse] for an entry. *)
Definition handedText (e : Split.node) : string :=
  match Split.actualText e with
  | Some t => t
  | None => Split.text e
  end.

(** The length a held node takes in the text, as the whole-string pass
    counts it: [node.fresh ? node.originalText.length : 1]. *)
Definition nodeLength (n : ParsedNode) : nat :=
  if fresh n then String.length (originalText n) else 1.

(* ================================================================== *)
(** ** Notions used by the further properties *)

(** Of two spans the first starts and ends strictly before the second:
    neither contains the other. *)
Definition strictlyBefore (a b : ParsedNode) : Prop :=
  index a < index b /\ nodeEnd a < nodeEnd b.

(** A span as the scan of [text] leaves it: fresh, no extension, not
    converted, with the catalog pattern [p] as its format, whose
    [originalText] is not empty, stands in [text] at the span's [index] and
    is the match of [p] there. *)
Definition located (text : string) (n : ParsedNode) : Prop :=
  fresh n = true /\ isExtension n = false /\ converted n = false
  /\ originalText n <> EmptyString
  /\ exists p r before after,
       format n = CatalogPattern p
       /\ In p patterns
       /\ RegExp.compile (source (CatalogPattern p)) = Some r
       /\ text = (before ++ originalText n ++ after)%string
       /\ String.length before = index n
       /\ RegExp.matchAt r (originalText n ++ after)
          = Some (String.length (originalText n)).

(** A held node agrees with the text: a fresh one has its [originalText],
    which is not empty, at its [index]; one that is not fresh has the
    marker there. *)
Definition fits (text : string) (n : ParsedNode) : Prop :=
  if fresh n then
    originalText n <> EmptyString
    /\ String.substring (index n) (String.length (originalText n)) text
       = originalText n
  else String.get (index n) text = Some "?"%char.

(** Each span ends, in the text, where the next starts or before. *)
Definition apart (a b : ParsedNode) : Prop := index a + nodeLength a <= index b.

(** The offset at which the last of the spans ends ([0] when there is none). *)
Definition lastEnd (nodes : list ParsedNode) : nat :=
  match rev nodes with
  | [] => 0
  | n :: _ => index n + nodeLength n
  end.

(** The registry a scan leaves when it starts with no span at a marker:
    the spans of the scan, none containing another, with ids read from the
    clock. *)
Definition scanRegistry (now : nat -> Z) (text : string) (l : list ParsedNode) : Prop :=
  Forall (located text) l
  /\ StronglySorted strictlyBefore l
  /\ Forall (fun n => exists k, id n = now k) l.

(** [v] is what is left of [rest] after at least one character. *)
Definition inside (rest v : string) : Prop :=
  exists w, w <> EmptyString /\ rest = (w ++ v)%string.

(** The continuation [k'], used in front of [rest], does what [k] does
    without it, except for results in [D], which are the only ones it
    gives once it is called inside [rest]. *)
Definition follows (rest : string) (D : nat -> Prop)
    (k k' : string -> option nat) : Prop :=
  (forall u x, k' (u ++ rest)%string = Some x -> k u = Some x \/ D x)
  /\ (forall u, k u <> None -> k' (u ++ rest)%string <> None)
  /\ (forall v x, inside rest v -> k' v = Some x -> D x).

(** A held node whose [originalText] its own catalog pattern matches, in
    front of some text. *)
Definition recognisable (n : ParsedNode) : Prop :=
  exists p r after,
    format n = CatalogPattern p
    /\ RegExp.compile (source (CatalogPattern p)) = Some r
    /\ RegExp.matchAt r (originalText n ++ after)
       = Some (String.length (originalText n)).

(** The entry the whole-string pass pushes for a held node. *)
Definition spanEntry (n : ParsedNode) : Split.node :=
  {| Split.index := index n;
     Split.text := originalText n;
     Split.actualText := Some (if fresh n then originalText n else "?");
     Split.type := Split.prepValidTime;
     Split.id := Some (id n) |}.

(* ================================================================== *)
(** ** Texts without a dollar sign *)

(** The text holds no dollar sign: used as a replacement string it stands
    for itself. *)
Fixpoint plainText (s : string) : bool :=
  match s with
  | EmptyString => true
  | String c s' => negb (Ascii.eqb c "$") && plainText s'
  end.

(** Neither text of the node holds a dollar sign. *)
Definition plainNode (n : ParsedNode) : Prop :=
  plainText (originalText n) = true
  /\ forall t, extendedText n = Some t -> plainText t = true.

(** Some position of the expression accepts the character [c]. *)
Fixpoint takes (r : RegExp.regex) (c : ascii) : bool :=
  match r with
  | RegExp.Empty => false
  | RegExp.Chr x => Ascii.eqb c x
  | RegExp.Digit => RegExp.isDigit c
  | RegExp.Class ranges => existsb (RegExp.inRange c) ranges
  | RegExp.Seq r1 r2 => takes r1 c || takes r2 c
  | RegExp.Alt r1 r2 => takes r1 c || takes r2 c
  | RegExp.Opt r1 => takes r1 c
  end.

(** A pattern source none of whose matches holds a dollar sign. *)
Definition avoidsDollar (src : string) : bool :=
  match RegExp.compile src with
  | Some r => negb (takes r "$"%char)
  | None => false
  end.

(* ================================================================== *)
(** ** Notions used for the repeated pass *)

(** The widening loop with the clock set aside, over registries of nodes
    whose [id] is erased. *)
Definition shapeWidenPattern (text : string) (node : ParsedNode) (p : nat)
    (sh : list ParsedNode) : outcome (list ParsedNode) :=
  if sameObject p (format node) then Ok sh
  else
    let src := extensionSource p node in
    globalLoop src
      (fun i t sh0 =>
         if negb (index node =? i) then Ok sh0
         else addNode (extensionNode src node i t 0%Z) sh0)
      text sh.

Definition shapeWiden (text : string) (targets : list ParsedNode)
    (sh : list ParsedNode) : outcome (list ParsedNode) :=
  forEach (fun node => forEach (shapeWidenPattern text node) patterns) targets sh.

(** [findTimesInOriginalSource] with the clock set aside, from the spans
    the placeholder pass keeps. *)
Definition shapePass (text : string) (kept : list ParsedNode)
  : outcome (list ParsedNode) :=
  sh1 <- shapeScan text (map eraseId kept) ;;
  sh2 <- shapeWiden text (rev kept) sh1 ;;
  Ok (sortByKey index sh2).

(** The registry holds a fresh extension: the widening accepted one. *)
Definition holdsExtension (sh : list ParsedNode) : Prop :=
  exists n, In n sh /\ fresh n = true /\ isExtension n = true.

(** A step that either leaves the state as it is or reaches a state with
    [Q], and that never leaves [Q]. *)
Definition sticky {St : Type} (Q : St -> Prop) (body : St -> outcome St) : Prop :=
  forall st st', body st = Ok st' -> (st' = st \/ Q st') /\ (Q st -> Q st').

(** [held] is the registry [nodes] after [parse] converted some of its spans. *)
Definition convertedFrom (nodes held : list ParsedNode) : Prop :=
  Forall2 (fun a b => b = a \/ b = convert a (displayedText a)) nodes held.

(** What [react] draws for the node [parse] returned, and where: the
    node's [index] and its [timestamp.text]; nothing for the empty array. *)
Definition drawn {Moment : Type} (v : option (ValidTimeNode Moment))
  : option (nat * option string) :=
  option_map (fun n => (vtIndex n, text (timestamp n))) v.

(** Every span has an id of its own: the spans kept have different ids, and
    from the reading [from] on the clock gives each reading a value it did
    not give before and that no kept span has. *)
Definition ownIds (now : nat -> Z) (from : nat) (kept : list ParsedNode) : Prop :=
  NoDup (map id kept)
  /\ (forall n k, In n kept -> from <= k -> now k <> id n)
  /\ (forall i j, from <= i -> from <= j -> now i = now j -> i = j).

(** A clock that advances at every reading, and one that advances twice
    and then stands still. *)
Definition tickingClock : nat -> Z := fun k => Z.of_nat (S k).

Definition stallingClock : nat -> Z := fun k => Z.of_nat (Nat.min k 2).

(** A span of the registry was kept by the placeholder pass, or it is fresh
    and its id is a reading of the clock made since the reading [from]. *)
Definition origin (now : nat -> Z) (kept : list ParsedNode) (from upto : nat)
    (n : ParsedNode) : Prop :=
  In n kept
  \/ (fresh n = true /\ exists k, from <= k < upto /\ id n = now k).

(** The state of a search whose spans are accounted for. *)
Definition traced (now : nat -> Z) (kept : list ParsedNode) (from : nat)
    (st : world) : Prop :=
  from <= clockReads st
  /\ Forall (origin now kept from (clockReads st)) (parsedNodes st)
  /\ (ownIds now from kept -> NoDup (map id (parsedNodes st))).

(** A registry as the passes of a session leave it: every span seen and
    built by the engine, in ascending order of distinct offsets. *)
Definition settled (nodes : list ParsedNode) : Prop :=
  Forall (fun n => fresh n = false /\ engineNode n) nodes
  /\ StronglySorted (fun a b => index a < index b) nodes.

(* ================================================================== *)
(** * Properties *)

(** ** Sorting *)

Section SortingFacts.
Variable A : Type.
Variable key : A -> nat.

Lemma insertByKey_perm (x : A) (l : list A) :
  Permutation (insertByKey key x l) (x :: l).
Proof.
  induction l as [|y l IH]; simpl.
  - apply Permutation_refl.
  - destruct (key x <? key y).
    + apply Permutation_refl.
    + apply perm_trans with (y :: x :: l).
      * apply perm_skip, IH.
      * apply perm_swap.
Qed.

Lemma insertByKey_sorted (x : A) (l : list A) :
  StronglySorted (byKey key) l -> StronglySorted (byKey key) (insertByKey key x l).
Proof.
  induction l as [|y l IH]; simpl; intros Hs.
  - constructor; [constructor | constructor].
  - inversion Hs as [|y' l' Hl Hy]; subst.
    destruct (key x <? key y) eqn:E.
    + apply Nat.ltb_lt in E.
      constructor; [exact Hs|].
      constructor; [unfold byKey; lia|].
      eapply Forall_impl; [|exact Hy].
      unfold byKey; intros a Ha; lia.
    + apply Nat.ltb_ge in E.
      constructor; [apply IH, Hl|].
      eapply Permutation_Forall.
      * apply Permutation_sym, insertByKey_perm.
      * constructor; [exact E | exact Hy].
Qed.

Lemma sortByKey_from (l acc : list A) :
  StronglySorted (byKey key) acc ->
  StronglySorted (byKey key) (fold_left (fun a x => insertByKey key x a) l acc)
  /\ Permutation (fold_left (fun a x => insertByKey key x a) l acc) (acc ++ l).
Proof.
  revert acc; induction l as [|x l IH]; simpl; intros acc Hs.
  - rewrite app_nil_r; split; [exact Hs | apply Permutation_refl].
  - destruct (IH (insertByKey key x acc) (insertByKey_sorted x acc Hs)) as [H1 H2].
    split; [exact H1|].
    eapply perm_trans; [exact H2|].
    apply perm_trans with ((x :: acc) ++ l).
    + apply Permutation_app_tail, insertByKey_perm.
    + simpl. apply Permutation_cons_app, Permutation_refl.
Qed.

Lemma sortByKey_sorted (l : list A) : StronglySorted (byKey key) (sortByKey key l).
Proof. apply sortByKey_from; constructor. Qed.

Lemma sortByKey_perm (l : list A) : Permutation (sortByKey key l) l.
Proof. apply (sortByKey_from l []); constructor. Qed.

Lemma sortByKey_In (l : list A) (x : A) : In x (sortByKey key l) <-> In x l.
Proof.
  split; apply Permutation_in;
    [apply sortByKey_perm | apply Permutation_sym, sortByKey_perm].
Qed.

End SortingFacts.

Arguments sortByKey_sorted {A} key l.
Arguments sortByKey_perm {A} key l.
Arguments sortByKey_In {A} key l x.

(* ------------------------------------------------------------------ *)
(** ** The registry: [getIntersectingNodes] and [addNode] *)

Lemma wellFormed_compared (n : ParsedNode) :
  wellFormed n -> exists t, comparedText n = Some t.
Proof.
  unfold wellFormed, comparedText. intros W.
  destruct (fresh n); [|eauto].
  destruct (isExtension n); [|eauto].
  destruct (extendedText n) as [t|]; [eauto|].
  exfalso; now apply W.
Qed.

Lemma isLonger_defined (node n : ParsedNode) :
  wellFormed node -> wellFormed n ->
  isLonger node n = Ok (comparedLength node <? comparedLength n).
Proof.
  intros Wn Wo.
  destruct (wellFormed_compared node Wn) as [w Hw].
  destruct (wellFormed_compared n Wo) as [o Ho].
  unfold isLonger, comparedLength. now rewrite Hw, Ho.
Qed.

Lemma findLonger_defined (node : ParsedNode) (l : list ParsedNode) :
  wellFormed node -> Forall wellFormed l ->
  findLonger node l
  = Ok (find (fun n => comparedLength node <? comparedLength n) l).
Proof.
  intros Wn Wl. induction Wl as [|n l Hn Hl IH]; simpl; [reflexivity|].
  rewrite (isLonger_defined node n Wn Hn); simpl.
  destruct (comparedLength node <? comparedLength n); [reflexivity | exact IH].
Qed.

Lemma addNode_unfold (node : ParsedNode) (arr : list ParsedNode) :
  addNode node arr
  = (longerNode <- findLonger node
                     (getIntersectingNodes (index node)
                        (String.length (originalText node)) arr) ;;
     match longerNode with
     | Some _ => Ok arr
     | None => Ok (sortByKey index (filter (keep node) arr ++ [node]))
     end).
Proof.
  unfold addNode.
  destruct (getIntersectingNodes (index node) (String.length (originalText node)) arr);
    reflexivity.
Qed.

Lemma keep_startsWithin (node n : ParsedNode) :
  keep node n = negb (startsWithin node n).
Proof.
  unfold keep, startsWithin.
  destruct (Nat.ltb_spec (index n) (index node));
    destruct (Nat.ltb_spec (index node + String.length (originalText node)) (index n));
    destruct (Nat.leb_spec (index node) (index n));
    destruct (Nat.leb_spec (index n) (index node + String.length (originalText node)));
    simpl; try reflexivity; lia.
Qed.

Lemma startsWithin_iff (node n : ParsedNode) :
  startsWithin node n = true
  <-> index node <= index n <= index node + String.length (originalText node).
Proof.
  unfold startsWithin. rewrite andb_true_iff, !Nat.leb_le. tauto.
Qed.

(** The array [addNode] returns when it accepts the candidate. *)
Lemma addNode_accepted (node : ParsedNode) (arr : list ParsedNode) :
  findLonger node
    (getIntersectingNodes (index node) (String.length (originalText node)) arr)
  = Ok None ->
  addNode node arr = Ok (sortByKey index (filter (keep node) arr ++ [node])).
Proof. intros H. rewrite addNode_unfold, H. reflexivity. Qed.

(** C4 (amended).  [getIntersectingNodes(index, length, arr)] reports a held
    node exactly when the start of the queried range, or its end, lies in
    the closed range of that node, from the node's [index] to its [index]
    plus the length of its [originalText]. *)
Theorem getIntersectingNodes_reports (searchIndex searchLength : nat)
    (arr : list ParsedNode) (n : ParsedNode) :
  In n (getIntersectingNodes searchIndex searchLength arr)
  <-> In n arr
      /\ (index n <= searchIndex <= nodeEnd n
          \/ index n <= searchIndex + searchLength <= nodeEnd n).
Proof.
  unfold getIntersectingNodes, nodeEnd. rewrite filter_In. cbv zeta.
  rewrite orb_true_iff, !andb_true_iff, !Nat.leb_le. tauto.
Qed.

(** C4 (as the claim states it, refuted).  The test is not the symmetric
    one: a held span lying strictly inside the queried range, such as
    "1PM" at offset 2 for the query of offset 0 and length 10, is not
    reported although one of its endpoints falls within the queried range. *)
Lemma getIntersectingNodes_not_symmetric :
  ~ (forall searchIndex searchLength arr n,
        In n (getIntersectingNodes searchIndex searchLength arr)
        <-> In n arr /\ specIntersects searchIndex searchLength n = true).
Proof.
  intros H.
  destruct (H 0 10 [scanned 14 2 "1PM"] (scanned 14 2 "1PM")) as [_ H2].
  assert (Hin : In (scanned 14 2 "1PM")
                  (getIntersectingNodes 0 10 [scanned 14 2 "1PM"])).
  { apply H2. split; [left; reflexivity | reflexivity]. }
  exact Hin.
Qed.

Lemma intersecting_wellFormed (i l : nat) (arr : list ParsedNode) :
  Forall wellFormed arr -> Forall wellFormed (getIntersectingNodes i l arr).
Proof.
  rewrite !Forall_forall. intros H n Hn.
  apply H. unfold getIntersectingNodes in Hn. apply filter_In in Hn. tauto.
Qed.

(** C2 (amended).  If some held span reported by [getIntersectingNodes] for
    the candidate's range has a longer compared text than the candidate,
    [addNode] returns the registry unchanged.  The compared text of a fresh
    span is [extendedText] when it is an extension and [originalText]
    otherwise; the compared text of a span that is not fresh is the
    one-character placeholder. *)
Theorem addNode_discards (node : ParsedNode) (arr : list ParsedNode) (n : ParsedNode) :
  wellFormed node ->
  Forall wellFormed arr ->
  In n (getIntersectingNodes (index node) (String.length (originalText node)) arr) ->
  comparedLength node < comparedLength n ->
  addNode node arr = Ok arr.
Proof.
  intros Wn Wa Hin Hlt.
  rewrite addNode_unfold.
  rewrite (findLonger_defined node _ Wn (intersecting_wellFormed _ _ arr Wa)).
  simpl.
  destruct (find (fun m => comparedLength node <? comparedLength m)
              (getIntersectingNodes (index node)
                 (String.length (originalText node)) arr)) eqn:F.
  - reflexivity.
  - apply (find_none _ _ F) in Hin. apply Nat.ltb_ge in Hin. lia.
Qed.

Lemma addNode_discards_witness :
  comparedLength (scanned 18 0 "13:30") < comparedLength (scanned 16 0 "13:30:45")
  /\ addNode (scanned 18 0 "13:30") [scanned 16 0 "13:30:45"]
     = Ok [scanned 16 0 "13:30:45"].
Proof.
  split.
  - unfold comparedLength; simpl; lia.
  - apply (addNode_discards (scanned 18 0 "13:30") [scanned 16 0 "13:30:45"]
             (scanned 16 0 "13:30:45")).
    + unfold wellFormed; simpl; discriminate.
    + constructor; [unfold wellFormed; simpl; discriminate | constructor].
    + simpl; left; reflexivity.
    + unfold comparedLength; simpl; lia.
Defined.

(** C2 (as the claim states it, refuted).  With the length taken from the
    displayed text ([extendedText] if extended, else [originalText]) the rule
    fails for a held span that is not fresh: "13:30:45" rendered at offset 0
    is longer than the candidate "13:30" at offset 2 and intersects it, yet
    the candidate is added. *)
Lemma addNode_displayed_length_refuted :
  ~ (forall node arr n,
        In n (getIntersectingNodes (index node)
                (String.length (originalText node)) arr) ->
        displayedLength node < displayedLength n ->
        addNode node arr = Ok arr).
Proof.
  intros H.
  specialize (H (scanned 18 2 "13:30") [rendered 16 0 "13:30:45"]
                (rendered 16 0 "13:30:45")).
  assert (E : addNode (scanned 18 2 "13:30") [rendered 16 0 "13:30:45"]
              = Ok [rendered 16 0 "13:30:45"]).
  { apply H.
    - simpl; left; reflexivity.
    - unfold displayedLength; simpl; lia. }
  vm_compute in E. discriminate E.
Qed.

(** C3 (amended).  When the longer-span check does not discard the
    candidate, [addNode] removes exactly the held spans whose start offset
    lies in the closed range from the candidate's [index] to its [index]
    plus the length of its [originalText], wherever they end; it keeps the
    others, adds the candidate, and returns the result in ascending order
    of [index]. *)
Theorem addNode_removes_by_start (node : ParsedNode) (arr : list ParsedNode) :
  findLonger node
    (getIntersectingNodes (index node) (String.length (originalText node)) arr)
  = Ok None ->
  exists res,
    addNode node arr = Ok res
    /\ Permutation res (node :: filter (fun n => negb (startsWithin node n)) arr)
    /\ StronglySorted (byKey index) res.
Proof.
  intros H. eexists. split; [apply addNode_accepted, H|]. split.
  - eapply perm_trans; [apply sortByKey_perm|].
    eapply perm_trans; [apply Permutation_sym, Permutation_cons_append|].
    apply perm_skip.
    erewrite filter_ext; [apply Permutation_refl|].
    intros n. now rewrite keep_startsWithin.
  - apply sortByKey_sorted.
Qed.

Lemma addNode_removes_by_start_witness :
  exists res,
    addNode (scanned 18 0 "13:30") [scanned 7 5 "21/03"; scanned 14 9 "1PM"] = Ok res
    /\ Permutation res
         (scanned 18 0 "13:30"
            :: filter (fun n => negb (startsWithin (scanned 18 0 "13:30") n))
                 [scanned 7 5 "21/03"; scanned 14 9 "1PM"])
    /\ StronglySorted (byKey index) res.
Proof.
  apply (addNode_removes_by_start (scanned 18 0 "13:30")
           [scanned 7 5 "21/03"; scanned 14 9 "1PM"]).
  reflexivity.
Defined.

(** C3 (as the claim states it, refuted).  The span "21/03" at offset 5 is
    adjacent to the candidate "13:30" at offset 0 and not contained in its
    range, and it is removed all the same: what is left is not the
    candidate together with the spans that are not contained in it. *)
Lemma addNode_contained_only_refuted :
  ~ (forall node arr,
        findLonger node
          (getIntersectingNodes (index node)
             (String.length (originalText node)) arr) = Ok None ->
        exists res,
          addNode node arr = Ok res
          /\ Permutation res
               (node :: filter (fun n => negb (strictlyContained node n)) arr)).
Proof.
  intros H.
  destruct (H (scanned 18 0 "13:30") [scanned 7 5 "21/03"] eq_refl)
    as [res [E P]].
  vm_compute in E. injection E as <-.
  apply Permutation_length in P. vm_compute in P. discriminate P.
Qed.

(** A span that starts inside the candidate and ends beyond it is removed
    as well: "2024-03-21" at offset 9 under "at 13:30:20" at offset 0. *)
Example addNode_removes_span_ending_beyond :
  addNode (scanned 15 0 "at 13:30:20") [scanned 6 9 "2024-03-21"]
  = Ok [scanned 15 0 "at 13:30:20"]
  /\ strictlyContained (scanned 15 0 "at 13:30:20") (scanned 6 9 "2024-03-21") = false.
Proof. split; reflexivity. Qed.

Lemma findLonger_none (node : ParsedNode) (l : list ParsedNode) :
  (forall n, In n l ->
     exists o w, comparedText n = Some o /\ comparedText node = Some w
                 /\ String.length o <= String.length w) ->
  findLonger node l = Ok None.
Proof.
  induction l as [|n l IH]; simpl; intros H; [reflexivity|].
  destruct (H n (or_introl eq_refl)) as [o [w [Ho [Hw Hle]]]].
  unfold isLonger. rewrite Ho, Hw. simpl.
  destruct (Nat.ltb_spec (String.length w) (String.length o)); [lia|].
  apply IH. intros m Hm. apply H. now right.
Qed.

(** C10.  When at least one held span intersects the candidate and none of
    the intersecting spans has a compared text longer than the candidate's
    (equal lengths included), [addNode] accepts the candidate: the result
    holds the candidate, and of the held spans exactly those whose start
    offset lies outside the closed range from the candidate's [index] to
    its [index] plus the length of its [originalText].  A span that is not
    fresh is compared as the one-character text "?", whatever its
    [originalText] and [extendedText]. *)
Theorem addNode_last_wins (node : ParsedNode) (arr : list ParsedNode) :
  getIntersectingNodes (index node) (String.length (originalText node)) arr <> [] ->
  (forall n,
     In n (getIntersectingNodes (index node) (String.length (originalText node)) arr) ->
     exists o w, comparedText n = Some o /\ comparedText node = Some w
                 /\ String.length o <= String.length w) ->
  exists res,
    addNode node arr = Ok res
    /\ In node res
    /\ (forall n, In n res <->
                  n = node
                  \/ (In n arr
                      /\ ~ (index node <= index n
                            <= index node + String.length (originalText node))))
    /\ (forall n, fresh n = false ->
                  comparedText n = Some "?" /\ comparedLength n = 1).
Proof.
  intros _ H. eexists. split; [apply addNode_accepted, findLonger_none, H|].
  assert (M : forall n,
             In n (sortByKey index (filter (keep node) arr ++ [node])) <->
             n = node
             \/ (In n arr
                 /\ ~ (index node <= index n
                       <= index node + String.length (originalText node)))).
  { intros n. rewrite sortByKey_In, in_app_iff, filter_In, keep_startsWithin.
    rewrite negb_true_iff, <- not_true_iff_false, startsWithin_iff.
    simpl. intuition. }
  split; [apply M; now left|]. split; [exact M|].
  intros n Hn. unfold comparedLength, comparedText. rewrite Hn. split; reflexivity.
Qed.

Lemma addNode_last_wins_witness :
  exists res,
    addNode (scanned 6 6 "2024-03-21") [scanned 4 0 "21/03/2024"] = Ok res
    /\ In (scanned 6 6 "2024-03-21") res.
Proof.
  destruct (addNode_last_wins (scanned 6 6 "2024-03-21") [scanned 4 0 "21/03/2024"])
    as [res [E [I _]]].
  - simpl; discriminate.
  - intros n Hn. simpl in Hn. destruct Hn as [<-|[]].
    exists "21/03/2024", "2024-03-21". repeat split; simpl; lia.
  - exists res. split; assumption.
Defined.

(* ------------------------------------------------------------------ *)
(** ** The placeholder pass *)

Lemma node_eqb_refl (n : ParsedNode) : node_eqb n n = true.
Proof.
  unfold node_eqb.
  rewrite Z.eqb_refl, String.eqb_refl, !Bool.eqb_reflx, Nat.eqb_refl. simpl.
  assert (T : text_eqb (extendedText n) (extendedText n) = true).
  { destruct (extendedText n); simpl; [apply String.eqb_refl | reflexivity]. }
  assert (F : format_eqb (format n) (format n) = true).
  { destruct (format n); simpl; [apply Nat.eqb_refl | apply String.eqb_refl]. }
  now rewrite T, F.
Qed.

Lemma node_eqb_index (a b : ParsedNode) : node_eqb a b = true -> index a = index b.
Proof.
  unfold node_eqb. rewrite !andb_true_iff. intros [[_ H] _].
  now apply Nat.eqb_eq.
Qed.

Lemma classify_from (text : string) (l pv tr : list ParsedNode) :
  fold_left
    (fun acc node =>
       if String.eqb (JS.charAt text (index node)) "?"
       then (fst acc ++ [node], snd acc)
       else (fst acc, snd acc ++ [node]))
    l (pv, tr)
  = (pv ++ filter (atPlaceholder text) l,
     tr ++ filter (fun n => negb (atPlaceholder text n)) l).
Proof.
  revert pv tr. induction l as [|n l IH]; intros pv tr.
  - simpl. now rewrite !app_nil_r.
  - cbn [fold_left filter fst snd].
    change (String.eqb (JS.charAt text (index n)) "?") with (atPlaceholder text n).
    destruct (atPlaceholder text n); cbn [negb fst snd];
      rewrite IH, <- app_assoc; reflexivity.
Qed.

Lemma classify_spec (text : string) (nodes : list ParsedNode) :
  classify text nodes
  = (filter (atPlaceholder text) (rev nodes),
     filter (fun n => negb (atPlaceholder text n)) (rev nodes)).
Proof. unfold classify. now rewrite classify_from. Qed.

Lemma filter_rev {A : Type} (f : A -> bool) (l : list A) :
  filter f (rev l) = rev (filter f l).
Proof.
  induction l as [|x l IH]; simpl; [reflexivity|].
  rewrite filter_app, IH. simpl.
  destruct (f x); simpl; [reflexivity | now rewrite app_nil_r].
Qed.

Lemma no_marker_no_placeholder (text : string) :
  String.index 0 "?" text = None ->
  forall i, String.get i text <> Some "?"%char.
Proof.
  induction text as [|c text IH]; intros H i.
  - destruct i; discriminate.
  - cbn -[ascii_dec] in H.
    destruct (ascii_dec "?" c) as [<-|Hc].
    + destruct text; discriminate.
    + destruct (String.index 0 "?" text); [discriminate|].
      destruct i; cbn [String.get].
      * intros E. apply Hc. congruence.
      * now apply IH.
Qed.

Lemma atPlaceholder_needs_marker (text : string) (n : ParsedNode) :
  JS.includes text "?" = false -> atPlaceholder text n = false.
Proof.
  unfold JS.includes, atPlaceholder, JS.charAt. intros H.
  destruct (String.index 0 "?" text) eqn:E; [discriminate|].
  pose proof (no_marker_no_placeholder text E (index n)) as G.
  destruct (String.get (index n) text) as [c|]; [|reflexivity].
  apply String.eqb_neq. intros K. apply G. congruence.
Qed.

Lemma filter_none {A : Type} (f : A -> bool) (l : list A) :
  (forall x, f x = false) -> filter f l = [].
Proof.
  intros H. induction l as [|x l IH]; simpl; [reflexivity|].
  now rewrite H.
Qed.

Lemma placeholder_pass (text : string) (nodes : list ParsedNode) :
  reconcile text nodes = filter (atPlaceholder text) nodes
  /\ placeholderValues text nodes = rev (filter (atPlaceholder text) nodes).
Proof.
  unfold reconcile, placeholderValues, toRemove.
  destruct (JS.includes text "?") eqn:I.
  - rewrite classify_spec; simpl. split; [|apply filter_rev].
    apply filter_ext_in. intros n Hn.
    destruct (atPlaceholder text n) eqn:P.
    + apply negb_true_iff.
      destruct (existsb (node_eqb n)
                  (filter (fun m => negb (atPlaceholder text m)) (rev nodes))) eqn:X;
        [|reflexivity].
      apply existsb_exists in X as [m [Hm E]].
      apply filter_In in Hm as [_ Hm]. apply negb_true_iff in Hm.
      apply node_eqb_index in E. unfold atPlaceholder in *. congruence.
    + apply negb_false_iff, existsb_exists. exists n. split.
      * apply filter_In. split; [now apply in_rev in Hn | now rewrite P].
      * apply node_eqb_refl.
  - simpl. rewrite (filter_none (atPlaceholder text) nodes)
      by (intros n; now apply atPlaceholder_needs_marker).
    split; reflexivity.
Qed.

(** C7.  For every text and every registry, the placeholder pass keeps
    exactly the held spans whose start offset holds the marker "?" in the
    text, in their order, and these are the widening candidates (visited
    from the last to the first); every other held span is dropped; and a
    text with no marker at all leaves the registry empty before the scan. *)
Theorem reconcile_keeps_placeholders (text : string) (nodes : list ParsedNode) :
  reconcile text nodes = filter (atPlaceholder text) nodes
  /\ placeholderValues text nodes = rev (filter (atPlaceholder text) nodes)
  /\ (JS.includes text "?" = false ->
      reconcile text nodes = [] /\ placeholderValues text nodes = []).
Proof.
  destruct (placeholder_pass text nodes) as [R P].
  split; [exact R|]. split; [exact P|].
  intros I. rewrite R, P.
  rewrite (filter_none (atPlaceholder text) nodes)
    by (intros n; now apply atPlaceholder_needs_marker).
  split; reflexivity.
Qed.

(* ------------------------------------------------------------------ *)
(** ** The matcher *)

Module RegExpFacts.
Import RegExp.

Lemma append_length (a b : string) :
  String.length (a ++ b) = String.length a + String.length b.
Proof. induction a as [|c a IH]; simpl; [reflexivity | now rewrite IH]. Qed.

Lemma append_assoc (a b c : string) : ((a ++ b) ++ c = a ++ (b ++ c))%string.
Proof. induction a as [|x a IH]; simpl; [reflexivity | now rewrite IH]. Qed.

Lemma substring_prefix (a b : string) :
  String.substring 0 (String.length a) (a ++ b) = a.
Proof.
  induction a as [|c a IH]; simpl.
  - destruct b; reflexivity.
  - now rewrite IH.
Qed.

(** A successful run consumed a prefix [pre] of the input and handed the
    rest to the continuation; an empty [pre] needs a nullable expression,
    and the first character of [pre] is one the expression can start with. *)
Lemma run_consumes (r : regex) :
  forall s k x,
    run r s k = Some x ->
    exists pre rest,
      s = (pre ++ rest)%string
      /\ k rest = Some x
      /\ (pre = EmptyString -> nullable r = true)
      /\ (forall c pre', pre = String c pre' -> first r c = true).
Proof.
  induction r as [|c| |ranges|r1 IH1 r2 IH2|r1 IH1 r2 IH2|r1 IH1];
    intros s k x H; simpl in H.
  - exists EmptyString, s. repeat split; try assumption. discriminate.
  - destruct s as [|y s]; [discriminate|].
    destruct (Ascii.eqb y c) eqn:E; [|discriminate].
    apply Ascii.eqb_eq in E; subst y.
    exists (String c EmptyString), s. repeat split; try assumption.
    + discriminate.
    + intros c' pre' P. injection P as <- _. simpl. apply Ascii.eqb_refl.
  - destruct s as [|y s]; [discriminate|].
    destruct (isDigit y) eqn:E; [|discriminate].
    exists (String y EmptyString), s. repeat split; try assumption.
    + discriminate.
    + intros c' pre' P. injection P as <- _. exact E.
  - destruct s as [|y s]; [discriminate|].
    destruct (existsb (inRange y) ranges) eqn:E; [|discriminate].
    exists (String y EmptyString), s. repeat split; try assumption.
    + discriminate.
    + intros c' pre' P. injection P as <- _. exact E.
  - apply IH1 in H as [p1 [s1 [E1 [H1 [N1 F1]]]]].
    apply IH2 in H1 as [p2 [s2 [E2 [H2 [N2 F2]]]]].
    exists (p1 ++ p2)%string, s2. subst. repeat split.
    + symmetry. apply append_assoc.
    + assumption.
    + intros P. destruct p1; [|discriminate]. simpl in P.
      simpl. now rewrite N1, N2.
    + intros c pre' P. simpl. destruct p1 as [|c1 p1].
      * simpl in P. rewrite N1 by reflexivity. rewrite (F2 _ _ P).
        apply orb_true_r.
      * simpl in P. injection P as <- _. now rewrite (F1 _ _ eq_refl).
  - destruct (run r1 s k) eqn:R1.
    + injection H as <-. apply IH1 in R1 as [p [t [E [K [N F]]]]].
      exists p, t. repeat split; try assumption.
      * intros P. simpl. now rewrite (N P).
      * intros c pre' P. simpl. now rewrite (F _ _ P).
    + apply IH2 in H as [p [t [E [K [N F]]]]].
      exists p, t. repeat split; try assumption.
      * intros P. simpl. rewrite (N P). apply orb_true_r.
      * intros c pre' P. simpl. rewrite (F _ _ P). apply orb_true_r.
  - destruct (run r1 s k) eqn:R1.
    + injection H as <-. apply IH1 in R1 as [p [t [E [K [N F]]]]].
      exists p, t. repeat split; assumption.
    + exists EmptyString, s. repeat split; try assumption. discriminate.
Qed.

(** A match of length [n] at the head of [s] is the prefix of [s] of that
    length; it is empty only for a nullable expression and starts with a
    character of the expression's first set. *)
Lemma matchAt_prefix (r : regex) (s : string) (n : nat) :
  matchAt r s = Some n ->
  exists pre rest,
    s = (pre ++ rest)%string
    /\ n = String.length pre
    /\ String.substring 0 n s = pre
    /\ (n = 0 -> nullable r = true)
    /\ (forall c pre', pre = String c pre' -> first r c = true).
Proof.
  unfold matchAt. intros H.
  apply run_consumes in H as [pre [rest [E [K [N F]]]]].
  exists pre, rest. injection K as K.
  assert (L : n = String.length pre).
  { subst. rewrite append_length. lia. }
  clear K. subst n s. repeat split; try assumption.
  - apply substring_prefix.
  - intros Z. apply N. destruct pre; [reflexivity | discriminate].
Qed.

End RegExpFacts.

(* ------------------------------------------------------------------ *)
(** ** The match loops *)

Lemma bind_ext {A B : Type} (m : outcome A) (k1 k2 : A -> outcome B) :
  (forall a, k1 a = k2 a) -> bind m k1 = bind m k2.
Proof. intros H. destruct m; simpl; [apply H | reflexivity]. Qed.

(** For an expression that cannot match the empty string the loop visits
    the matches of [execAll] in order and ends. *)
Lemma execLoop_forEach {St : Type} (r : RegExp.regex)
    (body : nat -> string -> St -> outcome St) :
  RegExp.nullable r = false ->
  forall s i skip st,
    execLoop r body s i skip st
    = forEach (fun m => body (fst m) (snd m)) (execAll r s i skip) st.
Proof.
  intros N. induction s as [|c s IH]; intros i skip st.
  - destruct skip; simpl; [|reflexivity].
    destruct (RegExp.matchAt r "") as [[|n]|] eqn:M; try reflexivity.
    apply RegExpFacts.matchAt_prefix in M as [_ [_ [_ [_ [_ [Z _]]]]]].
    rewrite Z in N by reflexivity. discriminate.
  - destruct skip; simpl; [|apply IH].
    destruct (RegExp.matchAt r (String c s)) as [[|n]|] eqn:M.
    + apply RegExpFacts.matchAt_prefix in M as [_ [_ [_ [_ [_ [Z _]]]]]].
      rewrite Z in N by reflexivity. discriminate.
    + apply bind_ext. intros st'. apply IH.
    + apply IH.
Qed.

(** Every visited match is a non-empty piece of the text that starts, at
    the reported offset, with a character of the expression's first set. *)
Lemma execAll_starts (r : RegExp.regex) :
  forall s i skip m,
    In m (execAll r s i skip) ->
    exists c rest,
      snd m = String c rest
      /\ i <= fst m
      /\ String.get (fst m - i) s = Some c
      /\ RegExp.first r c = true.
Proof.
  induction s as [|c s IH]; intros i skip m H.
  - destruct skip; simpl in H; [|contradiction].
    destruct (RegExp.matchAt r "") as [[|n]|] eqn:M; try contradiction.
    apply RegExpFacts.matchAt_prefix in M as [pre [rest [E [L _]]]].
    destruct pre; [discriminate L | discriminate E].
  - assert (Step : forall k, In m (execAll r s (S i) k) ->
               exists c0 rest,
                 snd m = String c0 rest /\ i <= fst m
                 /\ String.get (fst m - i) (String c s) = Some c0
                 /\ RegExp.first r c0 = true).
    { intros k Hk. apply IH in Hk as [c0 [rest [E [Le [G F]]]]].
      exists c0, rest. repeat split; try assumption; [lia|].
      replace (fst m - i) with (S (fst m - S i)) by lia. exact G. }
    destruct skip; simpl in H; [|now apply Step in H].
    destruct (RegExp.matchAt r (String c s)) as [[|n]|] eqn:M.
    + contradiction.
    + destruct H as [<-|H]; [|now apply Step in H].
      apply RegExpFacts.matchAt_prefix in M as [pre [rest [E [L [Sub [_ F]]]]]].
      destruct pre as [|c0 pre]; [discriminate L|].
      simpl in E. injection E as <- E.
      exists c, pre. cbn [fst snd]. repeat split.
      * exact Sub.
      * lia.
      * now rewrite Nat.sub_diag.
      * now apply (F c pre).
    + now apply Step in H.
Qed.

(** A loop body that skips some of the matches runs over the others. *)
Lemma forEach_filter {A St : Type} (test : A -> bool)
    (body : A -> St -> outcome St) (l : list A) (st : St) :
  forEach (fun x w => if test x then body x w else Ok w) l st
  = forEach body (filter test l) st.
Proof.
  revert st. induction l as [|x l IH]; intros st; simpl; [reflexivity|].
  destruct (test x); simpl; [apply bind_ext; intros; apply IH | apply IH].
Qed.

Lemma forEach_ext {A St : Type} (f g : A -> St -> outcome St) (l : list A) (st : St) :
  (forall x w, f x w = g x w) -> forEach f l st = forEach g l st.
Proof.
  intros H. revert st. induction l as [|x l IH]; intros st; simpl; [reflexivity|].
  rewrite H. apply bind_ext. intros; apply IH.
Qed.

(* ------------------------------------------------------------------ *)
(** ** The catalog *)

Lemma catalog_avoids_marker :
  forallb (fun p => avoidsMarker (source (CatalogPattern p))) patterns = true.
Proof. vm_compute. reflexivity. Qed.

Lemma catalog_pattern (p : nat) :
  In p patterns ->
  exists r,
    RegExp.compile (source (CatalogPattern p)) = Some r
    /\ RegExp.nullable r = false
    /\ RegExp.first r "?"%char = false.
Proof.
  intros H.
  pose proof (proj1 (forallb_forall _ _) catalog_avoids_marker p H) as G.
  unfold avoidsMarker in G.
  destruct (RegExp.compile (source (CatalogPattern p))) as [r|]; [|discriminate].
  apply andb_true_iff in G as [G1 G2].
  exists r. repeat split; now apply negb_true_iff.
Qed.

(* ------------------------------------------------------------------ *)
(** ** [addNode] on well-formed registries *)

Lemma addNode_total (node : ParsedNode) (arr : list ParsedNode) :
  wellFormed node -> Forall wellFormed arr ->
  exists res, addNode node arr = Ok res.
Proof.
  intros Wn Wa. rewrite addNode_unfold.
  rewrite (findLonger_defined node _ Wn (intersecting_wellFormed _ _ arr Wa)).
  simpl. destruct (find _ _); eexists; reflexivity.
Qed.

Lemma addNode_cases (node : ParsedNode) (arr res : list ParsedNode) :
  addNode node arr = Ok res ->
  res = arr \/ res = sortByKey index (filter (keep node) arr ++ [node]).
Proof.
  rewrite addNode_unfold.
  destruct (findLonger node _) as [[m|]|]; simpl; intros H;
    [left | right | discriminate]; now injection H as <-.
Qed.

Lemma addNode_subset (node : ParsedNode) (arr res : list ParsedNode) :
  addNode node arr = Ok res ->
  forall n, In n res -> n = node \/ In n arr.
Proof.
  intros H n Hn. destruct (addNode_cases _ _ _ H) as [->| ->]; [now right|].
  apply sortByKey_In, in_app_iff in Hn as [Hn|[<-|[]]]; [right | now left].
  apply filter_In in Hn. tauto.
Qed.

Lemma addNode_Forall (P : ParsedNode -> Prop) (node : ParsedNode)
    (arr res : list ParsedNode) :
  addNode node arr = Ok res -> P node -> Forall P arr -> Forall P res.
Proof.
  intros H Pn Pa. apply Forall_forall. intros n Hn.
  destruct (addNode_subset _ _ _ H n Hn) as [->|Ha]; [exact Pn|].
  now apply (proj1 (Forall_forall P arr) Pa).
Qed.

(* ------------------------------------------------------------------ *)
(** ** [parseHumanTime] *)

Section TimeResolverFacts.
Variable Moment : Type.
Variable momentStrict : option string -> string -> Moment.
Variable momentLenient : option string -> Moment.
Variable isValid : Moment -> bool.

Lemma tryFormats_some (timeString : option string) (formats : list string)
    (m : Moment) :
  tryFormats momentStrict isValid timeString formats = Some m
  <-> exists before fmt after,
        formats = before ++ fmt :: after
        /\ Forall (rejects momentStrict isValid timeString) before
        /\ isValid (momentStrict timeString fmt) = true
        /\ m = momentStrict timeString fmt.
Proof.
  induction formats as [|f formats IH]; simpl.
  - split; [discriminate|].
    intros [before [fmt [after [E _]]]]. destruct before; discriminate.
  - destruct (isValid (momentStrict timeString f)) eqn:V.
    + split.
      * intros H. injection H as <-.
        exists [], f, formats. repeat split; [constructor | exact V].
      * intros [before [fmt [after [E [R [V' ->]]]]]].
        destruct before as [|b before]; simpl in E; injection E as <- _.
        -- reflexivity.
        -- inversion R as [|? ? Rb _]; subst. unfold rejects in Rb. congruence.
    + rewrite IH. split.
      * intros [before [fmt [after [-> [R [V' ->]]]]]].
        exists (f :: before), fmt, after.
        repeat split; [constructor; assumption | exact V'].
      * intros [before [fmt [after [E [R [V' ->]]]]]].
        destruct before as [|b before]; simpl in E; injection E as <- E.
        -- congruence.
        -- inversion R; subst. exists before, fmt, after. repeat split; assumption.
Qed.

Lemma tryFormats_none (timeString : option string) (formats : list string) :
  tryFormats momentStrict isValid timeString formats = None
  <-> Forall (rejects momentStrict isValid timeString) formats.
Proof.
  induction formats as [|f formats IH]; simpl.
  - split; [constructor | reflexivity].
  - destruct (isValid (momentStrict timeString f)) eqn:V.
    + split; [discriminate|]. intros R. inversion R as [|? ? Rf _]; subst.
      unfold rejects in Rf. congruence.
    + rewrite IH. split; [now constructor | now inversion 1].
Qed.

(** C5.  [parseHumanTime] returns the result of the first strict format,
    in the order of [humanTimeFormats], whose strict parse is valid; when
    every strict parse is invalid it returns the lenient parse if that is
    valid, and [null] otherwise.  A [null] result does not stop the pass:
    [parse] still returns the node, with [parsed] null, for the span it
    was asked about. *)
Theorem parseHumanTime_order (timeString : option string) :
  (forall m,
      parseHumanTime momentStrict momentLenient isValid timeString = Some m
      <-> (exists before fmt after,
             humanTimeFormats = before ++ fmt :: after
             /\ Forall (rejects momentStrict isValid timeString) before
             /\ isValid (momentStrict timeString fmt) = true
             /\ m = momentStrict timeString fmt)
          \/ (Forall (rejects momentStrict isValid timeString) humanTimeFormats
              /\ isValid (momentLenient timeString) = true
              /\ m = momentLenient timeString))
  /\ (parseHumanTime momentStrict momentLenient isValid timeString = None
      <-> Forall (rejects momentStrict isValid timeString) humanTimeFormats
          /\ isValid (momentLenient timeString) = false)
  /\ (forall match0 matchId nodes node,
        find (fun n => Z.eqb (id n) matchId) nodes = Some node ->
        displayedText node = timeString ->
        parseHumanTime momentStrict momentLenient isValid timeString = None ->
        fst (parseValidTime momentStrict momentLenient isValid
               match0 (Some matchId) nodes)
        = Some {| originalMatch := match0;
                  vtId := id node;
                  vtIndex := index node;
                  timestamp := {| text := timeString; parsed := None |} |}).
Proof.
  unfold parseHumanTime. split; [|split].
  - intros m.
    destruct (tryFormats momentStrict isValid timeString humanTimeFormats)
      as [m'|] eqn:T.
    + split.
      * intros H. injection H as <-. left. now apply tryFormats_some.
      * intros [H|[R _]].
        -- apply tryFormats_some in H. congruence.
        -- apply tryFormats_none in R. congruence.
    + pose proof (proj1 (tryFormats_none _ _) T) as R. split.
      * destruct (isValid (momentLenient timeString)) eqn:V; [|discriminate].
        intros H. injection H as <-. right. repeat split; assumption.
      * intros [H|[_ [V ->]]].
        -- apply tryFormats_some in H. congruence.
        -- now rewrite V.
  - destruct (tryFormats momentStrict isValid timeString humanTimeFormats)
      as [m'|] eqn:T.
    + split; [discriminate|]. intros [R _].
      apply tryFormats_none in R. congruence.
    + pose proof (proj1 (tryFormats_none _ _) T) as R.
      destruct (isValid (momentLenient timeString)); split;
        try discriminate; try tauto.
      intros [_ H]; discriminate.
  - intros match0 matchId nodes node F D P.
    unfold parseValidTime. rewrite F. cbn [fst].
    unfold displayedText in D. rewrite D.
    unfold parseHumanTime. now rewrite P.
Qed.

End TimeResolverFacts.

(* ------------------------------------------------------------------ *)
(** ** The scan on a concrete text *)

(** The matcher on a few texts: the matches of "h A", of "HH:mm" and of
    the extension pattern [(\?):(?:[0-5]\d)], as [(index, text)]. *)
Example matches_of_hour_meridiem :
  option_map (fun r => execAll r "1PM 12 am 13pm" 0 0)
    (RegExp.compile (source (CatalogPattern 14)))
  = Some [(0, "1PM"); (4, "12 am"); (11, "3pm")].
Proof. vm_compute. reflexivity. Qed.

Example matches_of_hour_minute :
  option_map (fun r => execAll r "13:3021:4525:00 at 09:59" 0 0)
    (RegExp.compile (source (CatalogPattern 18)))
  = Some [(0, "13:30"); (5, "21:45"); (19, "09:59")].
Proof. vm_compute. reflexivity. Qed.

Example matches_after_placeholder :
  execAll secondsAfterPlaceholder "?:45 and ?:07, not ?:75" 0 0
  = [(0, "?:45"); (9, "?:07")].
Proof. vm_compute. reflexivity. Qed.

(** C1.  On the text "21/03/2024-03-21", starting from an empty registry,
    the pass ends holding "21/03/2024" at offset 0 and "2024-03-21" at
    offset 6, whose ranges intersect; the second [addNode] call is the one
    that breaks the invariant, on a registry that satisfied it. *)
Theorem scan_leaves_overlapping_spans (now : nat -> Z) :
  (exists w,
      findTimesInOriginalSource now "21/03/2024-03-21"
        {| parsedNodes := []; clockReads := 0 |} = Ok w
      /\ map (fun n => (index n, originalText n)) (parsedNodes w)
         = [(0, "21/03/2024"); (6, "2024-03-21")]
      /\ nonOverlapping (parsedNodes w) = false)
  /\ nonOverlapping [scanned 4 0 "21/03/2024"] = true
  /\ addNode (scanned 6 6 "2024-03-21") [scanned 4 0 "21/03/2024"]
     = Ok [scanned 4 0 "21/03/2024"; scanned 6 6 "2024-03-21"]
  /\ nonOverlapping [scanned 4 0 "21/03/2024"; scanned 6 6 "2024-03-21"] = false.
Proof.
  split; [|repeat split; reflexivity].
  eexists. split; [vm_compute; reflexivity|]. split; reflexivity.
Qed.

(** What the whole-string pass then hands to [parse]: the two spans and a
    stray piece of text cut between their ends. *)
Example overlapping_spans_garble_the_split (now : nat -> Z) :
  exists out w,
    matchWholeString now "21/03/2024-03-21" {| parsedNodes := []; clockReads := 0 |}
    = Ok (out, w)
    /\ views out
       = Some [ (0, Split.prepValidTime, "21/03/2024", Some "21/03/2024");
                (6, Split.prepValidTime, "2024-03-21", Some "2024-03-21");
                (10, Split.prepText, "2024", None) ].
Proof. eexists. eexists. split; [vm_compute; reflexivity | reflexivity]. Qed.

(* ------------------------------------------------------------------ *)
(** ** The widening loop *)

Lemma patterns_range (p : nat) : In p patterns <-> p < 19.
Proof. unfold patterns. rewrite in_seq. simpl. lia. Qed.

Lemma sameObject_iff (p : nat) (f : RegExpObject) :
  sameObject p f = true <-> f = CatalogPattern p.
Proof.
  destruct f as [j|src]; simpl.
  - rewrite Nat.eqb_eq. split; [now intros -> | now intros [= ->]].
  - split; discriminate.
Qed.

(** C8 (amended).  The widening loop runs for the spans that were held
    before the pass and whose start offset holds the marker "?" in the
    text, from the last to the first, and for no other span; for each of
    them it tries every catalog pattern except the one pattern object that
    is the span's own [format]. *)
Theorem widening_targets (now : nat -> Z) (text : string) (w : world) :
  findTimesInOriginalSource now text w
  = (w1 <- scan now text w ;;
     w2 <- forEach (widenNode now text)
             (rev (filter (atPlaceholder text) (parsedNodes w))) w1 ;;
     Ok {| parsedNodes := sortByKey index (parsedNodes w2);
           clockReads := clockReads w2 |})
  /\ (forall node w1,
        widenNode now text node w1
        = forEach (fun p =>
                     globalLoop (extensionSource p node)
                       (widenBody now (extensionSource p node) node) text)
            (filter (fun p => negb (sameObject p (format node))) patterns) w1)
  /\ (forall node p,
        In p (filter (fun p => negb (sameObject p (format node))) patterns)
        <-> p < 19 /\ format node <> CatalogPattern p).
Proof.
  split; [|split].
  - unfold findTimesInOriginalSource, widen.
    now rewrite (proj2 (placeholder_pass text (parsedNodes w))).
  - intros node w1. unfold widenNode.
    rewrite <- forEach_filter. apply forEach_ext. intros p w'.
    unfold widenPattern. now destruct (sameObject p (format node)).
  - intros node p. rewrite filter_In, patterns_range, negb_true_iff.
    rewrite <- not_true_iff_false, sameObject_iff. tauto.
Qed.

(** C8 (as the claim states it, refuted).  A span the scan of the current
    pass has just discovered is fresh and is not among the spans the
    widening loop runs for: "13:30" on an empty registry. *)
Lemma widening_skips_scanned_spans :
  ~ (forall (now : nat -> Z) text w w1 S,
        scan now text w = Ok w1 ->
        In S (parsedNodes w1) -> fresh S = true ->
        In S (placeholderValues text (parsedNodes w))).
Proof.
  intros H.
  apply (H (fun _ => 0%Z) "13:30" {| parsedNodes := []; clockReads := 0 |}
           {| parsedNodes := [scanned 18 0 "13:30"]; clockReads := 1 |}
           (scanned 18 0 "13:30")).
  - vm_compute. reflexivity.
  - left. reflexivity.
  - reflexivity.
Qed.

Lemma prefix_empty (s : string) : String.prefix "" s = true.
Proof. destruct s; reflexivity. Qed.

Lemma substring_all (s : string) : String.substring 0 (String.length s) s = s.
Proof. induction s as [|c s IH]; simpl; [reflexivity | now rewrite IH]. Qed.

(** A text without a dollar sign stands for itself as a replacement. *)
Lemma expand_plain (matched before after rep : string) :
  plainText rep = true -> JS.expand matched before after rep = rep.
Proof.
  induction rep as [|c rep IH]; simpl; [reflexivity|].
  intros H. apply andb_true_iff in H as [Hc Hr].
  apply negb_true_iff in Hc. rewrite Hc. now rewrite IH.
Qed.

(** Putting a text back in place of a leading marker: what the text stands
    for as a replacement, then what followed the marker. *)
Lemma replace_leading_marker (rest original : string) :
  JS.replace (String "?" rest) "?" original
  = (JS.expand "?" "" rest original ++ rest)%string.
Proof.
  unfold JS.replace.
  assert (I : String.index 0 "?" (String "?" rest) = Some 0).
  { cbn -[ascii_dec]. destruct (ascii_dec "?" "?") as [_|N]; [|now elim N].
    now rewrite prefix_empty. }
  rewrite I. cbv zeta.
  cbn [String.substring String.length Nat.add Nat.sub String.append].
  now rewrite Nat.sub_0_r, substring_all.
Qed.

(** The dollar patterns of a replacement string: [$&] stands for the
    matched marker, a text without a dollar sign for itself. *)
Example replace_expands_dollar :
  JS.replace "?:45" "?" "$&" = "?:45"
  /\ JS.replace "?:45" "?" "13:30" = "13:30:45".
Proof. split; reflexivity. Qed.

(** C9.  In the widening of a span with the pattern at position [p], the
    matches of the extension pattern whose position differs from the span's
    start offset are skipped, and each match at that offset is turned into
    an extension node and submitted to [addNode], in order.  The node
    stands at the span's offset, its [originalText] is the matched text and
    its [extendedText] the matched text with its first "?" replaced by what
    the span's [originalText] stands for as a replacement string.  When the
    text holds the marker at the span's offset, that is this replacement
    followed by what was matched after the marker; and for an
    [originalText] without a dollar sign, as is every text the engine holds,
    it is the span's text followed by what was matched after the marker. *)
Theorem widening_submits_coincident (now : nat -> Z) (text : string)
    (node : ParsedNode) (p : nat) (w : world) (r : RegExp.regex) :
  sameObject p (format node) = false ->
  RegExp.compile (extensionSource p node) = Some r ->
  RegExp.nullable r = false ->
  widenPattern now text node p w
  = forEach
      (fun m w0 =>
         nodes <- addNode (extensionNode (extensionSource p node) node
                             (fst m) (snd m) (now (clockReads w0)))
                          (parsedNodes w0) ;;
         Ok {| parsedNodes := nodes; clockReads := S (clockReads w0) |})
      (filter (fun m => index node =? fst m) (execAll r text 0 0)) w
  /\ (forall m t,
        In m (filter (fun m => index node =? fst m) (execAll r text 0 0)) ->
        let e := extensionNode (extensionSource p node) node (fst m) (snd m) t in
        index e = index node
        /\ isExtension e = true
        /\ fresh e = true
        /\ originalText e = snd m
        /\ extendedText e = Some (JS.replace (snd m) "?" (originalText node))
        /\ (atPlaceholder text node = true ->
            exists rest,
              snd m = String "?" rest
              /\ extendedText e
                 = Some (JS.expand "?" "" rest (originalText node) ++ rest)%string
              /\ (plainText (originalText node) = true ->
                  extendedText e = Some (originalText node ++ rest)%string))).
Proof.
  intros Hp Hc Hn. split.
  - unfold widenPattern, globalLoop. rewrite Hp, Hc.
    rewrite (execLoop_forEach r _ Hn).
    rewrite <- forEach_filter. apply forEach_ext. intros m w0.
    unfold widenBody. now destruct (index node =? fst m).
  - intros m t Hm e. apply filter_In in Hm as [Hm Hi].
    apply Nat.eqb_eq in Hi. subst e. cbn [index isExtension fresh originalText
      extendedText extensionNode].
    repeat split; try reflexivity; [now symmetry|].
    intros Hat. apply execAll_starts in Hm as [c [rest [E [_ [G _]]]]].
    rewrite Nat.sub_0_r, <- Hi in G.
    unfold atPlaceholder, JS.charAt in Hat. rewrite G in Hat.
    apply String.eqb_eq in Hat. injection Hat as ->.
    exists rest. split; [exact E|]. rewrite E, replace_leading_marker.
    split; [reflexivity|]. intros Pl. now rewrite expand_plain.
Qed.

Lemma widening_submits_coincident_witness :
  widenPattern stoppedClock "?:45" (rendered 18 0 "13:30") 16
    {| parsedNodes := [rendered 18 0 "13:30"]; clockReads := 0 |}
  = Ok {| parsedNodes :=
            [ mkNode 0 "?:45" true true (Some "13:30:45") false 0
                (GlobalPattern "(\?):(?:[0-5]\d)") ];
          clockReads := 1 |}.
Proof.
  destruct (widening_submits_coincident stoppedClock "?:45" (rendered 18 0 "13:30") 16
              {| parsedNodes := [rendered 18 0 "13:30"]; clockReads := 0 |}
              secondsAfterPlaceholder eq_refl eq_refl eq_refl) as [H _].
  rewrite H. reflexivity.
Defined.

(* ------------------------------------------------------------------ *)
(** ** The pass does not depend on the clock *)

Lemma filter_map_comm {A B : Type} (f : B -> bool) (g : A -> B) (l : list A) :
  filter f (map g l) = map g (filter (fun x => f (g x)) l).
Proof.
  induction l as [|x l IH]; simpl; [reflexivity|].
  destruct (f (g x)); simpl; now rewrite IH.
Qed.

Section SortingMaps.
Variables A B : Type.
Variable keyA : A -> nat.
Variable keyB : B -> nat.
Variable g : A -> B.
Hypothesis same_key : forall x, keyB (g x) = keyA x.

Lemma insertByKey_map (x : A) (l : list A) :
  insertByKey keyB (g x) (map g l) = map g (insertByKey keyA x l).
Proof.
  induction l as [|y l IH]; simpl; [reflexivity|].
  rewrite !same_key. destruct (keyA x <? keyA y); simpl; [reflexivity|].
  now rewrite IH.
Qed.

Lemma sortByKey_map_from (l acc : list A) :
  fold_left (fun a x => insertByKey keyB x a) (map g l) (map g acc)
  = map g (fold_left (fun a x => insertByKey keyA x a) l acc).
Proof.
  revert acc. induction l as [|x l IH]; intros acc; simpl; [reflexivity|].
  rewrite insertByKey_map. apply IH.
Qed.

Lemma sortByKey_map (l : list A) :
  sortByKey keyB (map g l) = map g (sortByKey keyA l).
Proof. apply (sortByKey_map_from l []). Qed.
End SortingMaps.

Lemma getIntersectingNodes_erase (i l : nat) (arr : list ParsedNode) :
  getIntersectingNodes i l (map eraseId arr)
  = map eraseId (getIntersectingNodes i l arr).
Proof. unfold getIntersectingNodes. now rewrite filter_map_comm. Qed.

Lemma findLonger_erase (node : ParsedNode) (l : list ParsedNode) :
  findLonger (eraseId node) (map eraseId l)
  = mapOutcome (option_map eraseId) (findLonger node l).
Proof.
  induction l as [|n l IH]; simpl; [reflexivity|].
  change (isLonger (eraseId node) (eraseId n)) with (isLonger node n).
  destruct (isLonger node n) as [[|]|]; simpl; [reflexivity | exact IH | reflexivity].
Qed.

Lemma addNode_erase (node : ParsedNode) (arr : list ParsedNode) :
  addNode (eraseId node) (map eraseId arr)
  = mapOutcome (map eraseId) (addNode node arr).
Proof.
  rewrite !addNode_unfold.
  change (index (eraseId node)) with (index node).
  change (originalText (eraseId node)) with (originalText node).
  rewrite getIntersectingNodes_erase, findLonger_erase.
  destruct (findLonger node _) as [[m|]|]; simpl; try reflexivity.
  f_equal.
  change (filter (keep (eraseId node)) (map eraseId arr))
    with (filter (fun n => keep node n) (map eraseId arr)).
  rewrite filter_map_comm.
  change ([eraseId node]) with (map eraseId [node]).
  rewrite <- map_app.
  apply sortByKey_map. reflexivity.
Qed.

(** A loop whose body commutes with a view of the state commutes with it. *)
Lemma forEach_view {A St V : Type} (view : St -> V)
    (body : A -> St -> outcome St) (body' : A -> V -> outcome V) (l : list A) :
  (forall x st, mapOutcome view (body x st) = body' x (view st)) ->
  forall st, mapOutcome view (forEach body l st) = forEach body' l (view st).
Proof.
  intros H. induction l as [|x l IH]; intros st; simpl; [reflexivity|].
  rewrite <- H. destruct (body x st) as [st'|e]; simpl; [apply IH | reflexivity].
Qed.

Lemma execLoop_view {St V : Type} (view : St -> V) (r : RegExp.regex)
    (body : nat -> string -> St -> outcome St)
    (body' : nat -> string -> V -> outcome V) :
  (forall i t st, mapOutcome view (body i t st) = body' i t (view st)) ->
  forall s i skip st,
    mapOutcome view (execLoop r body s i skip st)
    = execLoop r body' s i skip (view st).
Proof.
  intros H. induction s as [|c s IH]; intros i skip st.
  - destruct skip; simpl; [|reflexivity].
    destruct (RegExp.matchAt r "") as [[|n]|]; try reflexivity.
    rewrite <- H. destruct (body i _ st); reflexivity.
  - destruct skip; simpl; [|apply IH].
    destruct (RegExp.matchAt r (String c s)) as [[|n]|]; try reflexivity.
    + rewrite <- H. destruct (body i _ st) as [st'|e]; simpl;
        [apply IH | reflexivity].
    + apply IH.
Qed.

Lemma globalLoop_view {St V : Type} (view : St -> V) (src : string)
    (body : nat -> string -> St -> outcome St)
    (body' : nat -> string -> V -> outcome V) (text : string) (st : St) :
  (forall i t st, mapOutcome view (body i t st) = body' i t (view st)) ->
  mapOutcome view (globalLoop src body text st) = globalLoop src body' text (view st).
Proof.
  intros H. unfold globalLoop.
  destruct (RegExp.compile src); [now apply execLoop_view | reflexivity].
Qed.

Lemma scanBody_shapes (now : nat -> Z) (p i : nat) (t : string) (w : world) :
  mapOutcome shapes (scanBody now p i t w) = addNode (scanned p i t) (shapes w).
Proof.
  unfold scanBody, shapes.
  change (scanned p i t) with (eraseId (freshNode p i t (now (clockReads w)))).
  rewrite addNode_erase.
  destruct (addNode _ (parsedNodes w)); reflexivity.
Qed.

(** The shapes the scan leaves are those of the scan without a clock. *)
Lemma scan_shapes (now : nat -> Z) (text : string) (w : world) :
  mapOutcome shapes (scan now text w)
  = shapeScan text (map eraseId (reconcile text (parsedNodes w))).
Proof.
  unfold scan, shapeScan.
  rewrite (forEach_view shapes (scanPattern now text)
             (fun p => globalLoop (source (CatalogPattern p))
                         (fun i t sh => addNode (scanned p i t) sh) text)).
  - reflexivity.
  - intros p st. unfold scanPattern. apply globalLoop_view.
    intros i t st'. apply scanBody_shapes.
Qed.

(* ------------------------------------------------------------------ *)
(** ** The scan ends, and what it builds *)

Lemma forEach_inv {A St : Type} (Inv : St -> Prop)
    (body : A -> St -> outcome St) (l : list A) :
  (forall x st, In x l -> Inv st -> exists st', body x st = Ok st' /\ Inv st') ->
  forall st, Inv st -> exists st', forEach body l st = Ok st' /\ Inv st'.
Proof.
  induction l as [|x l IH]; intros H st I; simpl.
  - now exists st.
  - destruct (H x st (or_introl eq_refl) I) as [st1 [E I1]]. rewrite E. simpl.
    apply IH; [|exact I1]. intros y st' Hy. apply H. now right.
Qed.

Lemma scanShaped_wellFormed (text : string) (n : ParsedNode) :
  scanShaped text n -> wellFormed n.
Proof. intros [_ [E _]] X. congruence. Qed.

Lemma scanned_clear (text : string) (r : RegExp.regex) (p : nat) (m : nat * string) :
  RegExp.first r "?"%char = false ->
  In m (execAll r text 0 0) ->
  scanShaped text (scanned p (fst m) (snd m)).
Proof.
  intros F H. repeat split.
  apply execAll_starts in H as [c [rest [_ [_ [G Fc]]]]].
  rewrite Nat.sub_0_r in G.
  unfold atPlaceholder, JS.charAt. cbn [index scanned]. rewrite G.
  apply String.eqb_neq. intros E. injection E as ->. congruence.
Qed.

(** From a registry of scan-built nodes the scan ends without an exception
    and leaves a registry of scan-built nodes. *)
Lemma shapeScan_total (text : string) (sh : list ParsedNode) :
  Forall (scanShaped text) sh ->
  exists sh', shapeScan text sh = Ok sh' /\ Forall (scanShaped text) sh'.
Proof.
  unfold shapeScan. apply forEach_inv. intros p st Hp I.
  destruct (catalog_pattern p Hp) as [r [C [N F]]].
  unfold globalLoop. rewrite C, (execLoop_forEach r _ N).
  revert I. apply forEach_inv. intros m st1 Hm I1.
  pose proof (scanned_clear text r p m F Hm) as S.
  destruct (addNode_total (scanned p (fst m) (snd m)) st1) as [res E].
  - now apply scanShaped_wellFormed with text.
  - eapply Forall_impl; [|exact I1]. intros n. apply scanShaped_wellFormed.
  - exists res. split; [exact E|]. now apply (addNode_Forall _ _ _ _ E).
Qed.

(* ------------------------------------------------------------------ *)
(** ** What the whole-string pass shows *)

Lemma splitStep_erase (text : string) (acc acc' : list Split.node) (prev : Z)
    (n : ParsedNode) :
  map Split.view acc = map Split.view acc' ->
  map Split.view (fst (splitStep text (acc, prev) n))
  = map Split.view (fst (splitStep text (acc', prev) (eraseId n)))
  /\ snd (splitStep text (acc, prev) n) = snd (splitStep text (acc', prev) (eraseId n)).
Proof.
  intros H. unfold splitStep.
  cbn [fst snd index fresh originalText id eraseId].
  split; [|reflexivity].
  destruct (String.eqb _ ""); rewrite !map_app, ?H; reflexivity.
Qed.

Lemma splitFold_erase (text : string) (l : list ParsedNode) :
  forall acc acc' prev,
    map Split.view acc = map Split.view acc' ->
    map Split.view (fst (fold_left (splitStep text) l (acc, prev)))
    = map Split.view (fst (fold_left (splitStep text) (map eraseId l) (acc', prev)))
    /\ snd (fold_left (splitStep text) l (acc, prev))
       = snd (fold_left (splitStep text) (map eraseId l) (acc', prev)).
Proof.
  induction l as [|n l IH]; intros acc acc' prev H; simpl; [now split|].
  destruct (splitStep_erase text acc acc' prev n H) as [H1 H2].
  destruct (splitStep text (acc, prev) n) as [a p].
  destruct (splitStep text (acc', prev) (eraseId n)) as [a' p'].
  simpl in H1, H2. subst p'. now apply IH.
Qed.

Lemma splitNodes_erase (text : string) (nodes : list ParsedNode) :
  map Split.view (splitNodes text (map eraseId nodes))
  = map Split.view (splitNodes text nodes).
Proof.
  unfold splitNodes. rewrite <- map_rev.
  destruct (splitFold_erase text (rev nodes) [] [] (-1)%Z eq_refl) as [H1 H2].
  destruct (fold_left (splitStep text) (rev nodes) ([], (-1)%Z)) as [a p].
  destruct (fold_left (splitStep text) (map eraseId (rev nodes)) ([], (-1)%Z))
    as [a' p'].
  simpl in H1, H2. subst p'.
  rewrite <- !(sortByKey_map _ _ Split.index (fun v => fst (fst (fst v)))
                 Split.view (fun _ => eq_refl)).
  f_equal. destruct (String.eqb (JS.substring text 0 p) "");
    rewrite ?map_app, H1; reflexivity.
Qed.

Lemma existsb_fresh_erase (nodes : list ParsedNode) :
  existsb fresh (map eraseId nodes) = existsb fresh nodes.
Proof. induction nodes as [|n l IH]; simpl; [reflexivity | now rewrite IH]. Qed.

Lemma shownFor_erase (text : string) (nodes : list ParsedNode) :
  shownFor text (map eraseId nodes) = shownFor text nodes.
Proof.
  unfold shownFor. rewrite existsb_fresh_erase.
  destruct (negb (existsb fresh nodes)); [reflexivity|].
  pose proof (splitNodes_erase text nodes) as H.
  destruct (splitNodes text (map eraseId nodes)), (splitNodes text nodes);
    try discriminate; [reflexivity | now rewrite H].
Qed.

Lemma filter_none_in {A : Type} (f : A -> bool) (l : list A) :
  (forall x, In x l -> f x = false) -> filter f l = [].
Proof.
  induction l as [|x l IH]; intros H; simpl; [reflexivity|].
  rewrite (H x (or_introl eq_refl)). apply IH. intros y Hy. apply H. now right.
Qed.

Lemma views_shownFor (text : string) (nodes : list ParsedNode) :
  existsb fresh nodes = true ->
  views (match splitNodes text nodes with
         | [] => None
         | _ => Some (splitNodes text nodes)
         end)
  = shownFor text nodes.
Proof.
  intros F. unfold shownFor. rewrite F. simpl.
  destruct (splitNodes text nodes); reflexivity.
Qed.

(** When no held span sits at a marker of the text, the whole-string pass
    ends, shows what it shows in a new session, and leaves a registry in
    which again no span sits at a marker. *)
Lemma pass_from_clear (now : nat -> Z) (text : string) (w : world) :
  clearOfMarkers text (parsedNodes w) ->
  exists out w1,
    matchWholeString now text w = Ok (out, w1)
    /\ Ok (views out) = newSessionView text
    /\ clearOfMarkers text (parsedNodes w1).
Proof.
  intros C.
  destruct (placeholder_pass text (parsedNodes w)) as [R P].
  rewrite (filter_none_in _ _ C) in R, P. simpl in P.
  destruct (shapeScan_total text [] (Forall_nil _)) as [sh [S I]].
  pose proof (scan_shapes now text w) as V. rewrite R in V. cbn [map] in V.
  rewrite S in V.
  unfold matchWholeString, findTimesInOriginalSource. rewrite P.
  destruct (scan now text w) as [w1|e]; [|discriminate V].
  simpl in V. injection V as V. simpl.
  set (nodes := sortByKey index (parsedNodes w1)).
  assert (E : map eraseId nodes = sortByKey index sh).
  { unfold nodes. rewrite <- V. unfold shapes. symmetry.
    apply sortByKey_map. reflexivity. }
  assert (Cn : clearOfMarkers text nodes).
  { intros n Hn.
    assert (Hs : In (eraseId n) (sortByKey index sh)).
    { rewrite <- E. now apply in_map. }
    apply sortByKey_In in Hs.
    apply (proj1 (Forall_forall _ _) I) in Hs. apply Hs. }
  assert (N : newSessionView text = Ok (shownFor text nodes)).
  { unfold newSessionView. rewrite S. simpl. now rewrite <- E, shownFor_erase. }
  rewrite N.
  destruct (existsb fresh nodes) eqn:F; simpl.
  - pose proof (views_shownFor text nodes F) as W.
    destruct (splitNodes text nodes) as [|s0 l] eqn:Sp.
    + eexists. eexists. split; [reflexivity|]. split; [now rewrite <- W|].
      simpl. intros n Hn. apply in_map_iff in Hn as [m [<- Hm]].
      change (atPlaceholder text m = false). now apply Cn.
    + eexists. eexists. split; [reflexivity|]. split; [now rewrite <- W|].
      simpl. intros n Hn. apply in_map_iff in Hn as [m [<- Hm]].
      change (atPlaceholder text m = false). now apply Cn.
  - eexists. eexists. split; [reflexivity|]. split; [|exact Cn].
    unfold shownFor. now rewrite F.
Qed.

(** The registry of the example below is one a session reaches: the pass
    over "13:30" in a new session, followed by the conversion [parse] makes
    for the span it shows, leaves "13:30" rendered at offset 0. *)
Example rendered_span_is_reachable (Moment : Type)
    (strict : option string -> string -> Moment)
    (lenient : option string -> Moment) (valid : Moment -> bool) :
  exists out w1,
    matchWholeString stoppedClock "13:30" {| parsedNodes := []; clockReads := 0 |}
    = Ok (out, w1)
    /\ snd (parseValidTime strict lenient valid "13:30" (Some 0%Z) (parsedNodes w1))
       = [rendered 18 0 "13:30"].
Proof. eexists. eexists. split; [vm_compute; reflexivity | reflexivity]. Qed.


(* ------------------------------------------------------------------ *)
(** ** The pass ends without an exception *)

(** Replacing a known source inside a catalog source gives a known source
    that is read as an expression with no empty match. *)
Lemma knownSources_closed :
  forallb (fun s =>
             forallb (fun p =>
                        loops (JS.replace (source (CatalogPattern p)) s "(\?)")
                        && existsb (String.eqb
                                      (JS.replace (source (CatalogPattern p)) s "(\?)"))
                             knownSources)
                     patterns)
          knownSources = true.
Proof. vm_compute. reflexivity. Qed.

Lemma catalog_known :
  forallb (fun p => existsb (String.eqb (source (CatalogPattern p))) knownSources)
          patterns = true.
Proof. vm_compute. reflexivity. Qed.

Lemma knownFormat_source (f : RegExpObject) :
  knownFormat f = true -> In (source f) knownSources.
Proof.
  destruct f as [q|src]; intros H; cbn [knownFormat] in H.
  - apply Nat.ltb_lt in H.
    pose proof (proj1 (forallb_forall _ _) catalog_known q) as K.
    assert (Hq : In q patterns) by (apply patterns_range; exact H).
    apply K in Hq. apply existsb_exists in Hq as [x [Hx E]].
    apply String.eqb_eq in E. now rewrite E.
  - apply existsb_exists in H as [x [Hx E]].
    apply String.eqb_eq in E. cbn [source]. now subst.
Qed.

Lemma extension_usable (p : nat) (node : ParsedNode) :
  In p patterns -> knownFormat (format node) = true ->
  exists r,
    RegExp.compile (extensionSource p node) = Some r
    /\ RegExp.nullable r = false
    /\ knownFormat (GlobalPattern (extensionSource p node)) = true.
Proof.
  intros Hp Hk. apply knownFormat_source in Hk.
  pose proof (proj1 (forallb_forall _ _) knownSources_closed _ Hk) as C.
  pose proof (proj1 (forallb_forall _ _) C p Hp) as D.
  apply andb_true_iff in D as [L K].
  unfold loops in L. fold (extensionSource p node) in L, K.
  destruct (RegExp.compile (extensionSource p node)) as [r|]; [|discriminate].
  exists r. repeat split; [now apply negb_true_iff | exact K].
Qed.

Lemma engineNode_wellFormed (n : ParsedNode) : engineNode n -> wellFormed n.
Proof. now intros [W _]. Qed.

Lemma addNode_engine (node : ParsedNode) (arr : list ParsedNode) :
  engineNode node -> Forall engineNode arr ->
  exists res, addNode node arr = Ok res /\ Forall engineNode res.
Proof.
  intros En Ea.
  destruct (addNode_total node arr) as [res E].
  - now apply engineNode_wellFormed.
  - eapply Forall_impl; [|exact Ea]. exact engineNode_wellFormed.
  - exists res. split; [exact E|]. now apply (addNode_Forall _ _ _ _ E).
Qed.

Lemma scan_total (now : nat -> Z) (text : string) (w : world) :
  Forall engineNode (parsedNodes w) ->
  exists w1, scan now text w = Ok w1 /\ Forall engineNode (parsedNodes w1).
Proof.
  intros I. unfold scan.
  apply (forEach_inv (fun st => Forall engineNode (parsedNodes st))).
  - intros p st Hp Is.
    destruct (catalog_pattern p Hp) as [r [C [N _]]].
    unfold scanPattern, globalLoop. rewrite C, (execLoop_forEach r _ N).
    revert Is. apply (forEach_inv (fun st => Forall engineNode (parsedNodes st))).
    intros m st1 _ I1. unfold scanBody.
    destruct (addNode_engine (freshNode p (fst m) (snd m) (now (clockReads st1)))
                (parsedNodes st1)) as [res [E R]]; [|exact I1|].
    + split; [intros X; discriminate X|].
      simpl. apply Nat.ltb_lt. now apply patterns_range.
    + rewrite E. simpl. eexists. split; [reflexivity | exact R].
  - simpl. destruct (placeholder_pass text (parsedNodes w)) as [R _]. rewrite R.
    apply Forall_forall. intros n Hn. apply filter_In in Hn as [Hn _].
    now apply (proj1 (Forall_forall _ _) I).
Qed.

Lemma widenNode_total (now : nat -> Z) (text : string) (node : ParsedNode) (w : world) :
  engineNode node -> Forall engineNode (parsedNodes w) ->
  exists w1, widenNode now text node w = Ok w1 /\ Forall engineNode (parsedNodes w1).
Proof.
  intros [_ Kn]. unfold widenNode.
  apply (forEach_inv (fun st => Forall engineNode (parsedNodes st))).
  intros p st Hp Is. unfold widenPattern.
  destruct (sameObject p (format node)); [now exists st|].
  destruct (extension_usable p node Hp Kn) as [r [C [N K]]].
  unfold globalLoop. rewrite C, (execLoop_forEach r _ N).
  revert Is. apply (forEach_inv (fun st => Forall engineNode (parsedNodes st))).
  intros m st1 _ I1. unfold widenBody. destruct (negb (index node =? fst m)); [now exists st1|].
  destruct (addNode_engine
              (extensionNode (extensionSource p node) node (fst m) (snd m)
                 (now (clockReads st1)))
              (parsedNodes st1)) as [res [E R]]; [|exact I1|].
  - split; [intros _ X; discriminate X | exact K].
  - rewrite E. simpl. eexists. split; [reflexivity | exact R].
Qed.

(** On a registry of nodes the engine built, [findTimesInOriginalSource]
    returns: no [.length] of [undefined] is read, every pattern it builds is
    accepted, no loop meets an empty match; and the registry it leaves is
    again one of nodes the engine built, in ascending order of [index]. *)
Lemma pass_returns (now : nat -> Z) (text : string) (w : world) :
  Forall engineNode (parsedNodes w) ->
  exists w1,
    findTimesInOriginalSource now text w = Ok w1
    /\ Forall engineNode (parsedNodes w1)
    /\ StronglySorted (byKey index) (parsedNodes w1).
Proof.
  intros I. unfold findTimesInOriginalSource, widen.
  destruct (scan_total now text w I) as [w1 [E1 I1]]. rewrite E1. simpl.
  destruct (forEach_inv (fun st => Forall engineNode (parsedNodes st))
              (widenNode now text) (placeholderValues text (parsedNodes w)))
    with (st := w1) as [w2 [E2 I2]]; [|exact I1|].
  - intros node st Hn Is. apply widenNode_total; [|exact Is].
    destruct (placeholder_pass text (parsedNodes w)) as [_ P]. rewrite P in Hn.
    apply in_rev, filter_In in Hn as [Hn _].
    now apply (proj1 (Forall_forall _ _) I).
  - rewrite E2. simpl. eexists. split; [reflexivity|]. simpl. split.
    + apply Forall_forall. intros n Hn. apply sortByKey_In in Hn.
      now apply (proj1 (Forall_forall _ _) I2).
    + apply sortByKey_sorted.
Qed.

Lemma markSeen_engine (n : ParsedNode) : engineNode n -> engineNode (markSeen n).
Proof. intros [W K]. split; assumption. Qed.

Lemma updateFirst_Forall (P : ParsedNode -> Prop) (test : ParsedNode -> bool)
    (f : ParsedNode -> ParsedNode) (l : list ParsedNode) :
  (forall n, P n -> P (f n)) -> Forall P l -> Forall P (updateFirst test f l).
Proof.
  intros Hf. induction 1 as [|n l Hn Hl IH]; simpl; [constructor|].
  destruct (test n); constructor; auto.
Qed.

(** X1.  On a registry of nodes the engine built, [findTimesInOriginalSource]
    returns and leaves such a registry in ascending order of [index]; the
    whole-string pass returns and leaves such a registry; and so does the
    conversion done by [parse].  A session that starts from an empty
    registry therefore never meets an exception, or a loop that cannot
    end, in a pass. *)
Theorem session_passes_return (now : nat -> Z) (text : string) (w : world) :
  Forall engineNode (parsedNodes w) ->
  (exists w1,
      findTimesInOriginalSource now text w = Ok w1
      /\ Forall engineNode (parsedNodes w1)
      /\ StronglySorted (byKey index) (parsedNodes w1))
  /\ (exists out w1,
        matchWholeString now text w = Ok (out, w1)
        /\ Forall engineNode (parsedNodes w1))
  /\ (forall (Moment : Type) strict lenient (valid : Moment -> bool) match0 matchId,
        Forall engineNode
          (snd (parseValidTime strict lenient valid match0 matchId (parsedNodes w)))).
Proof.
  intros I. split; [exact (pass_returns now text w I)|]. split.
  - unfold matchWholeString.
    destruct (pass_returns now text w I) as [w1 [E [I1 _]]].
    rewrite E. simpl.
    assert (M : Forall engineNode (map markSeen (parsedNodes w1))).
    { apply Forall_forall. intros n Hn. apply in_map_iff in Hn as [m [<- Hm]].
      apply markSeen_engine. now apply (proj1 (Forall_forall _ _) I1). }
    destruct (negb (existsb fresh (parsedNodes w1))).
    + eexists. eexists. split; [reflexivity | exact I1].
    + destruct (splitNodes text (parsedNodes w1));
        eexists; eexists; (split; [reflexivity | exact M]).
  - intros Moment strict lenient valid match0 matchId. unfold parseValidTime.
    destruct (find _ (parsedNodes w)) as [node|]; simpl; [|exact I].
    apply updateFirst_Forall; [|exact I].
    intros n [_ K]. split; [intros X; discriminate X | exact K].
Qed.

Lemma session_passes_return_witness :
  (exists w1,
      findTimesInOriginalSource stoppedClock "?:45 at 1PM"
        {| parsedNodes := [rendered 18 0 "13:30"]; clockReads := 0 |} = Ok w1
      /\ Forall engineNode (parsedNodes w1))
  /\ (exists out w1,
        matchWholeString stoppedClock "?:45 at 1PM"
          {| parsedNodes := [rendered 18 0 "13:30"]; clockReads := 0 |} = Ok (out, w1)
        /\ Forall engineNode (parsedNodes w1)).
Proof.
  destruct (session_passes_return stoppedClock "?:45 at 1PM"
              {| parsedNodes := [rendered 18 0 "13:30"]; clockReads := 0 |})
    as [[w1 [E [I _]]] [[out [w2 [E2 I2]]] _]].
  - constructor; [|constructor]. split; [intros X; discriminate X | reflexivity].
  - split; [exists w1 | exists out, w2]; split; assumption.
Defined.

(* ------------------------------------------------------------------ *)
(** ** More on sorting *)

Section SortingAgain.
Variable A : Type.
Variable key : A -> nat.

Lemma sortByKey_snoc (l : list A) (x : A) :
  sortByKey key (l ++ [x]) = insertByKey key x (sortByKey key l).
Proof. unfold sortByKey. now rewrite fold_left_app. Qed.

Lemma insertByKey_after (x : A) (l : list A) :
  Forall (fun y => key y <= key x) l -> insertByKey key x l = l ++ [x].
Proof.
  induction 1 as [|y l Hy Hl IH]; simpl; [reflexivity|].
  destruct (Nat.ltb_spec (key x) (key y)); [lia | now rewrite IH].
Qed.

Lemma sorted_prefix_below (l : list A) (x : A) :
  StronglySorted (byKey key) (l ++ [x]) -> Forall (fun y => key y <= key x) l.
Proof.
  induction l as [|a l IH]; simpl; intros H; [constructor|].
  inversion H as [|? ? Hl Ha]; subst. constructor; [|now apply IH].
  apply Forall_app in Ha as [_ Ha]. now inversion Ha.
Qed.

Lemma sorted_app_left (l1 l2 : list A) :
  StronglySorted (byKey key) (l1 ++ l2) -> StronglySorted (byKey key) l1.
Proof.
  induction l1 as [|a l1 IH]; simpl; intros H; [constructor|].
  inversion H as [|? ? Hl Ha]; subst. constructor; [now apply IH|].
  now apply Forall_app in Ha as [Ha _].
Qed.

(** Sorting a list that is in order gives it back. *)
Lemma sortByKey_sorted_id (l : list A) :
  StronglySorted (byKey key) l -> sortByKey key l = l.
Proof.
  induction l as [|x l IH] using rev_ind; intros H; [reflexivity|].
  rewrite sortByKey_snoc, IH by (now apply sorted_app_left in H).
  apply insertByKey_after. now apply sorted_prefix_below.
Qed.

Lemma filter_insertByKey_out (f : A -> bool) (x : A) (l : list A) :
  Forall (fun y => f y = true) l -> f x = false ->
  filter f (insertByKey key x l) = l.
Proof.
  intros Hl Hx. induction Hl as [|y l Hy Hl IH]; simpl; [now rewrite Hx|].
  destruct (key x <? key y); simpl.
  - rewrite Hx, Hy. f_equal. clear IH.
    induction Hl as [|z l Hz Hl IH]; simpl; [reflexivity|]. now rewrite Hz, IH.
  - now rewrite Hy, IH.
Qed.

End SortingAgain.

Arguments sortByKey_snoc {A} key l x.
Arguments sortByKey_sorted_id {A} key l _.
Arguments filter_insertByKey_out {A} key f x l _ _.

(* ------------------------------------------------------------------ *)
(** ** Adding a node twice *)

Lemma find_all_false {A : Type} (f : A -> bool) (l : list A) :
  (forall x, In x l -> f x = false) -> find f l = None.
Proof.
  induction l as [|x l IH]; simpl; intros H; [reflexivity|].
  rewrite (H x (or_introl eq_refl)). apply IH. intros y Hy. apply H. now right.
Qed.

Lemma keep_self (node : ParsedNode) : keep node node = false.
Proof.
  unfold keep. rewrite Nat.ltb_irrefl. simpl. apply Nat.ltb_ge. lia.
Qed.

Lemma getIntersectingNodes_In (i l : nat) (arr : list ParsedNode) (n : ParsedNode) :
  In n (getIntersectingNodes i l arr) -> In n arr.
Proof. unfold getIntersectingNodes. intros H. apply filter_In in H. tauto. Qed.

Lemma getIntersectingNodes_from (i l : nat) (arr arr' : list ParsedNode)
    (n : ParsedNode) :
  In n (getIntersectingNodes i l arr') -> In n arr ->
  In n (getIntersectingNodes i l arr).
Proof.
  unfold getIntersectingNodes. rewrite !filter_In. tauto.
Qed.

(** X2.  Adding a node that was just added changes nothing: whether the
    candidate was discarded or accepted, a second [addNode] of the same
    node returns the registry the first one returned. *)
Theorem addNode_twice (node : ParsedNode) (arr : list ParsedNode) :
  wellFormed node -> Forall wellFormed arr ->
  exists res, addNode node arr = Ok res /\ addNode node res = Ok res.
Proof.
  intros Wn Wa.
  assert (First : addNode node arr
                  = Ok (match find (fun n => comparedLength node <? comparedLength n)
                                (getIntersectingNodes (index node)
                                   (String.length (originalText node)) arr) with
                        | Some _ => arr
                        | None => sortByKey index (filter (keep node) arr ++ [node])
                        end)).
  { rewrite addNode_unfold,
      (findLonger_defined node _ Wn (intersecting_wellFormed _ _ arr Wa)).
    simpl. now destruct (find _ _). }
  destruct (find (fun n => comparedLength node <? comparedLength n)
              (getIntersectingNodes (index node)
                 (String.length (originalText node)) arr)) as [m|] eqn:F.
  - exists arr. split; exact First.
  - set (kept := filter (keep node) arr) in *.
    set (res := sortByKey index (kept ++ [node])) in *.
    exists res. split; [exact First|].
    assert (Wr : Forall wellFormed res).
    { apply Forall_forall. intros n Hn. unfold res in Hn.
      apply sortByKey_In, in_app_iff in Hn as [Hn|[<-|[]]]; [|exact Wn].
      apply filter_In in Hn as [Hn _]. now apply (proj1 (Forall_forall _ _) Wa). }
    rewrite addNode_unfold,
      (findLonger_defined node _ Wn (intersecting_wellFormed _ _ res Wr)).
    rewrite find_all_false.
    + simpl. f_equal.
      assert (E : res = insertByKey index node (sortByKey index kept))
        by apply sortByKey_snoc.
      rewrite E at 1.
      rewrite (filter_insertByKey_out index (keep node) node (sortByKey index kept)).
      * rewrite (sortByKey_snoc index (sortByKey index kept) node).
        rewrite (sortByKey_sorted_id index (sortByKey index kept))
          by apply sortByKey_sorted.
        now symmetry.
      * apply Forall_forall. intros n Hn. apply sortByKey_In in Hn.
        unfold kept in Hn. apply filter_In in Hn. tauto.
      * apply keep_self.
    + intros n Hn.
      assert (Hr : In n res) by (now apply getIntersectingNodes_In in Hn).
      unfold res in Hr. apply sortByKey_In, in_app_iff in Hr as [Hr|[<-|[]]].
      * apply (find_none _ _ F).
        apply getIntersectingNodes_from with res; [exact Hn|].
        unfold kept in Hr. apply filter_In in Hr. tauto.
      * apply Nat.ltb_irrefl.
Qed.

Lemma addNode_twice_witness :
  exists res,
    addNode (scanned 6 6 "2024-03-21") [scanned 4 0 "21/03/2024"; scanned 14 9 "1PM"]
    = Ok res
    /\ addNode (scanned 6 6 "2024-03-21") res = Ok res.
Proof.
  apply (addNode_twice (scanned 6 6 "2024-03-21")
           [scanned 4 0 "21/03/2024"; scanned 14 9 "1PM"]).
  - intros X; discriminate X.
  - repeat constructor; intros X; discriminate X.
Defined.

(* ------------------------------------------------------------------ *)
(** ** What the scan keeps *)

(** Every visited match stands in the text at the reported offset and is
    the match of the expression there. *)
Lemma execAll_matches (r : RegExp.regex) :
  forall s i skip m,
    In m (execAll r s i skip) ->
    exists before after,
      s = (before ++ snd m ++ after)%string
      /\ i + String.length before = fst m
      /\ RegExp.matchAt r (snd m ++ after) = Some (String.length (snd m))
      /\ snd m <> EmptyString.
Proof.
  induction s as [|c s IH]; intros i skip m H.
  - destruct skip; simpl in H; [|contradiction].
    destruct (RegExp.matchAt r "") as [[|n]|] eqn:M; try contradiction.
    apply RegExpFacts.matchAt_prefix in M as [pre [rest [E [L _]]]].
    destruct pre; [discriminate L | discriminate E].
  - assert (Step : forall k, In m (execAll r s (S i) k) ->
               exists before after,
                 String c s = (before ++ snd m ++ after)%string
                 /\ i + String.length before = fst m
                 /\ RegExp.matchAt r (snd m ++ after) = Some (String.length (snd m))
                 /\ snd m <> EmptyString).
    { intros k Hk. apply IH in Hk as [before [after [E [L [M N]]]]].
      exists (String c before), after. simpl. rewrite <- E.
      repeat split; try assumption. lia. }
    destruct skip; simpl in H; [|now apply Step in H].
    destruct (RegExp.matchAt r (String c s)) as [[|n]|] eqn:M.
    + contradiction.
    + destruct H as [<-|H]; [|now apply Step in H].
      pose proof M as M'.
      apply RegExpFacts.matchAt_prefix in M' as [pre [rest [E [L [Sub _]]]]].
      simpl in Sub. exists EmptyString, rest. cbn [fst snd]. rewrite Sub.
      cbn [String.append String.length]. repeat split.
      * exact E.
      * lia.
      * now rewrite <- E, <- L.
      * intros X. rewrite X in L. discriminate L.
    + now apply Step in H.
Qed.

Lemma located_wellFormed (text : string) (n : ParsedNode) :
  located text n -> wellFormed n.
Proof. intros [_ [E _]] X. congruence. Qed.

Lemma located_compared (text : string) (n : ParsedNode) :
  located text n -> comparedText n = Some (originalText n).
Proof. intros [F [E _]]. unfold comparedText. now rewrite F, E. Qed.

Lemma located_clear (text : string) (n : ParsedNode) :
  located text n -> atPlaceholder text n = false.
Proof.
  intros [_ [_ [_ [Ne [p [r [before [after [_ [Hp [C [T [L M]]]]]]]]]]]]].
  destruct (catalog_pattern p Hp) as [r' [C' [_ F]]].
  rewrite C in C'. injection C' as <-.
  apply RegExpFacts.matchAt_prefix in M as [pre [rest [E [Lp [_ [_ Fc]]]]]].
  destruct pre as [|c pre].
  - destruct (originalText n); [now elim Ne | discriminate Lp].
  - unfold atPlaceholder, JS.charAt.
    assert (G : String.get (index n) text = Some c).
    { rewrite T, E, <- L. clear. induction before as [|b before IH]; simpl; auto. }
    rewrite G. apply String.eqb_neq. intros X. injection X as ->.
    rewrite (Fc _ _ eq_refl) in F. discriminate F.
Qed.

Lemma findLonger_none_all (node : ParsedNode) (l : list ParsedNode) :
  findLonger node l = Ok None ->
  forall n, In n l -> isLonger node n = Ok false.
Proof.
  induction l as [|m l IH]; simpl; intros H n Hn; [contradiction|].
  destruct (isLonger node m) as [[|]|] eqn:E; simpl in H; try discriminate.
  destruct Hn as [<-|Hn]; [exact E | now apply IH].
Qed.

Lemma strictlyBefore_byKey (l : list ParsedNode) :
  StronglySorted strictlyBefore l -> StronglySorted (byKey index) l.
Proof.
  induction 1 as [|a l Hl IH Ha]; constructor; [exact IH|].
  eapply Forall_impl; [|exact Ha]. intros b [H _]. unfold byKey. lia.
Qed.

Lemma StronglySorted_filter {A : Type} (R : A -> A -> Prop) (f : A -> bool)
    (l : list A) :
  StronglySorted R l -> StronglySorted R (filter f l).
Proof.
  induction 1 as [|a l Hl IH Ha]; simpl; [constructor|].
  destruct (f a); [|exact IH]. constructor; [exact IH|].
  apply Forall_forall. intros b Hb. apply filter_In in Hb as [Hb _].
  now apply (proj1 (Forall_forall _ _) Ha).
Qed.

Lemma insert_keeps_order (c : ParsedNode) (l : list ParsedNode) :
  StronglySorted strictlyBefore l ->
  Forall (fun h => strictlyBefore h c \/ strictlyBefore c h) l ->
  StronglySorted strictlyBefore (insertByKey index c l).
Proof.
  induction 1 as [|y l Hl IH Hy]; intros Hc; simpl.
  - constructor; constructor.
  - inversion Hc as [|? ? Hyc Hlc]; subst.
    destruct (Nat.ltb_spec (index c) (index y)) as [Lt|Ge].
    + constructor; [now constructor|].
      assert (Cy : strictlyBefore c y).
      { destruct Hyc as [[H _]|H]; [lia | exact H]. }
      constructor; [exact Cy|].
      apply Forall_forall. intros h Hh.
      apply (proj1 (Forall_forall _ _) Hy) in Hh.
      destruct Cy, Hh. split; lia.
    + constructor; [now apply IH|].
      eapply Permutation_Forall; [apply Permutation_sym, insertByKey_perm|].
      constructor; [|exact Hy].
      destruct Hyc as [H|[H _]]; [exact H | lia].
Qed.

Lemma getIntersectingNodes_start_inside (i l : nat) (arr : list ParsedNode)
    (h : ParsedNode) :
  In h arr -> index h <= i <= nodeEnd h ->
  In h (getIntersectingNodes i l arr).
Proof.
  intros Hh [H1 H2]. unfold getIntersectingNodes. apply filter_In.
  split; [exact Hh|]. cbv zeta. apply orb_true_iff. left.
  apply andb_true_iff. split; apply Nat.leb_le; [exact H1 | exact H2].
Qed.

(** Accepting a candidate among spans none of which contains another
    leaves spans none of which contains another. *)
Lemma addNode_keeps_order (text : string) (node : ParsedNode)
    (arr res : list ParsedNode) :
  located text node -> Forall (located text) arr ->
  StronglySorted strictlyBefore arr ->
  addNode node arr = Ok res ->
  StronglySorted strictlyBefore res.
Proof.
  intros Ln La Sa H.
  pose proof H as H0. rewrite addNode_unfold in H0.
  destruct (findLonger node _) as [[m|]|] eqn:F; simpl in H0;
    [now injection H0 as <- | | discriminate].
  injection H0 as <-.
  rewrite (sortByKey_snoc index).
  rewrite (sortByKey_sorted_id index)
    by (apply strictlyBefore_byKey, StronglySorted_filter, Sa).
  apply insert_keeps_order; [now apply StronglySorted_filter|].
  apply Forall_forall. intros h Hh. apply filter_In in Hh as [Hh K].
  unfold keep in K. apply orb_true_iff in K as [K|K].
  - apply Nat.ltb_lt in K. left. split; [exact K|].
    destruct (Nat.lt_ge_cases (nodeEnd h) (nodeEnd node)) as [Lt|Ge]; [exact Lt|].
    exfalso.
    assert (I : In h (getIntersectingNodes (index node)
                        (String.length (originalText node)) arr)).
    { apply getIntersectingNodes_start_inside; [exact Hh|].
      unfold nodeEnd in *. lia. }
    pose proof (findLonger_none_all _ _ F h I) as Q.
    unfold isLonger in Q.
    rewrite (located_compared text node Ln) in Q.
    rewrite (located_compared text h (proj1 (Forall_forall _ _) La h Hh)) in Q.
    injection Q as Q. apply Nat.ltb_ge in Q. unfold nodeEnd in *. lia.
  - apply Nat.ltb_lt in K. right. unfold strictlyBefore, nodeEnd. lia.
Qed.

Lemma fresh_match_located (text : string) (p : nat) (r : RegExp.regex)
    (m : nat * string) (t : Z) :
  In p patterns ->
  RegExp.compile (source (CatalogPattern p)) = Some r ->
  In m (execAll r text 0 0) ->
  located text (freshNode p (fst m) (snd m) t).
Proof.
  intros Hp C Hm.
  apply execAll_matches in Hm as [before [after [E [L [M N]]]]].
  repeat split; try assumption.
  exists p, r, before, after. repeat split; assumption.
Qed.

Lemma scan_from_clear (now : nat -> Z) (text : string) (w : world) :
  clearOfMarkers text (parsedNodes w) ->
  exists w1,
    scan now text w = Ok w1 /\ scanRegistry now text (parsedNodes w1).
Proof.
  intros C. unfold scan.
  destruct (placeholder_pass text (parsedNodes w)) as [R _].
  rewrite (filter_none_in _ _ C) in R. rewrite R.
  apply (forEach_inv (fun st => scanRegistry now text (parsedNodes st))).
  - intros p st Hp Is.
    destruct (catalog_pattern p Hp) as [r [Cp [N _]]].
    unfold scanPattern, globalLoop. rewrite Cp, (execLoop_forEach r _ N).
    revert Is. apply (forEach_inv (fun st => scanRegistry now text (parsedNodes st))).
    intros m st1 Hm [I1 [I2 I3]]. unfold scanBody.
    pose proof (fresh_match_located text p r m (now (clockReads st1)) Hp Cp Hm) as Lm.
    destruct (addNode_total (freshNode p (fst m) (snd m) (now (clockReads st1)))
                (parsedNodes st1)) as [res E].
    + now apply located_wellFormed with text.
    + eapply Forall_impl; [|exact I1]. intros n. apply located_wellFormed.
    + rewrite E. simpl. eexists. split; [reflexivity|]. simpl. split; [|split].
      * now apply (addNode_Forall _ _ _ _ E).
      * now apply (addNode_keeps_order text _ _ _ Lm I1 I2 E).
      * apply (addNode_Forall _ _ _ _ E); [|exact I3]. now exists (clockReads st1).
  - simpl. repeat split; constructor.
Qed.

(** The same for the whole of [findTimesInOriginalSource]: with no span at
    a marker nothing is widened, and the final sort finds the registry in
    order. *)
Lemma findTimes_from_clear (now : nat -> Z) (text : string) (w : world) :
  clearOfMarkers text (parsedNodes w) ->
  exists w1,
    findTimesInOriginalSource now text w = Ok w1
    /\ scanRegistry now text (parsedNodes w1).
Proof.
  intros C. destruct (scan_from_clear now text w C) as [w1 [E [I1 [I2 I3]]]].
  destruct (placeholder_pass text (parsedNodes w)) as [_ P].
  rewrite (filter_none_in _ _ C) in P. simpl in P.
  unfold findTimesInOriginalSource, widen. rewrite E, P. simpl.
  eexists. split; [reflexivity|]. simpl.
  rewrite (sortByKey_sorted_id index) by (now apply strictlyBefore_byKey).
  repeat split; assumption.
Qed.

Lemma substring_skip (a b : string) (m : nat) :
  String.substring (String.length a) m (a ++ b) = String.substring 0 m b.
Proof. induction a as [|c a IH]; simpl; [reflexivity | exact IH]. Qed.

Lemma sorted_pairs {A : Type} (R : A -> A -> Prop) (l : list A) :
  StronglySorted R l ->
  forall a b, In a l -> In b l -> a = b \/ R a b \/ R b a.
Proof.
  induction 1 as [|x l Hl IH Hx]; intros a b Ha Hb; [contradiction|].
  destruct Ha as [<-|Ha], Hb as [<-|Hb].
  - now left.
  - right. left. now apply (proj1 (Forall_forall _ _) Hx).
  - right. right. now apply (proj1 (Forall_forall _ _) Hx).
  - now apply IH.
Qed.

(** X3.  After a pass that starts with no span at a marker (a new session,
    or a text without "?"), the registry lists the spans so that each one
    starts strictly before and ends strictly before every later one: no
    two held spans start at the same offset and none contains another. *)
Theorem pass_orders_spans (now : nat -> Z) (text : string) (w : world) :
  clearOfMarkers text (parsedNodes w) ->
  exists w1,
    findTimesInOriginalSource now text w = Ok w1
    /\ StronglySorted strictlyBefore (parsedNodes w1)
    /\ (forall a b, In a (parsedNodes w1) -> In b (parsedNodes w1) ->
                    a = b
                    \/ (index a < index b /\ nodeEnd a < nodeEnd b)
                    \/ (index b < index a /\ nodeEnd b < nodeEnd a)).
Proof.
  intros C. destruct (findTimes_from_clear now text w C) as [w1 [E [_ [S _]]]].
  exists w1. split; [exact E|]. split; [exact S|].
  exact (sorted_pairs strictlyBefore _ S).
Qed.

Lemma pass_orders_spans_witness :
  exists w1,
    findTimesInOriginalSource stoppedClock "21/03/2024-03-21 at 13:30"
      {| parsedNodes := [rendered 18 3 "13:30"]; clockReads := 0 |} = Ok w1
    /\ StronglySorted strictlyBefore (parsedNodes w1).
Proof.
  destruct (pass_orders_spans stoppedClock "21/03/2024-03-21 at 13:30"
              {| parsedNodes := [rendered 18 3 "13:30"]; clockReads := 0 |})
    as [w1 [E [S _]]].
  - intros n [<-|[]]. reflexivity.
  - exists w1. split; assumption.
Defined.

(** X4.  After a pass that starts with no span at a marker, every held
    span is a fresh match of a catalog pattern: it is no extension and not
    converted, its [originalText] is not empty and is the piece of the text
    at its [index], and that piece is what its pattern matches at that
    offset of the text. *)
Theorem pass_spans_are_matches (now : nat -> Z) (text : string) (w : world) :
  clearOfMarkers text (parsedNodes w) ->
  exists w1,
    findTimesInOriginalSource now text w = Ok w1
    /\ forall n, In n (parsedNodes w1) ->
         fresh n = true /\ isExtension n = false /\ converted n = false
         /\ originalText n <> EmptyString
         /\ String.substring (index n) (String.length (originalText n)) text
            = originalText n
         /\ exists p r,
              format n = CatalogPattern p
              /\ p < List.length humanTimeFormatRegex
              /\ RegExp.compile (source (format n)) = Some r
              /\ RegExp.matchAt r
                   (String.substring (index n) (String.length text - index n) text)
                 = Some (String.length (originalText n)).
Proof.
  intros C. destruct (findTimes_from_clear now text w C) as [w1 [E [L _]]].
  exists w1. split; [exact E|]. intros n Hn.
  apply (proj1 (Forall_forall _ _) L) in Hn.
  destruct Hn as [F [X [Cv [Ne [p [r [before [after [Ef [Hp [Cp [T [Lb M]]]]]]]]]]]]].
  repeat split; try assumption.
  - rewrite T, <- Lb, substring_skip. apply RegExpFacts.substring_prefix.
  - exists p, r. repeat split.
    + exact Ef.
    + now apply patterns_range in Hp.
    + now rewrite Ef.
    + rewrite T, <- Lb, substring_skip.
      rewrite !RegExpFacts.append_length.
      replace (String.length before + (String.length (originalText n)
                 + String.length after) - String.length before)
        with (String.length (originalText n ++ after))
        by (rewrite RegExpFacts.append_length; lia).
      now rewrite substring_all.
Qed.

Lemma pass_spans_are_matches_witness :
  exists w1,
    findTimesInOriginalSource stoppedClock "see you at 13:30 on 21/03 ok?"
      {| parsedNodes := []; clockReads := 0 |} = Ok w1
    /\ forall n, In n (parsedNodes w1) ->
         String.substring (index n) (String.length (originalText n))
           "see you at 13:30 on 21/03 ok?" = originalText n.
Proof.
  destruct (pass_spans_are_matches stoppedClock "see you at 13:30 on 21/03 ok?"
              {| parsedNodes := []; clockReads := 0 |})
    as [w1 [E H]].
  - intros n [].
  - exists w1. split; [exact E|]. intros n Hn. now apply H.
Defined.

(* ------------------------------------------------------------------ *)
(** ** A match does not depend on what follows it *)

Module RegExpContext.
Import RegExp.

Lemma inside_suffix (rest v pre v' : string) :
  inside rest v -> v = (pre ++ v')%string -> inside rest v'.
Proof.
  intros [w [Nw E]] ->. exists (w ++ pre)%string. split.
  - destruct w; [now elim Nw | discriminate].
  - now rewrite RegExpFacts.append_assoc.
Qed.

Section Context.
Variable rest : string.
Variable D : nat -> Prop.

Lemma follows_char (test : ascii -> bool) (k k' : string -> option nat) :
  follows rest D k k' ->
  follows rest D
    (fun s => match s with
              | String x s' => if test x then k s' else None
              | EmptyString => None
              end)
    (fun s => match s with
              | String x s' => if test x then k' s' else None
              | EmptyString => None
              end).
Proof.
  unfold follows.
  intros [H1 [H2 H3]]. split; [|split].
  - intros u x H. destruct u as [|y u]; simpl in H.
    + destruct rest as [|y z] eqn:R; [discriminate|].
      destruct (test y); [|discriminate].
      right. apply (H3 z x); [|exact H].
      exists (String y EmptyString). split; [discriminate | reflexivity].
    + destruct (test y); [|discriminate]. now apply H1.
  - intros u H. destruct u as [|y u]; [now elim H|]. simpl.
    destruct (test y); [now apply H2 | now elim H].
  - intros v x Hv H. destruct v as [|y v]; [discriminate|].
    destruct (test y); [|discriminate].
    apply (H3 v x); [|exact H].
    apply (inside_suffix rest (String y v) (String y EmptyString) v Hv eq_refl).
Qed.

Lemma run_follows (r : regex) :
  forall k k',
    follows rest D k k' ->
    follows rest D (fun s => run r s k) (fun s => run r s k').
Proof.
  induction r as [|c| |ranges|r1 IH1 r2 IH2|r1 IH1 r2 IH2|r1 IH1];
    intros k k' F.
  - exact F.
  - exact (follows_char (fun x => Ascii.eqb x c) k k' F).
  - exact (follows_char isDigit k k' F).
  - exact (follows_char (fun x => existsb (inRange x) ranges) k k' F).
  - simpl. apply IH1, IH2, F.
  - destruct (IH1 k k' F) as [A1 [A2 A3]].
    destruct (IH2 k k' F) as [B1 [B2 B3]].
    split; [|split]; simpl.
    + intros u x H. destruct (run r1 (u ++ rest) k') as [y|] eqn:R1.
      * injection H as ->. destruct (A1 u x R1) as [K|K]; [|now right].
        left. now rewrite K.
      * destruct (run r1 u k) as [y|] eqn:R1'.
        -- exfalso. apply (A2 u); [congruence | exact R1].
        -- now apply B1.
    + intros u H. destruct (run r1 u k) as [y|] eqn:R1'.
      * destruct (run r1 (u ++ rest) k') eqn:R1; [discriminate|].
        exfalso. apply (A2 u); [congruence | exact R1].
      * destruct (run r1 (u ++ rest) k'); [discriminate|]. now apply B2.
    + intros v x Hv H. destruct (run r1 v k') as [y|] eqn:R1.
      * injection H as ->. now apply (A3 v x).
      * now apply (B3 v x).
  - destruct (IH1 k k' F) as [A1 [A2 A3]].
    destruct F as [F1 [F2 F3]].
    split; [|split]; simpl.
    + intros u x H. destruct (run r1 (u ++ rest) k') as [y|] eqn:R1.
      * injection H as ->. destruct (A1 u x R1) as [K|K]; [|now right].
        left. now rewrite K.
      * destruct (run r1 u k) as [y|] eqn:R1'.
        -- exfalso. apply (A2 u); [congruence | exact R1].
        -- now apply F1.
    + intros u H. destruct (run r1 u k) as [y|] eqn:R1'.
      * destruct (run r1 (u ++ rest) k') eqn:R1; [discriminate|].
        exfalso. apply (A2 u); [congruence | exact R1].
      * destruct (run r1 (u ++ rest) k'); [discriminate|]. now apply F2.
    + intros v x Hv H. destruct (run r1 v k') as [y|] eqn:R1.
      * injection H as ->. now apply (A3 v x).
      * now apply (F3 v x).
Qed.

End Context.

(** If the expression matches exactly [s] at the head of [s] followed by
    [rest], it matches the whole of [s] taken alone. *)
Lemma matchAt_alone (r : regex) (s rest : string) :
  matchAt r (s ++ rest) = Some (String.length s) ->
  matchAt r s = Some (String.length s).
Proof.
  unfold matchAt. intros H.
  destruct (run_follows rest (fun x => String.length s < x) r
              (fun v => Some (String.length s - String.length v))
              (fun v => Some (String.length (s ++ rest) - String.length v)))
    as [A _].
  - split; [|split].
    + intros u x E. left. rewrite <- E. f_equal.
      rewrite !RegExpFacts.append_length. lia.
    + intros; discriminate.
    + intros v x [w [Nw E]] K. injection K as <-. rewrite E.
      rewrite !RegExpFacts.append_length.
      destruct w; [now elim Nw | simpl; lia].
  - destruct (A s _ H) as [K|K]; [exact K | lia].
Qed.

End RegExpContext.

(* ------------------------------------------------------------------ *)
(** ** The nested pass *)

Lemma execFrom_whole (r : RegExp.regex) (t : string) :
  RegExp.matchAt r t = Some (String.length t) ->
  execFrom r t 0 0 = Some (0, t).
Proof.
  intros M.
  assert (E : execFrom r t 0 0
              = match RegExp.matchAt r t with
                | Some n => Some (0, String.substring 0 n t)
                | None =>
                    match t with
                    | EmptyString => None
                    | String _ t' => execFrom r t' 1 0
                    end
                end) by (destruct t; reflexivity).
  rewrite E, M. now rewrite substring_all.
Qed.

Lemma nestedMatch_nodes (subject : string) (held : list (ParsedNode * nat)) :
  forall res held',
    nestedMatch subject held = Ok (res, held') ->
    map fst held' = map fst held
    /\ (forall m, res = Some m ->
          exists n, In n (map fst held)
                    /\ converted n = false /\ originalText n = subject).
Proof.
  induction held as [|[node li] held IH]; intros res held' H; simpl in H.
  - injection H as <- <-. split; [reflexivity | discriminate].
  - assert (Skip : forall (li' : nat) (o : outcome (option (nat * string)
                                                    * list (ParsedNode * nat))),
               o = nestedMatch subject held ->
               (r <- o ;; Ok (fst r, (node, li') :: snd r)) = Ok (res, held') ->
               map fst held' = node :: map fst held
               /\ (forall m, res = Some m ->
                     exists n, In n (node :: map fst held)
                               /\ converted n = false /\ originalText n = subject)).
    { intros li' o -> K.
      destruct (nestedMatch subject held) as [[res1 held1]|e] eqn:N;
        [|discriminate]. simpl in K. injection K as <- <-.
      destruct (IH res1 held1 eq_refl) as [M1 M2]. simpl. split; [now rewrite M1|].
      intros m Hm. destruct (M2 m Hm) as [n [Hn Q]]. exists n. split; [now right | exact Q]. }
    simpl map.
    destruct (converted node) eqn:Cv; [now apply (Skip li _ eq_refl)|].
    destruct (String.eqb subject (originalText node)) eqn:Eq; simpl in H;
      [|now apply (Skip li _ eq_refl)].
    destruct (formatExec (format node) li subject) as [[found li']|e];
      [|discriminate]. simpl in H.
    destruct found as [m|]; [|now apply (Skip li' _ eq_refl)].
    injection H as <- <-. split; [reflexivity|].
    intros m' _. exists node. split; [now left|]. split; [exact Cv|].
    symmetry. now apply String.eqb_eq.
Qed.

Lemma nestedMatch_finds (subject : string) (held : list (ParsedNode * nat)) :
  Forall (fun x => recognisable (fst x)) held ->
  (exists n, In n (map fst held) /\ converted n = false /\ originalText n = subject) ->
  exists held',
    nestedMatch subject held = Ok (Some (0, subject), held').
Proof.
  induction 1 as [|[node li] held Hn Hl IH]; intros [n [Hin [Cv Eq]]];
    [contradiction|].
  assert (Rest : (converted node = true \/ originalText node <> subject) ->
                 exists held1, nestedMatch subject held = Ok (Some (0, subject), held1)).
  { intros Q. apply IH. exists n. split; [|now split].
    destruct Hin as [<-|Hin]; [|exact Hin].
    cbn [fst] in Cv, Eq. destruct Q as [Q|Q]; [congruence | now elim Q]. }
  cbn [nestedMatch].
  destruct (converted node) eqn:Cn.
  - destruct (Rest (or_introl eq_refl)) as [held1 E]. rewrite E. simpl. eauto.
  - destruct (String.eqb_spec subject (originalText node)) as [Es|Ns]; simpl.
    + destruct Hn as [p [r [after [Ef [C M]]]]]. cbn [fst] in *.
      apply RegExpContext.matchAt_alone in M. rewrite <- Es in M.
      unfold formatExec. rewrite Ef, C. simpl.
      rewrite (execFrom_whole r subject M). simpl. eauto.
    + destruct (Rest (or_intror (fun X => Ns (eq_sym X)))) as [held1 E].
      rewrite E. simpl. eauto.
Qed.

(* ------------------------------------------------------------------ *)
(** ** The entries of the whole-string pass *)

Lemma splitStep_entries (text : string) (acc : list Split.node) (prev : Z)
    (n : ParsedNode) :
  exists gap,
    fst (splitStep text (acc, prev) n) = acc ++ gap ++ [spanEntry n]
    /\ Forall (fun e => Split.type e = Split.prepText) gap.
Proof.
  unfold splitStep. cbn [fst snd].
  destruct (String.eqb _ "").
  - exists []. split; [reflexivity | constructor].
  - eexists [_]. split; [now rewrite <- app_assoc | repeat constructor].
Qed.

Lemma splitFold_entries (text : string) (l : list ParsedNode) :
  forall acc prev,
    (forall e, In e (fst (fold_left (splitStep text) l (acc, prev))) ->
               In e acc \/ (exists n, In n l /\ e = spanEntry n)
               \/ Split.type e = Split.prepText)
    /\ (forall e, In e acc -> In e (fst (fold_left (splitStep text) l (acc, prev))))
    /\ (forall n, In n l ->
                  In (spanEntry n) (fst (fold_left (splitStep text) l (acc, prev)))).
Proof.
  induction l as [|n l IH]; intros acc prev; simpl.
  - repeat split; try tauto.
  - destruct (splitStep_entries text acc prev n) as [gap [E G]].
    destruct (splitStep text (acc, prev) n) as [acc1 prev1] eqn:S.
    cbn [fst] in E. subst acc1.
    destruct (IH (acc ++ gap ++ [spanEntry n]) prev1) as [A [B C]].
    split; [|split].
    + intros e He. destruct (A e He) as [H|[[m [Hm ->]]|H]].
      * apply in_app_iff in H as [H|H]; [now left|].
        apply in_app_iff in H as [H|[<-|[]]].
        -- right. right. now apply (proj1 (Forall_forall _ _) G).
        -- right. left. exists n. split; [now left | reflexivity].
      * right. left. exists m. split; [now right | reflexivity].
      * now right; right.
    + intros e He. apply B, in_app_iff. now left.
    + intros m [<-|Hm]; [|now apply C].
      apply B. rewrite !in_app_iff. right. right. now left.
Qed.

(** The span entries of [state.splitNodes] are those of the held nodes. *)
Lemma splitNodes_spans (text : string) (nodes : list ParsedNode) :
  (forall e, In e (splitNodes text nodes) ->
             (exists n, In n nodes /\ e = spanEntry n)
             \/ Split.type e = Split.prepText)
  /\ (forall n, In n nodes -> In (spanEntry n) (splitNodes text nodes)).
Proof.
  unfold splitNodes.
  destruct (splitFold_entries text (rev nodes) [] (-1)%Z) as [A [_ C]].
  destruct (fold_left (splitStep text) (rev nodes) ([], (-1)%Z)) as [acc prev].
  cbn [fst] in A, C. split.
  - intros e He. apply sortByKey_In in He.
    assert (Ha : In e acc \/ Split.type e = Split.prepText).
    { destruct (String.eqb _ "") in He; [now left|].
      apply in_app_iff in He as [He|[<-|[]]]; [now left | now right]. }
    destruct Ha as [Ha|Ha]; [|now right].
    destruct (A e Ha) as [[]|[[n [Hn ->]]|H]]; [|now right].
    left. exists n. split; [now apply in_rev | reflexivity].
  - intros n Hn. apply sortByKey_In.
    assert (Ha : In (spanEntry n) acc) by (apply C; now apply in_rev in Hn).
    destruct (String.eqb _ ""); [exact Ha | apply in_app_iff; now left].
Qed.

(** The whole-string pass that starts with no span at a marker, in full. *)
Lemma matchWhole_from_clear (now : nat -> Z) (text : string) (w : world) :
  clearOfMarkers text (parsedNodes w) ->
  exists w0,
    findTimesInOriginalSource now text w = Ok w0
    /\ scanRegistry now text (parsedNodes w0)
    /\ ((parsedNodes w0 = [] /\ matchWholeString now text w = Ok (None, w0))
        \/ (parsedNodes w0 <> []
            /\ matchWholeString now text w
               = Ok (Some (splitNodes text (parsedNodes w0)),
                     {| parsedNodes := map markSeen (parsedNodes w0);
                        clockReads := clockReads w0 |}))).
Proof.
  intros C. destruct (findTimes_from_clear now text w C) as [w0 [E R]].
  exists w0. split; [exact E|]. split; [exact R|].
  unfold matchWholeString. rewrite E. simpl.
  destruct (parsedNodes w0) as [|n l] eqn:N; [left; now split|].
  right. split; [discriminate|].
  assert (F : fresh n = true).
  { destruct R as [L _]. inversion L as [|? ? Ln _]; subst. apply Ln. }
  simpl. rewrite F. simpl.
  destruct (splitNodes text (n :: l)) eqn:S; [|reflexivity].
  exfalso. destruct (splitNodes_spans text (n :: l)) as [_ H].
  specialize (H n (or_introl eq_refl)). rewrite S in H. exact H.
Qed.

Lemma located_recognisable (text : string) (n : ParsedNode) :
  located text n -> recognisable (markSeen n).
Proof.
  intros [_ [_ [_ [_ [p [r [before [after [F [_ [C [_ [_ M]]]]]]]]]]]]].
  exists p, r, after. repeat split; assumption.
Qed.

(** X5.  The whole-string pass and the nested pass agree.  After a
    whole-string pass that starts with no span at a marker, the text handed
    on for every [prepValidTime] entry is matched by the nested branch of
    [validTime.match], over its whole length from offset 0, whatever the
    [lastIndex] values of the pattern objects, and the nested branch leaves
    the held nodes as they are. *)
Theorem nested_pass_recognises (now : nat -> Z) (text : string) (w : world) :
  clearOfMarkers text (parsedNodes w) ->
  exists out w1,
    matchWholeString now text w = Ok (out, w1)
    /\ forall entries e held,
         out = Some entries -> In e entries ->
         Split.type e = Split.prepValidTime ->
         map fst held = parsedNodes w1 ->
         exists held',
           nestedMatch (handedText e) held = Ok (Some (0, handedText e), held')
           /\ map fst held' = parsedNodes w1.
Proof.
  intros C.
  destruct (matchWhole_from_clear now text w C) as [w0 [_ [[L _] [[_ E]|[_ E]]]]];
    rewrite E; eexists; eexists; (split; [reflexivity|]);
    intros entries e held Out He Ty Hd; [discriminate Out|].
  injection Out as <-. cbn [parsedNodes] in Hd.
  destruct (splitNodes_spans text (parsedNodes w0)) as [Sp _].
  destruct (Sp e He) as [[n [Hn ->]]|Ty']; [|rewrite Ty' in Ty; discriminate Ty].
  pose proof (proj1 (Forall_forall _ _) L) as Loc.
  assert (Hs : handedText (spanEntry n) = originalText n).
  { unfold handedText, spanEntry. cbn. destruct (Loc n Hn) as [-> _]. reflexivity. }
  rewrite Hs.
  destruct (nestedMatch_finds (originalText n) held) as [held' R].
  - apply Forall_forall. intros [m li] Hm. cbn [fst].
    assert (Hm' : In m (map fst held)) by (apply in_map_iff; now exists (m, li)).
    rewrite Hd in Hm'. apply in_map_iff in Hm' as [m0 [<- Hm0]].
    apply (located_recognisable text), Loc, Hm0.
  - exists (markSeen n). rewrite Hd. split; [now apply in_map|].
    split; [|reflexivity]. cbn. now destruct (Loc n Hn) as [_ [_ [-> _]]].
  - exists held'. split; [exact R|].
    destruct (nestedMatch_nodes _ _ _ _ R) as [-> _]. exact Hd.
Qed.

Lemma nested_pass_recognises_witness :
  exists out w1,
    matchWholeString stoppedClock "see you at 13:30"
      {| parsedNodes := []; clockReads := 0 |} = Ok (out, w1)
    /\ forall entries e held,
         out = Some entries -> In e entries ->
         Split.type e = Split.prepValidTime ->
         map fst held = parsedNodes w1 ->
         exists held',
           nestedMatch (handedText e) held = Ok (Some (0, handedText e), held')
           /\ map fst held' = parsedNodes w1.
Proof.
  apply (nested_pass_recognises stoppedClock "see you at 13:30"
           {| parsedNodes := []; clockReads := 0 |}).
  intros n [].
Defined.

(* ------------------------------------------------------------------ *)
(** ** What the split of the whole-string pass spells *)

Module SubstringFacts.

Lemma append_nil_r (s : string) : (s ++ "")%string = s.
Proof. induction s as [|c s IH]; simpl; [reflexivity | now rewrite IH]. Qed.

Lemma concat_cons (x : string) (l : list string) :
  String.concat "" (x :: l) = (x ++ String.concat "" l)%string.
Proof. destruct l; simpl; [now rewrite append_nil_r | reflexivity]. Qed.

Lemma substring_zero (s : string) : forall n, String.substring n 0 s = "".
Proof.
  induction s as [|c s IH]; intros [|n]; simpl; try reflexivity. apply IH.
Qed.

(** [String.substring] stops at the end of the string. *)
Lemma substring_trunc (s : string) :
  forall a m,
    String.substring a m s
    = String.substring a (Nat.min m (String.length s - a)) s.
Proof.
  induction s as [|c s IH]; intros a m.
  - destruct a, m; reflexivity.
  - destruct a as [|a].
    + destruct m as [|m]; [reflexivity|].
      cbn [String.substring String.length Nat.sub Nat.min]. f_equal.
      rewrite (IH 0 m). now rewrite Nat.sub_0_r.
    + cbn [String.substring String.length Nat.sub]. apply IH.
Qed.

Lemma substring_join (s : string) :
  forall a m k,
    (String.substring a m s ++ String.substring (a + m) k s)%string
    = String.substring a (m + k) s.
Proof.
  induction s as [|c s IH]; intros a m k.
  - destruct a, m, k; reflexivity.
  - destruct a as [|a].
    + destruct m as [|m]; [reflexivity|].
      cbn [String.substring Nat.add String.append]. f_equal. apply (IH 0 m k).
    + cbn [String.substring Nat.add]. apply IH.
Qed.

(** The text between two offsets, in order. *)
Lemma substring_between (s : string) (a b c : nat) :
  a <= b -> b <= c ->
  (String.substring a (b - a) s ++ String.substring b (c - b) s)%string
  = String.substring a (c - a) s.
Proof.
  intros Hab Hbc.
  replace b with (a + (b - a)) at 2 by lia.
  rewrite substring_join. f_equal. lia.
Qed.

Lemma JS_substring_nat (s : string) (a b : nat) :
  a <= b ->
  JS.substring s (Z.of_nat a) (Z.of_nat b) = String.substring a (b - a) s.
Proof.
  intros Hab. unfold JS.substring, JS.clamp. rewrite !Nat2Z.id.
  rewrite Nat.min_l, Nat.max_r by lia.
  destruct (Nat.le_gt_cases a (String.length s)) as [H|H].
  - rewrite (Nat.min_l a) by lia.
    rewrite (substring_trunc s a (b - a)). f_equal. lia.
  - rewrite (Nat.min_r a), (Nat.min_r b) by lia.
    rewrite Nat.sub_diag, substring_zero.
    rewrite (substring_trunc s a (b - a)).
    replace (Nat.min (b - a) (String.length s - a)) with 0 by lia.
    now rewrite substring_zero.
Qed.

Lemma get_substring (s : string) :
  forall i c, String.get i s = Some c -> String.substring i 1 s = String c "".
Proof.
  induction s as [|d s IH]; intros [|i] c; simpl; try discriminate.
  - intros [= ->]. now rewrite substring_zero.
  - apply IH.
Qed.

End SubstringFacts.

Section StrictOrder.
Variable A : Type.
Variable key : A -> nat.

Lemma insertByKey_before (x : A) (l : list A) :
  Forall (fun y => key x < key y) l -> insertByKey key x l = x :: l.
Proof.
  destruct 1 as [|y l Hy _]; simpl; [reflexivity|].
  now destruct (Nat.ltb_spec (key x) (key y)); [|lia].
Qed.

(** Sorting what was pushed in strictly descending order reverses it. *)
Lemma sortByKey_rev (l : list A) :
  StronglySorted (fun a b => key a < key b) l -> sortByKey key (rev l) = l.
Proof.
  induction 1 as [|x l Hl IH Hx]; [reflexivity|].
  simpl. rewrite sortByKey_snoc, IH. now apply insertByKey_before.
Qed.

Lemma StronglySorted_snoc (R : A -> A -> Prop) (l : list A) (x : A) :
  StronglySorted R l -> Forall (fun y => R y x) l -> StronglySorted R (l ++ [x]).
Proof.
  induction 1 as [|y l Hl IH Hy]; intros F; simpl.
  - repeat constructor.
  - inversion F as [|? ? Fy Fl]; subst. constructor; [now apply IH|].
    apply Forall_app. split; [exact Hy | now constructor].
Qed.

Lemma StronglySorted_rev (R : A -> A -> Prop) (l : list A) :
  StronglySorted R l -> StronglySorted (fun a b => R b a) (rev l).
Proof.
  induction 1 as [|x l Hl IH Hx]; simpl; [constructor|].
  apply StronglySorted_snoc; [exact IH|]. now apply Forall_rev.
Qed.

End StrictOrder.

Arguments insertByKey_before {A} key x l.
Arguments sortByKey_rev {A} key l.
Arguments StronglySorted_snoc {A} R l x.
Arguments StronglySorted_rev {A} R l.

Lemma fits_length (text : string) (n : ParsedNode) : fits text n -> 1 <= nodeLength n.
Proof.
  unfold fits, nodeLength. destruct (fresh n); [|lia].
  intros [Ne _]. destruct (originalText n); [now elim Ne | simpl; lia].
Qed.

Lemma fits_handed (text : string) (n : ParsedNode) :
  fits text n ->
  handedText (spanEntry n) = String.substring (index n) (nodeLength n) text.
Proof.
  unfold fits, nodeLength, handedText, spanEntry. cbn.
  destruct (fresh n).
  - now intros [_ ->].
  - intros G. symmetry. now apply SubstringFacts.get_substring.
Qed.

(** The first step of the loop reads the end of the last span where the
    later steps read [prevIndex]. *)
Lemma splitStep_first (text : string) (acc : list Split.node) (n : ParsedNode) :
  splitStep text (acc, (-1)%Z) n
  = splitStep text (acc, Z.of_nat (index n + nodeLength n)) n.
Proof.
  unfold splitStep, nodeLength. cbn [fst snd].
  replace (Z.eqb (-1) (-1)) with true by reflexivity.
  now destruct (Z.eqb_spec (Z.of_nat (index n + (if fresh n then
                   String.length (originalText n) else 1))) (-1)); [lia|].
Qed.

(** One step of the loop, for a span that ends at [p] or before: the
    entries pushed so far, last first, spell the text from the span to
    [upto], in strictly ascending order of their offsets. *)
Lemma splitStep_spells (text : string) (upto : nat) (acc : list Split.node)
    (p : nat) (n : ParsedNode) :
  fits text n -> index n + nodeLength n <= p -> p <= upto ->
  String.concat "" (map handedText (rev acc))
  = String.substring p (upto - p) text ->
  StronglySorted (fun a b => Split.index a < Split.index b) (rev acc) ->
  Forall (fun e => p <= Split.index e) (rev acc) ->
  exists acc',
    splitStep text (acc, Z.of_nat p) n = (acc', Z.of_nat (index n))
    /\ String.concat "" (map handedText (rev acc'))
       = String.substring (index n) (upto - index n) text
    /\ StronglySorted (fun a b => Split.index a < Split.index b) (rev acc')
    /\ Forall (fun e => index n <= Split.index e) (rev acc').
Proof.
  intros F Hp Hu J S B.
  pose proof (fits_length text n F) as L1.
  pose proof (fits_handed text n F) as Hh.
  unfold splitStep. cbn [fst snd]. fold (nodeLength n). fold (spanEntry n).
  destruct (Z.eqb_spec (Z.of_nat p) (-1)) as [X|_]; [lia|].
  destruct (Z.eqb_spec (Z.of_nat (index n)) (Z.of_nat p)) as [X|_]; [lia|].
  rewrite SubstringFacts.JS_substring_nat by exact Hp.
  set (after := String.substring (index n + nodeLength n)
                  (p - (index n + nodeLength n)) text).
  assert (Sp : (String.substring (index n) (nodeLength n) text ++ after
                  ++ String.substring p (upto - p) text)%string
               = String.substring (index n) (upto - index n) text).
  { unfold after.
    rewrite (SubstringFacts.substring_between text (index n + nodeLength n) p upto)
      by lia.
    replace (nodeLength n) with (index n + nodeLength n - index n) at 1 by lia.
    apply SubstringFacts.substring_between; lia. }
  assert (Below : Forall (fun e => index n < Split.index e) (rev acc)).
  { apply (Forall_impl _ (P := fun e => p <= Split.index e)); [|exact B].
    intros e He. simpl in He |- *. lia. }
  destruct (String.eqb_spec after "") as [E|E].
  - eexists. split; [reflexivity|]. rewrite rev_app_distr. cbn [rev app map].
    rewrite SubstringFacts.concat_cons, J, Hh, <- Sp, E. split; [reflexivity|].
    split; [now constructor|].
    constructor; [reflexivity|].
    apply (Forall_impl _ (P := fun e => index n < Split.index e)); [|exact Below].
    intros e He. simpl in He |- *. lia.
  - assert (Gap : index n + nodeLength n < p).
    { destruct (Nat.eq_dec (index n + nodeLength n) p) as [Q|Q]; [|lia].
      elim E. unfold after. rewrite Q, Nat.sub_diag.
      apply SubstringFacts.substring_zero. }
    eexists. split; [reflexivity|].
    rewrite !rev_app_distr. cbn [rev app map].
    rewrite !SubstringFacts.concat_cons, J, Hh, <- Sp.
    split; [reflexivity|]. split.
    + constructor.
      * constructor; [exact S|].
        apply (Forall_impl _ (P := fun e => p <= Split.index e)); [|exact B].
        intros e He. cbn. lia.
      * constructor; [cbn; lia | exact Below].
    + constructor; [reflexivity|]. constructor; [cbn; lia|].
      apply (Forall_impl _ (P := fun e => index n < Split.index e)); [|exact Below].
      intros e He. simpl in He |- *. lia.
Qed.

Lemma splitFold_spells (text : string) (upto : nat) (l : list ParsedNode) :
  forall acc p,
    Forall (fits text) l ->
    StronglySorted (fun a b => apart b a) l ->
    Forall (fun n => index n + nodeLength n <= p) l ->
    p <= upto ->
    String.concat "" (map handedText (rev acc))
    = String.substring p (upto - p) text ->
    StronglySorted (fun a b => Split.index a < Split.index b) (rev acc) ->
    Forall (fun e => p <= Split.index e) (rev acc) ->
    exists acc' p',
      fold_left (splitStep text) l (acc, Z.of_nat p) = (acc', Z.of_nat p')
      /\ p' <= upto
      /\ String.concat "" (map handedText (rev acc'))
         = String.substring p' (upto - p') text
      /\ StronglySorted (fun a b => Split.index a < Split.index b) (rev acc')
      /\ Forall (fun e => p' <= Split.index e) (rev acc').
Proof.
  induction l as [|n l IH]; intros acc p F S E Hu J So B.
  - exists acc, p. now repeat split.
  - inversion F as [|? ? Fn Fl]; subst. inversion S as [|? ? Sl Sn]; subst.
    inversion E as [|? ? En El]; subst.
    destruct (splitStep_spells text upto acc p n Fn En Hu J So B)
      as [acc1 [St [J1 [So1 B1]]]].
    cbn [fold_left]. rewrite St.
    apply IH; try assumption. pose proof (fits_length text n Fn). lia.
Qed.

(** X7.  For spans that stand in the text where the registry says (a fresh
    span's text at its offset, a marker at the offset of a span seen before)
    and of which each ends where the next starts or before, the entries of
    [state.splitNodes] are in strictly ascending order of their offsets, and
    the texts handed on for them, joined, are the text up to the end of the
    last span: what follows the last span is in no entry. *)
Theorem split_spells_text (text : string) (nodes : list ParsedNode) :
  Forall (fits text) nodes ->
  StronglySorted apart nodes ->
  StronglySorted (fun a b => Split.index a < Split.index b) (splitNodes text nodes)
  /\ String.concat "" (map handedText (splitNodes text nodes))
     = String.substring 0 (lastEnd nodes) text.
Proof.
  intros F S. unfold splitNodes, lastEnd.
  apply Forall_rev in F. apply StronglySorted_rev in S.
  destruct (rev nodes) as [|n l] eqn:R.
  - assert (E : JS.substring text 0 (-1) = "").
    { unfold JS.substring, JS.clamp. cbn. apply SubstringFacts.substring_zero. }
    cbn [fold_left]. rewrite E. cbn. split; [constructor|].
    now rewrite SubstringFacts.substring_zero.
  - cbn [fold_left]. rewrite splitStep_first.
    change (fold_left (splitStep text) l
              (splitStep text ([], Z.of_nat (index n + nodeLength n)) n))
      with (fold_left (splitStep text) (n :: l)
              ([], Z.of_nat (index n + nodeLength n))).
    assert (E0 : Forall (fun m => index m + nodeLength m <= index n + nodeLength n)
                   (n :: l)).
    { constructor; [lia|]. inversion S as [|? ? _ Sn]; subst.
      apply (Forall_impl _ (P := fun b => apart b n)); [|exact Sn].
      intros m Hm. unfold apart in Hm. lia. }
    destruct (splitFold_spells text (index n + nodeLength n) (n :: l) []
                (index n + nodeLength n) F S E0 (le_n _))
      as [acc [p [E [Hp [J [So B]]]]]].
    + cbn. now rewrite Nat.sub_diag, SubstringFacts.substring_zero.
    + constructor.
    + constructor.
    + rewrite E.
      replace 0%Z with (Z.of_nat 0) by reflexivity.
      rewrite SubstringFacts.JS_substring_nat by lia. rewrite Nat.sub_0_r.
      pose proof (SubstringFacts.substring_between text 0 p
                    (index n + nodeLength n) (Nat.le_0_l _) Hp) as Bt.
      rewrite !Nat.sub_0_r in Bt.
      destruct (String.eqb_spec (String.substring 0 p text) "") as [Q|Q].
      * rewrite <- (rev_involutive acc), sortByKey_rev by exact So.
        split; [exact So|]. now rewrite J, <- Bt, Q.
      * assert (P0 : 0 < p).
        { destruct p; [|lia]. elim Q. apply SubstringFacts.substring_zero. }
        set (before := {| Split.index := 0; Split.text := String.substring 0 p text;
                          Split.actualText := None; Split.type := Split.prepText;
                          Split.id := None |}).
        assert (So' : StronglySorted (fun a b => Split.index a < Split.index b)
                        (before :: rev acc)).
        { constructor; [exact So|].
          apply (Forall_impl _ (P := fun e => p <= Split.index e)); [|exact B].
          intros e He. cbn. lia. }
        replace (acc ++ [before]) with (rev (before :: rev acc))
          by (cbn; now rewrite rev_involutive).
        rewrite sortByKey_rev by exact So'.
        split; [exact So'|]. cbn [map].
        now rewrite SubstringFacts.concat_cons, J, <- Bt.
Qed.

Lemma split_spells_text_witness :
  String.concat ""
    (map handedText
       (splitNodes "at ? we meet, 13:30 sharp"
          [rendered 14 3 "5pm"; mkNode 0 "13:30" true false None false 14
                                  (CatalogPattern 18)]))
  = "at ? we meet, 13:30".
Proof.
  apply (split_spells_text "at ? we meet, 13:30 sharp"
           [rendered 14 3 "5pm"; mkNode 0 "13:30" true false None false 14
                                   (CatalogPattern 18)]).
  - constructor; [reflexivity|]. constructor; [|constructor].
    split; [discriminate | reflexivity].
  - repeat constructor.
Defined.

(* ------------------------------------------------------------------ *)
(** ** The conversion branch of [parse], called again *)

Lemma find_first (p : ParsedNode -> bool) (f : ParsedNode -> ParsedNode)
    (l : list ParsedNode) (x : ParsedNode) :
  find p l = Some x ->
  exists before after,
    l = before ++ x :: after
    /\ Forall (fun y => p y = false) before
    /\ p x = true
    /\ updateFirst p f l = before ++ f x :: after.
Proof.
  induction l as [|y l IH]; simpl; [discriminate|].
  destruct (p y) eqn:P.
  - intros [= ->]. exists [], l. repeat split; [constructor | exact P].
  - intros H. destruct (IH H) as [before [after [-> [F [Px U]]]]].
    exists (y :: before), after. repeat split; [now constructor | exact Px|].
    simpl. now rewrite U.
Qed.

Lemma find_skips {A : Type} (p : A -> bool) (before after : list A) (x : A) :
  Forall (fun y => p y = false) before -> p x = true ->
  find p (before ++ x :: after) = Some x.
Proof.
  induction 1 as [|y l Hy _ IH]; intros Px; simpl.
  - now rewrite Px.
  - rewrite Hy. now apply IH.
Qed.

Lemma updateFirst_skips (p : ParsedNode -> bool) (f : ParsedNode -> ParsedNode)
    (before after : list ParsedNode) (x : ParsedNode) :
  Forall (fun y => p y = false) before -> p x = true ->
  updateFirst p f (before ++ x :: after) = before ++ f x :: after.
Proof.
  induction 1 as [|y l Hy _ IH]; intros Px; simpl.
  - now rewrite Px.
  - rewrite Hy. now rewrite IH.
Qed.

Lemma find_none_all {A : Type} (p : A -> bool) (l : list A) :
  find p l = None -> Forall (fun y => p y = false) l.
Proof.
  induction l as [|y l IH]; simpl; [constructor|].
  destruct (p y) eqn:P; [discriminate|]. intros H. constructor; [exact P | now apply IH].
Qed.

(** X8.  The conversion branch of [validTime.parse] touches one span, the
    first that holds [state.matchId], and nothing else of the registry; when
    no span holds it the registry is left as it is and the empty array is
    returned.  Called again with the same [matchId] it leaves the registry as
    the first call left it, and answers with the same span: the same id and
    offset, and as text the text the first call stored in the span. *)
Theorem parse_converts_first_holder {Moment : Type}
    (momentStrict : option string -> string -> Moment)
    (momentLenient : option string -> Moment) (isValid : Moment -> bool)
    (match0 match1 : string) (matchId : option Z) (nodes : list ParsedNode) :
  let first := parseValidTime momentStrict momentLenient isValid
                 match0 matchId nodes in
  let again := parseValidTime momentStrict momentLenient isValid
                 match1 matchId (snd first) in
  ((fst first = None /\ snd first = nodes
    /\ forall m, matchId = Some m -> Forall (fun n => id n <> m) nodes)
   \/ (exists before node after,
         matchId = Some (id node)
         /\ nodes = before ++ node :: after
         /\ Forall (fun n => id n <> id node) before
         /\ snd first = before ++ convert node (displayedText node) :: after
         /\ fst first
            = Some {| originalMatch := match0; vtId := id node;
                      vtIndex := index node;
                      timestamp :=
                        {| text := displayedText node;
                           parsed := parseHumanTime momentStrict momentLenient
                                       isValid (displayedText node) |} |}
         /\ fst again
            = Some {| originalMatch := match1; vtId := id node;
                      vtIndex := index node;
                      timestamp :=
                        {| text := Some (originalText
                                           (convert node (displayedText node)));
                           parsed := parseHumanTime momentStrict momentLenient
                                       isValid
                                       (Some (originalText
                                                (convert node (displayedText node)))) |} |}))
  /\ snd again = snd first.
Proof.
  cbv zeta. unfold parseValidTime.
  set (sameId := fun n : ParsedNode =>
                   match matchId with Some m => Z.eqb (id n) m | None => false end).
  destruct (find sameId nodes) as [node|] eqn:Fd.
  - destruct (find_first sameId (fun n => convert n (displayedText node)) nodes node Fd)
      as [before [after [E [Fb [Pn U]]]]].
    assert (Mid : matchId = Some (id node)).
    { unfold sameId in Pn. destruct matchId as [m|]; [|discriminate].
      apply Z.eqb_eq in Pn. now rewrite Pn. }
    assert (Pc : sameId (convert node (displayedText node)) = true) by exact Pn.
    cbn [fst snd]. fold (displayedText node). rewrite U.
    rewrite (find_skips sameId before after _ Fb Pc). cbn [fst snd].
    rewrite (updateFirst_skips sameId _ before after _ Fb Pc).
    split; [right | reflexivity].
    exists before, node, after. repeat split; try assumption; try reflexivity.
    apply (Forall_impl _ (P := fun y => sameId y = false)); [|exact Fb].
    intros y Hy Q. unfold sameId in Hy. rewrite Mid, Q, Z.eqb_refl in Hy.
    discriminate Hy.
  - cbn [fst snd]. rewrite Fd. cbn [fst snd]. split; [left | reflexivity].
    repeat split. intros m ->.
    apply (Forall_impl _ (P := fun y => sameId y = false));
      [|now apply find_none_all].
    intros y Hy Q. unfold sameId in Hy. rewrite Q, Z.eqb_refl in Hy.
    discriminate Hy.
Qed.

(** X9.  Spans are told apart by the clock alone.  When the clock does not
    advance while a message is scanned, every span of the message has the
    same id, so for every [prepValidTime] entry of the whole-string pass the
    conversion branch of [parse] answers with the first span of the
    registry, its offset and its text, whichever span the entry was pushed
    for and whichever spans were converted before. *)
Theorem stopped_clock_resolves_first {Moment : Type}
    (momentStrict : option string -> string -> Moment)
    (momentLenient : option string -> Moment) (isValid : Moment -> bool)
    (now : nat -> Z) (t : Z) (text : string) (w : world) :
  (forall k, now k = t) ->
  clearOfMarkers text (parsedNodes w) ->
  exists out w1,
    matchWholeString now text w = Ok (out, w1)
    /\ forall entries e match0 held,
         out = Some entries -> In e entries ->
         Split.type e = Split.prepValidTime ->
         Forall2 (fun a b => b = a \/ b = convert a (displayedText a))
                 (parsedNodes w1) held ->
         exists first rest,
           parsedNodes w1 = first :: rest
           /\ fst (parseValidTime momentStrict momentLenient isValid
                     match0 (Split.id e) held)
              = Some {| originalMatch := match0; vtId := t;
                        vtIndex := index first;
                        timestamp :=
                          {| text := Some (originalText first);
                             parsed := parseHumanTime momentStrict momentLenient
                                         isValid (Some (originalText first)) |} |}.
Proof.
  intros Clock C.
  destruct (matchWhole_from_clear now text w C)
    as [w0 [_ [[L [_ Ids]] [[_ E]|[Ne E]]]]];
    rewrite E; eexists; eexists; (split; [reflexivity|]);
    intros entries e match0 held Out He Ty Hd; [discriminate Out|].
  injection Out as <-. cbn [parsedNodes] in Hd |- *.
  destruct (splitNodes_spans text (parsedNodes w0)) as [Sp _].
  destruct (Sp e He) as [[n [Hn ->]]|Ty']; [|rewrite Ty' in Ty; discriminate Ty].
  assert (Idn : id n = t).
  { destruct (proj1 (Forall_forall _ _) Ids n Hn) as [k ->]. apply Clock. }
  destruct (parsedNodes w0) as [|n0 l0]; [now elim Ne|].
  assert (Id0 : id n0 = t).
  { destruct (proj1 (Forall_forall _ _) Ids n0 (or_introl eq_refl)) as [k ->].
    apply Clock. }
  assert (Ex0 : isExtension n0 = false).
  { inversion L as [|? ? Ln _]; subst. apply Ln. }
  exists (markSeen n0), (map markSeen l0). split; [reflexivity|].
  cbn [map] in Hd. destruct held as [|h hs]; [inversion Hd|].
  apply Forall2_cons_iff in Hd as [Hh _].
  unfold parseValidTime. cbn [spanEntry Split.id]. rewrite Idn.
  assert (Props : id h = id n0 /\ isExtension h = false
                  /\ index h = index n0 /\ originalText h = originalText n0).
  { destruct Hh as [->| ->]; [now repeat split|].
    unfold displayedText. cbn. rewrite Ex0. now repeat split. }
  destruct Props as [Ph [Pe [Pi Po]]].
  cbn [find]. rewrite Ph, Id0, Z.eqb_refl. cbn [fst].
  now rewrite Pe, Pi, Po, Ph, Id0.
Qed.

Lemma stopped_clock_resolves_first_witness :
  exists out w1,
    matchWholeString stoppedClock "5pm and 13:30"
      {| parsedNodes := []; clockReads := 0 |} = Ok (out, w1)
    /\ forall entries e match0 held,
         out = Some entries -> In e entries ->
         Split.type e = Split.prepValidTime ->
         Forall2 (fun a b => b = a \/ b = convert a (displayedText a))
                 (parsedNodes w1) held ->
         exists first rest,
           parsedNodes w1 = first :: rest
           /\ fst (parseValidTime (fun _ _ => tt) (fun _ => tt) (fun _ => true)
                     match0 (Split.id e) held)
              = Some {| originalMatch := match0; vtId := 0%Z;
                        vtIndex := index first;
                        timestamp :=
                          {| text := Some (originalText first);
                             parsed := parseHumanTime (fun _ _ => tt) (fun _ => tt)
                                         (fun _ => true)
                                         (Some (originalText first)) |} |}.
Proof.
  apply (stopped_clock_resolves_first (fun _ _ => tt) (fun _ => tt) (fun _ => true)
           stoppedClock 0%Z "5pm and 13:30"
           {| parsedNodes := []; clockReads := 0 |}).
  - reflexivity.
  - intros n [].
Defined.

(* ------------------------------------------------------------------ *)
(** ** What the nested pass answers for *)

(** X6.  The nested branch of [validTime.match] answers only for a text
    that is, character for character, the text of a held span not yet
    converted, and it never alters, adds or drops a held node.  When every
    held span is converted or has another text it returns [null] without
    calling [exec]: the registry and every [lastIndex] stay as they are. *)
Theorem nested_match_contract (subject : string) (held : list (ParsedNode * nat)) :
  (forall res held',
      nestedMatch subject held = Ok (res, held') ->
      map fst held' = map fst held
      /\ forall m, res = Some m ->
           exists n, In n (map fst held)
                     /\ converted n = false /\ originalText n = subject)
  /\ ((forall n, In n (map fst held) ->
                 converted n = true \/ originalText n <> subject) ->
      nestedMatch subject held = Ok (None, held)).
Proof.
  split; [intros res held'; apply nestedMatch_nodes|].
  induction held as [|[node li] held IH]; intros H; [reflexivity|].
  cbn [nestedMatch].
  assert (R : nestedMatch subject held = Ok (None, held)).
  { apply IH. intros n Hn. apply H. now right. }
  destruct (H node (or_introl eq_refl)) as [Cv|Ne].
  - rewrite Cv, R. reflexivity.
  - destruct (converted node); [now rewrite R|].
    destruct (String.eqb_spec subject (originalText node)) as [Q|_];
      [now elim Ne|].
    cbn [negb]. now rewrite R.
Qed.

Lemma nested_match_contract_witness :
  nestedMatch "13:30" [(rendered 18 8 "13:30", 0); (rendered 14 0 "5pm", 0)]
  = Ok (None, [(rendered 18 8 "13:30", 0); (rendered 14 0 "5pm", 0)]).
Proof.
  apply (nested_match_contract "13:30"
           [(rendered 18 8 "13:30", 0); (rendered 14 0 "5pm", 0)]).
  intros n [<-|[<-|[]]]; [now left | right; discriminate].
Defined.

(* ------------------------------------------------------------------ *)
(** ** When [addNode] throws *)

Lemma findLonger_fails (node : ParsedNode) (l : list ParsedNode) (e : failure) :
  findLonger node l = Fail e ->
  e = TypeError
  /\ (comparedText node = None \/ exists n, In n l /\ comparedText n = None).
Proof.
  induction l as [|n l IH]; simpl; [discriminate|].
  unfold isLonger.
  destruct (comparedText n) as [o|] eqn:Cn.
  - destruct (comparedText node) as [t|] eqn:Cw; simpl.
    + destruct (String.length t <? String.length o); [discriminate|].
      intros H. destruct (IH H) as [-> [X|[m [Hm Cm]]]]; [discriminate X|].
      split; [reflexivity|]. right. exists m. split; [now right | exact Cm].
    + intros [= <-]. split; [reflexivity | now left].
  - simpl. intros [= <-]. split; [reflexivity|]. right. exists n.
    split; [now left | exact Cn].
Qed.

(** X10.  [addNode] throws only a [TypeError], and only when the text it
    compares is [undefined] (an extension without [extendedText]) for the
    new node or for a held node in its range.  A new node with such a text
    makes it throw as soon as one held node is in its range; with no held
    node in its range nothing is compared, and the node is added, whatever
    its fields. *)
Theorem addNode_throws (node : ParsedNode) (arr : list ParsedNode) :
  let range :=
    getIntersectingNodes (index node) (String.length (originalText node)) arr in
  (forall e, addNode node arr = Fail e ->
             e = TypeError
             /\ (comparedText node = None
                 \/ exists n, In n range /\ comparedText n = None))
  /\ (comparedText node = None -> range <> [] ->
      addNode node arr = Fail TypeError)
  /\ (range = [] ->
      addNode node arr = Ok (sortByKey index (filter (keep node) arr ++ [node]))).
Proof.
  cbv zeta. rewrite addNode_unfold.
  set (range := getIntersectingNodes _ _ arr). split; [|split].
  - intros e H.
    destruct (findLonger node range) as [[m|]|e'] eqn:F; simpl in H;
      try discriminate H.
    injection H as ->. exact (findLonger_fails node range e F).
  - intros C Ne. destruct range as [|n l]; [now elim Ne|].
    simpl. unfold isLonger. rewrite C. now destruct (comparedText n).
  - intros ->. reflexivity.
Qed.

Lemma addNode_throws_witness :
  addNode (mkNode 0 "13:30" true true None false 0 (CatalogPattern 18))
          [scanned 16 0 "13:30:45"]
  = Fail TypeError.
Proof.
  apply (addNode_throws (mkNode 0 "13:30" true true None false 0 (CatalogPattern 18))
           [scanned 16 0 "13:30:45"]).
  - reflexivity.
  - discriminate.
Defined.

(* ------------------------------------------------------------------ *)
(** ** No text of the engine holds a dollar sign *)

Lemma plainText_append (a b : string) :
  plainText (a ++ b) = plainText a && plainText b.
Proof.
  induction a as [|c a IH]; simpl; [reflexivity|].
  now rewrite IH, andb_assoc.
Qed.

Lemma plainText_substring (s : string) :
  plainText s = true -> forall n m, plainText (String.substring n m s) = true.
Proof.
  induction s as [|c s IH]; intros H n m.
  - destruct n, m; reflexivity.
  - simpl in H. apply andb_true_iff in H as [Hc Hs].
    destruct n as [|n]; [|simpl; now apply IH].
    destruct m as [|m]; [reflexivity|]. simpl. rewrite Hc. now apply IH.
Qed.

Lemma replace_plain (s pat rep : string) :
  plainText s = true -> plainText rep = true ->
  plainText (JS.replace s pat rep) = true.
Proof.
  intros Hs Hr. unfold JS.replace.
  destruct (String.index 0 pat s) as [i|]; [|exact Hs]. cbv zeta.
  rewrite (expand_plain _ _ _ _ Hr), !plainText_append, Hr.
  now rewrite !plainText_substring.
Qed.

(** What an expression consumes is made of characters it accepts. *)
Lemma run_plain (r : RegExp.regex) :
  takes r "$"%char = false ->
  forall s k x,
    RegExp.run r s k = Some x ->
    exists pre rest,
      s = (pre ++ rest)%string /\ k rest = Some x /\ plainText pre = true.
Proof.
  induction r as [|c| |ranges|r1 IH1 r2 IH2|r1 IH1 r2 IH2|r1 IH1];
    intros T s k x H; cbn [RegExp.run] in H; cbn [takes] in T.
  - exists EmptyString, s. now repeat split.
  - destruct s as [|y s]; [discriminate|].
    destruct (Ascii.eqb y c) eqn:E; [|discriminate].
    apply Ascii.eqb_eq in E; subst y.
    exists (String c EmptyString), s. repeat split; [exact H|].
    cbn [plainText]. rewrite Ascii.eqb_sym, T. reflexivity.
  - destruct s as [|y s]; [discriminate|].
    destruct (RegExp.isDigit y) eqn:E; [|discriminate].
    exists (String y EmptyString), s. repeat split; [exact H|].
    cbn [plainText]. destruct (Ascii.eqb_spec y "$"%char) as [->|_];
      [congruence | reflexivity].
  - destruct s as [|y s]; [discriminate|].
    destruct (existsb (RegExp.inRange y) ranges) eqn:E; [|discriminate].
    exists (String y EmptyString), s. repeat split; [exact H|].
    cbn [plainText]. destruct (Ascii.eqb_spec y "$"%char) as [->|_];
      [congruence | reflexivity].
  - apply orb_false_iff in T as [T1 T2].
    apply (IH1 T1) in H as [p1 [s1 [E1 [H1 P1]]]].
    apply (IH2 T2) in H1 as [p2 [s2 [E2 [H2 P2]]]].
    exists (p1 ++ p2)%string, s2. subst. repeat split.
    + symmetry. apply RegExpFacts.append_assoc.
    + assumption.
    + now rewrite plainText_append, P1, P2.
  - apply orb_false_iff in T as [T1 T2].
    destruct (RegExp.run r1 s k) eqn:R1.
    + injection H as <-. now apply (IH1 T1) in R1.
    + now apply (IH2 T2) in H.
  - destruct (RegExp.run r1 s k) eqn:R1.
    + injection H as <-. now apply (IH1 T) in R1.
    + exists EmptyString, s. now repeat split.
Qed.

Lemma matchAt_plain (r : RegExp.regex) (s : string) (n : nat) :
  takes r "$"%char = false ->
  RegExp.matchAt r s = Some n ->
  plainText (String.substring 0 n s) = true.
Proof.
  intros T H. unfold RegExp.matchAt in H.
  apply (run_plain r T) in H as [pre [rest [E [K P]]]].
  injection K as K. subst s. rewrite RegExpFacts.append_length in K.
  replace n with (String.length pre) by lia.
  now rewrite RegExpFacts.substring_prefix.
Qed.

Lemma execAll_plain (r : RegExp.regex) :
  takes r "$"%char = false ->
  forall s i skip m, In m (execAll r s i skip) -> plainText (snd m) = true.
Proof.
  intros T. induction s as [|c s IH]; intros i skip m H.
  - destruct skip; simpl in H; [|contradiction].
    destruct (RegExp.matchAt r "") as [[|n]|] eqn:M; try contradiction.
    destruct H as [<-|[]]. now apply (matchAt_plain r "" (S n) T).
  - destruct skip; simpl in H; [|now apply IH in H].
    destruct (RegExp.matchAt r (String c s)) as [[|n]|] eqn:M.
    + contradiction.
    + destruct H as [<-|H]; [|now apply IH in H].
      now apply (matchAt_plain r (String c s) (S n) T).
    + now apply IH in H.
Qed.

Lemma known_sources_avoid_dollar : forallb avoidsDollar knownSources = true.
Proof. vm_compute. reflexivity. Qed.

Lemma known_format_plain (f : RegExpObject) (r : RegExp.regex) :
  knownFormat f = true -> RegExp.compile (source f) = Some r ->
  takes r "$"%char = false.
Proof.
  intros K C. apply knownFormat_source in K.
  pose proof (proj1 (forallb_forall _ _) known_sources_avoid_dollar _ K) as A.
  unfold avoidsDollar in A. rewrite C in A. now apply negb_true_iff.
Qed.

Lemma addNode_engine_plain (node : ParsedNode) (arr : list ParsedNode) :
  engineNode node /\ plainNode node ->
  Forall (fun n => engineNode n /\ plainNode n) arr ->
  exists res,
    addNode node arr = Ok res /\ Forall (fun n => engineNode n /\ plainNode n) res.
Proof.
  intros Hn Ha.
  destruct (addNode_engine node arr) as [res [E _]]; [apply Hn | |].
  - eapply Forall_impl; [|exact Ha]. now intros n [En _].
  - exists res. split; [exact E|].
    now apply (addNode_Forall (fun n => engineNode n /\ plainNode n) _ _ _ E).
Qed.

(** The texts of the engine's nodes hold no dollar sign: a pass over a
    registry of such nodes leaves such a registry, and so does the
    conversion done by [parse].  The registry of a session is empty at
    first, so the texts put back for the marker always stand for
    themselves. *)
Lemma session_texts_plain (now : nat -> Z) (text : string) (w : world) :
  Forall (fun n => engineNode n /\ plainNode n) (parsedNodes w) ->
  (exists w1,
      findTimesInOriginalSource now text w = Ok w1
      /\ Forall (fun n => engineNode n /\ plainNode n) (parsedNodes w1))
  /\ (exists out w1,
        matchWholeString now text w = Ok (out, w1)
        /\ Forall (fun n => engineNode n /\ plainNode n) (parsedNodes w1))
  /\ (forall (Moment : Type) strict lenient (valid : Moment -> bool) match0 matchId,
        Forall (fun n => engineNode n /\ plainNode n)
          (snd (parseValidTime strict lenient valid match0 matchId (parsedNodes w)))).
Proof.
  intros I.
  set (Inv := fun st : world =>
                Forall (fun n => engineNode n /\ plainNode n) (parsedNodes st)).
  assert (Kept : forall n, In n (filter (atPlaceholder text) (parsedNodes w)) ->
                           engineNode n /\ plainNode n).
  { intros n Hn. apply filter_In in Hn as [Hn _].
    now apply (proj1 (Forall_forall _ _) I). }
  assert (Pass : exists w1, findTimesInOriginalSource now text w = Ok w1 /\ Inv w1).
  { unfold findTimesInOriginalSource, widen, scan.
    destruct (placeholder_pass text (parsedNodes w)) as [R P]. rewrite R, P.
    destruct (forEach_inv Inv (scanPattern now text) patterns) with
      (st := {| parsedNodes := filter (atPlaceholder text) (parsedNodes w);
                clockReads := clockReads w |}) as [w1 [E1 I1]].
    - intros p st Hp Is.
      destruct (catalog_pattern p Hp) as [r [C [N _]]].
      assert (T : takes r "$"%char = false).
      { apply (known_format_plain (CatalogPattern p)); [|exact C].
        simpl. apply Nat.ltb_lt. now apply patterns_range. }
      unfold scanPattern, globalLoop. rewrite C, (execLoop_forEach r _ N).
      revert Is. apply (forEach_inv Inv). intros m st1 Hm I1. unfold scanBody.
      destruct (addNode_engine_plain
                  (freshNode p (fst m) (snd m) (now (clockReads st1)))
                  (parsedNodes st1)) as [res [E Rs]]; [|exact I1|].
      + split; split.
        * intros X. discriminate X.
        * simpl. apply Nat.ltb_lt. now apply patterns_range.
        * simpl. now apply (execAll_plain r T text 0 0 m).
        * intros t X. discriminate X.
      + rewrite E. simpl. eexists. split; [reflexivity | exact Rs].
    - unfold Inv. simpl. apply Forall_forall. exact Kept.
    - rewrite E1. simpl.
      destruct (forEach_inv Inv (widenNode now text)
                  (rev (filter (atPlaceholder text) (parsedNodes w))))
        with (st := w1) as [w2 [E2 I2]]; [|exact I1|].
      + intros node st Hn Is. apply in_rev in Hn.
        destruct (Kept node Hn) as [[Wn Kn] [Pn _]].
        unfold widenNode. revert Is. apply (forEach_inv Inv).
        intros p st0 Hp Is0. unfold widenPattern.
        destruct (sameObject p (format node)); [now exists st0|].
        destruct (extension_usable p node Hp Kn) as [r [C [N K]]].
        assert (T : takes r "$"%char = false).
        { now apply (known_format_plain (GlobalPattern (extensionSource p node))). }
        unfold globalLoop. rewrite C, (execLoop_forEach r _ N).
        revert Is0. apply (forEach_inv Inv). intros m st1 Hm I1'.
        unfold widenBody. destruct (negb (index node =? fst m)); [now exists st1|].
        destruct (addNode_engine_plain
                    (extensionNode (extensionSource p node) node (fst m) (snd m)
                       (now (clockReads st1)))
                    (parsedNodes st1)) as [res [E Rs]]; [|exact I1'|].
        * pose proof (execAll_plain r T text 0 0 m Hm) as Pm.
          split; split.
          -- intros _ X. discriminate X.
          -- exact K.
          -- exact Pm.
          -- simpl. intros t [= <-]. now apply replace_plain.
        * rewrite E. simpl. eexists. split; [reflexivity | exact Rs].
      + rewrite E2. simpl. eexists. split; [reflexivity|].
        unfold Inv. simpl. apply Forall_forall. intros n Hn.
        apply sortByKey_In in Hn. now apply (proj1 (Forall_forall _ _) I2). }
  split; [exact Pass|]. split.
  - unfold matchWholeString. destruct Pass as [w1 [E I1]]. rewrite E. simpl.
    assert (M : Forall (fun n => engineNode n /\ plainNode n)
                  (map markSeen (parsedNodes w1))).
    { apply Forall_forall. intros n Hn. apply in_map_iff in Hn as [m [<- Hm]].
      exact (proj1 (Forall_forall _ _) I1 m Hm). }
    destruct (negb (existsb fresh (parsedNodes w1))).
    + eexists. eexists. split; [reflexivity | exact I1].
    + destruct (splitNodes text (parsedNodes w1));
        eexists; eexists; (split; [reflexivity | exact M]).
  - intros Moment strict lenient valid match0 matchId. unfold parseValidTime.
    destruct (find _ (parsedNodes w)) as [node|] eqn:F; simpl; [|exact I].
    apply find_some in F as [Hin _].
    destruct (proj1 (Forall_forall _ _) I node Hin) as [_ [Po Pe]].
    apply updateFirst_Forall; [|exact I].
    intros n [[_ K] _]. split; [split; [intros X; discriminate X | exact K]|].
    split; [|intros t X; discriminate X]. simpl.
    destruct (isExtension node); [|exact Po].
    destruct (extendedText node) as [t|]; [now apply Pe | reflexivity].
Qed.

(* ------------------------------------------------------------------ *)
(** ** Loops that keep a property, and loops that change nothing *)

Lemma forEach_keeps {A St : Type} (Inv : St -> Prop)
    (body : A -> St -> outcome St) (l : list A) :
  (forall x st st', In x l -> Inv st -> body x st = Ok st' -> Inv st') ->
  forall st st', Inv st -> forEach body l st = Ok st' -> Inv st'.
Proof.
  induction l as [|x l IH]; intros H st st' I E; simpl in E.
  - now injection E as <-.
  - destruct (body x st) as [st1|e] eqn:B; [|discriminate E]. simpl in E.
    apply (IH (fun y a b Hy => H y a b (or_intror Hy)) st1 st'); [|exact E].
    now apply (H x st st1 (or_introl eq_refl)).
Qed.

Lemma execLoop_keeps {St : Type} (Inv : St -> Prop) (r : RegExp.regex)
    (body : nat -> string -> St -> outcome St) :
  (forall i t st st', Inv st -> body i t st = Ok st' -> Inv st') ->
  forall s i skip st st',
    Inv st -> execLoop r body s i skip st = Ok st' -> Inv st'.
Proof.
  intros H. induction s as [|c s IH]; intros i skip st st' I E.
  - destruct skip; simpl in E; [|now injection E as <-].
    destruct (RegExp.matchAt r "") as [[|n]|]; try discriminate E.
    + destruct (body i _ st) as [st1|e] eqn:B; [|discriminate E].
      simpl in E. injection E as <-. now apply (H _ _ _ _ I B).
    + now injection E as <-.
  - destruct skip; simpl in E; [|now apply (IH _ _ _ _ I E)].
    destruct (RegExp.matchAt r (String c s)) as [[|n]|]; try discriminate E.
    + destruct (body i _ st) as [st1|e] eqn:B; [|discriminate E].
      simpl in E. apply (IH _ _ _ _ (H _ _ _ _ I B) E).
    + now apply (IH _ _ _ _ I E).
Qed.

Lemma globalLoop_keeps {St : Type} (Inv : St -> Prop) (src : string)
    (body : nat -> string -> St -> outcome St) (s : string) (st st' : St) :
  (forall i t st st', Inv st -> body i t st = Ok st' -> Inv st') ->
  Inv st -> globalLoop src body s st = Ok st' -> Inv st'.
Proof.
  intros H I. unfold globalLoop.
  destruct (RegExp.compile src); [|discriminate]. now apply execLoop_keeps.
Qed.

Lemma forEach_view_in {A St V : Type} (view : St -> V)
    (body : A -> St -> outcome St) (body' : A -> V -> outcome V) (l : list A) :
  (forall x st, In x l -> mapOutcome view (body x st) = body' x (view st)) ->
  forall st, mapOutcome view (forEach body l st) = forEach body' l (view st).
Proof.
  induction l as [|x l IH]; intros H st; simpl; [reflexivity|].
  rewrite <- (H x st (or_introl eq_refl)).
  destruct (body x st) as [st'|e]; simpl; [|reflexivity].
  apply IH. intros y st0 Hy. apply H. now right.
Qed.

Lemma forEach_fixed {A St : Type} (body : A -> St -> outcome St) (l : list A)
    (st : St) :
  (forall x, In x l -> body x st = Ok st) -> forEach body l st = Ok st.
Proof.
  induction l as [|x l IH]; intros H; simpl; [reflexivity|].
  rewrite (H x (or_introl eq_refl)). simpl. apply IH. intros y Hy. apply H.
  now right.
Qed.

Lemma forEach_sticky {A St : Type} (Q : St -> Prop)
    (body : A -> St -> outcome St) (l : list A) :
  (forall x, In x l -> sticky Q (body x)) -> sticky Q (forEach body l).
Proof.
  induction l as [|x l IH]; intros H st st' E; simpl in E.
  - injection E as <-. split; [now left | trivial].
  - destruct (body x st) as [st1|e] eqn:B; [|discriminate E]. simpl in E.
    destruct (H x (or_introl eq_refl) st st1 B) as [C1 K1].
    destruct (IH (fun y Hy => H y (or_intror Hy)) st1 st' E) as [C2 K2].
    split.
    + destruct C2 as [->|Q2]; [exact C1 | now right].
    + intros Qs. auto.
Qed.

(** A loop of sticky steps that does not end in [Q] changed nothing, at
    any of its steps. *)
Lemma forEach_unchanged {A St : Type} (Q : St -> Prop)
    (body : A -> St -> outcome St) (l : list A) :
  (forall x, In x l -> sticky Q (body x)) ->
  forall st st',
    forEach body l st = Ok st' -> ~ Q st' ->
    st' = st /\ forall x, In x l -> body x st = Ok st.
Proof.
  induction l as [|x l IH]; intros H st st' E N; simpl in E.
  - injection E as <-. split; [reflexivity | intros x []].
  - destruct (body x st) as [st1|e] eqn:B; [|discriminate E]. simpl in E.
    destruct (H x (or_introl eq_refl) st st1 B) as [C1 _].
    destruct (forEach_sticky Q body l (fun y Hy => H y (or_intror Hy)) st1 st' E)
      as [_ K2].
    destruct C1 as [->|Q1]; [|now elim N; apply K2].
    destruct (IH (fun y Hy => H y (or_intror Hy)) st st' E N) as [-> Hl].
    split; [reflexivity|]. intros y [<-|Hy]; [exact B | now apply Hl].
Qed.

(* ------------------------------------------------------------------ *)
(** ** Filtering and sorting *)

Section FilterSort.
Variable A : Type.
Variable key : A -> nat.
Variable f : A -> bool.

Lemma filter_insertByKey_sorted (x : A) (l : list A) :
  StronglySorted (byKey key) l ->
  filter f (insertByKey key x l)
  = if f x then insertByKey key x (filter f l) else filter f l.
Proof.
  induction 1 as [|y l Hl IH Hy]; simpl.
  - now destruct (f x).
  - destruct (Nat.ltb_spec (key x) (key y)) as [Lt|Ge].
    + simpl. destruct (f x) eqn:Fx; [|reflexivity].
      symmetry. change (insertByKey key x (filter f (y :: l))
                        = x :: filter f (y :: l)).
      apply insertByKey_before. apply Forall_forall. intros z Hz.
      apply filter_In in Hz as [[<-|Hz] _]; [exact Lt|].
      pose proof (proj1 (Forall_forall _ _) Hy z Hz) as B. unfold byKey in B. lia.
    + simpl. rewrite IH. destruct (f y) eqn:Fy, (f x) eqn:Fx; simpl;
        try reflexivity.
      destruct (Nat.ltb_spec (key x) (key y)); [lia | reflexivity].
Qed.

Lemma filter_sortByKey (l : list A) :
  filter f (sortByKey key l) = sortByKey key (filter f l).
Proof.
  induction l as [|x l IH] using rev_ind; [reflexivity|].
  rewrite sortByKey_snoc, filter_insertByKey_sorted by apply sortByKey_sorted.
  rewrite filter_app, IH. simpl.
  destruct (f x); [now rewrite sortByKey_snoc | now rewrite app_nil_r].
Qed.

Lemma filter_filter_comm (g : A -> bool) (l : list A) :
  filter f (filter g l) = filter g (filter f l).
Proof.
  induction l as [|x l IH]; simpl; [reflexivity|].
  destruct (g x) eqn:G, (f x) eqn:F; simpl; rewrite ?G, ?F, IH; reflexivity.
Qed.

Lemma filter_filter_and (g : A -> bool) (l : list A) :
  filter f (filter g l) = filter (fun x => g x && f x) l.
Proof.
  induction l as [|x l IH]; simpl; [reflexivity|].
  destruct (g x); simpl; [|exact IH].
  destruct (f x); now rewrite IH.
Qed.

Lemma filter_all (l : list A) :
  (forall x, In x l -> f x = true) -> filter f l = l.
Proof.
  induction l as [|x l IH]; intros H; simpl; [reflexivity|].
  rewrite (H x (or_introl eq_refl)). f_equal. apply IH. intros y Hy. apply H.
  now right.
Qed.

End FilterSort.

Arguments filter_insertByKey_sorted {A} key f x l _.
Arguments filter_sortByKey {A} key f l.
Arguments filter_filter_comm {A} f g l.
Arguments filter_filter_and {A} f g l.
Arguments filter_all {A} f l _.

(* ------------------------------------------------------------------ *)
(** ** The whole search with the clock set aside *)

Lemma widenBody_shapes (now : nat -> Z) (src : string) (node : ParsedNode)
    (i : nat) (t : string) (w : world) :
  mapOutcome shapes (widenBody now src node i t w)
  = if negb (index node =? i) then Ok (shapes w)
    else addNode (extensionNode src node i t 0%Z) (shapes w).
Proof.
  unfold widenBody. destruct (negb (index node =? i)); [reflexivity|].
  change (extensionNode src node i t 0%Z)
    with (eraseId (extensionNode src node i t (now (clockReads w)))).
  unfold shapes. rewrite addNode_erase.
  destruct (addNode _ (parsedNodes w)); reflexivity.
Qed.

Lemma widen_shapes (now : nat -> Z) (text : string) (targets : list ParsedNode)
    (w : world) :
  mapOutcome shapes (widen now text targets w)
  = shapeWiden text targets (shapes w).
Proof.
  unfold widen, shapeWiden. apply forEach_view. intros node st.
  unfold widenNode. apply forEach_view. intros p st'.
  unfold widenPattern, shapeWidenPattern.
  destruct (sameObject p (format node)); [reflexivity|]. cbv zeta.
  apply globalLoop_view. intros i t st0. apply widenBody_shapes.
Qed.

(** The shapes [findTimesInOriginalSource] leaves depend on the text and
    on the spans held at a marker, and on nothing else. *)
Lemma pass_shapes (now : nat -> Z) (text : string) (w : world) :
  mapOutcome shapes (findTimesInOriginalSource now text w)
  = shapePass text (filter (atPlaceholder text) (parsedNodes w)).
Proof.
  unfold findTimesInOriginalSource, shapePass.
  destruct (placeholder_pass text (parsedNodes w)) as [R P]. rewrite P.
  pose proof (scan_shapes now text w) as S. rewrite R in S.
  destruct (scan now text w) as [w1|e]; simpl in S; rewrite <- S; simpl;
    [|reflexivity].
  pose proof (widen_shapes now text
                (rev (filter (atPlaceholder text) (parsedNodes w))) w1) as W.
  destruct (widen now text _ w1) as [w2|e]; simpl in W; rewrite <- W; simpl;
    [|reflexivity].
  unfold shapes. simpl. f_equal. symmetry. now apply sortByKey_map.
Qed.

Lemma filter_idem {A : Type} (f : A -> bool) (l : list A) :
  filter f (filter f l) = filter f l.
Proof.
  apply filter_all. intros x Hx. now apply filter_In in Hx.
Qed.

(** The search reads the spans held at a marker, and no other held span. *)
Lemma pass_kept (now : nat -> Z) (text : string) (w : world) :
  findTimesInOriginalSource now text w
  = findTimesInOriginalSource now text
      {| parsedNodes := filter (atPlaceholder text) (parsedNodes w);
         clockReads := clockReads w |}.
Proof.
  unfold findTimesInOriginalSource, scan. cbn [parsedNodes clockReads].
  destruct (placeholder_pass text (parsedNodes w)) as [R P].
  destruct (placeholder_pass text (filter (atPlaceholder text) (parsedNodes w)))
    as [R' P'].
  now rewrite R, P, R', P', filter_idem.
Qed.

(* ------------------------------------------------------------------ *)
(** ** The scan takes no notice of seen spans it does not hold *)

Lemma getIntersectingNodes_filter (g : ParsedNode -> bool) (i l : nat)
    (arr : list ParsedNode) :
  getIntersectingNodes i l (filter g arr)
  = filter g (getIntersectingNodes i l arr).
Proof. unfold getIntersectingNodes. apply filter_filter_comm. Qed.

Lemma findLonger_filter (g : ParsedNode -> bool) (x : ParsedNode)
    (l : list ParsedNode) :
  (forall n, In n l -> g n = false -> isLonger x n = Ok false) ->
  findLonger x (filter g l) = findLonger x l.
Proof.
  induction l as [|n l IH]; intros H; simpl; [reflexivity|].
  assert (IH' : findLonger x (filter g l) = findLonger x l).
  { apply IH. intros m Hm. apply H. now right. }
  destruct (g n) eqn:G; simpl.
  - destruct (isLonger x n) as [[|]|]; simpl; [reflexivity | exact IH' | reflexivity].
  - rewrite (H n (or_introl eq_refl) G). simpl. exact IH'.
Qed.

(** A seen span is never longer than a fresh candidate with a text. *)
Lemma seen_not_longer (x n : ParsedNode) (t : string) :
  comparedText x = Some t -> 1 <= String.length t -> fresh n = false ->
  isLonger x n = Ok false.
Proof.
  intros C L F. unfold isLonger. rewrite C. unfold comparedText. rewrite F.
  f_equal. apply Nat.ltb_ge. exact L.
Qed.

Lemma addNode_filter (g : ParsedNode -> bool) (x : ParsedNode) (t : string)
    (st : list ParsedNode) :
  (forall n, fresh n = true -> g n = true) ->
  fresh x = true -> comparedText x = Some t -> 1 <= String.length t ->
  mapOutcome (filter g) (addNode x st) = addNode x (filter g st).
Proof.
  intros G Fx C L. rewrite !addNode_unfold.
  rewrite getIntersectingNodes_filter, findLonger_filter.
  - destruct (findLonger x _) as [[m|]|]; simpl; try reflexivity.
    f_equal. rewrite filter_sortByKey, filter_app. simpl.
    rewrite (G x Fx). now rewrite filter_filter_comm.
  - intros n _ Gn. apply (seen_not_longer x n t C L).
    destruct (fresh n) eqn:Fn; [|reflexivity]. rewrite (G n Fn) in Gn.
    discriminate Gn.
Qed.

Lemma execAll_nonempty (r : RegExp.regex) (s : string) (i skip : nat)
    (m : nat * string) :
  In m (execAll r s i skip) -> 1 <= String.length (snd m).
Proof.
  intros H. apply execAll_starts in H as [c [rest [E _]]]. rewrite E. simpl. lia.
Qed.

(** Dropping seen spans from the registry before the scan, or after it,
    comes to the same. *)
Lemma shapeScan_filter (text : string) (g : ParsedNode -> bool)
    (sh : list ParsedNode) :
  (forall n, fresh n = true -> g n = true) ->
  mapOutcome (filter g) (shapeScan text sh) = shapeScan text (filter g sh).
Proof.
  intros G. unfold shapeScan. apply forEach_view_in. intros p st Hp.
  destruct (catalog_pattern p Hp) as [r [C [N _]]].
  unfold globalLoop. rewrite C, !(execLoop_forEach r _ N).
  apply forEach_view_in. intros m st' Hm.
  apply (addNode_filter g _ (snd m)); try reflexivity; [exact G|].
  now apply execAll_nonempty in Hm.
Qed.

(** What the scan leaves of a sorted registry: spans it held, in the order
    they had, and spans the scan built. *)
Lemma shapeScan_leaves (text : string) (sh res : list ParsedNode) :
  StronglySorted (byKey index) sh ->
  shapeScan text sh = Ok res ->
  Forall (fun n => In n sh \/ scanShaped text n) res
  /\ exists h, filter (fun n => negb (fresh n)) res = filter h sh.
Proof.
  intros Sorted.
  set (Inv := fun st : list ParsedNode =>
                Forall (fun n => In n sh \/ scanShaped text n) st
                /\ exists h, filter (fun n => negb (fresh n)) st = filter h sh).
  assert (I0 : Inv sh).
  { split; [apply Forall_forall; now left|].
    now exists (fun n => negb (fresh n)). }
  revert I0. unfold shapeScan. apply (forEach_keeps Inv). clear res.
  intros p st st' Hp I E.
  destruct (catalog_pattern p Hp) as [r [C [N F]]].
  unfold globalLoop in E. rewrite C, (execLoop_forEach r _ N) in E.
  revert I E. apply (forEach_keeps Inv). clear st st'.
  intros m st st' Hm [Fa [h Hh]] E.
  pose proof (scanned_clear text r p m F Hm) as Sc.
  split.
  - apply (addNode_Forall _ _ _ _ E); [now right | exact Fa].
  - destruct (addNode_cases _ _ _ E) as [->| ->]; [now exists h|].
    exists (fun n => h n && keep (scanned p (fst m) (snd m)) n).
    rewrite filter_sortByKey, filter_app. simpl. rewrite app_nil_r.
    rewrite filter_filter_comm, Hh, filter_filter_and.
    apply sortByKey_sorted_id. now apply StronglySorted_filter.
Qed.

(* ------------------------------------------------------------------ *)
(** ** A widening that accepts no extension changes nothing *)

Lemma sticky_skip {St : Type} (Q : St -> Prop) : sticky Q (fun st : St => Ok st).
Proof. intros st st' [= <-]. split; [now left | trivial]. Qed.

Lemma addNode_extension_sticky (x : ParsedNode) :
  fresh x = true -> isExtension x = true -> sticky holdsExtension (addNode x).
Proof.
  intros Fx Ex st st' E.
  destruct (addNode_cases _ _ _ E) as [->| ->]; [split; [now left | trivial]|].
  assert (Q : holdsExtension (sortByKey index (filter (keep x) st ++ [x]))).
  { exists x. split; [|now split]. apply sortByKey_In, in_app_iff. right. now left. }
  split; [now right | intros _; exact Q].
Qed.

Lemma shapeWidenPattern_sticky (text : string) (node : ParsedNode) (p : nat) :
  In p patterns -> knownFormat (format node) = true ->
  sticky holdsExtension (shapeWidenPattern text node p).
Proof.
  intros Hp Kn. unfold shapeWidenPattern.
  destruct (sameObject p (format node)); [apply sticky_skip|]. cbv zeta.
  destruct (extension_usable p node Hp Kn) as [r [C [N _]]].
  unfold globalLoop. rewrite C. intros st st' E.
  rewrite (execLoop_forEach r _ N) in E. revert st st' E.
  apply forEach_sticky. intros m _.
  destruct (negb (index node =? fst m)); [apply sticky_skip|].
  now apply addNode_extension_sticky.
Qed.

Lemma shapeWiden_unchanged (text : string) (targets sh sh' : list ParsedNode) :
  Forall (fun n => knownFormat (format n) = true) targets ->
  shapeWiden text targets sh = Ok sh' ->
  ~ holdsExtension sh' ->
  sh' = sh
  /\ forall node, In node targets ->
       forEach (shapeWidenPattern text node) patterns sh = Ok sh.
Proof.
  intros K. unfold shapeWiden. apply forEach_unchanged.
  intros node Hn. apply forEach_sticky. intros p Hp.
  apply shapeWidenPattern_sticky; [exact Hp|].
  exact (proj1 (Forall_forall _ _) K node Hn).
Qed.

(* ------------------------------------------------------------------ *)
(** ** Where the held spans come from, and their ids *)

Lemma NoDup_map_filter {A B : Type} (f : A -> B) (g : A -> bool) (l : list A) :
  NoDup (map f l) -> NoDup (map f (filter g l)).
Proof.
  induction l as [|x l IH]; simpl; intros H; [constructor|].
  inversion H as [|? ? Hx Hl]; subst.
  destruct (g x); simpl; [|now apply IH].
  constructor; [|now apply IH]. intros X. apply Hx.
  apply in_map_iff in X as [y [E Hy]]. apply filter_In in Hy as [Hy _].
  apply in_map_iff. now exists y.
Qed.

Section Origin.
Variable now : nat -> Z.
Variable kept : list ParsedNode.
Variable from : nat.

Lemma origin_step (x : ParsedNode) (st : world) (res : list ParsedNode) :
  traced now kept from st -> fresh x = true -> id x = now (clockReads st) ->
  addNode x (parsedNodes st) = Ok res ->
  traced now kept from {| parsedNodes := res; clockReads := S (clockReads st) |}.
Proof.
  intros [Le [Fa Nd]] Fx Ix E. unfold traced, origin in *.
  cbn [parsedNodes clockReads].
  split; [lia|]. split.
  - apply (addNode_Forall _ _ _ _ E).
    + right. split; [exact Fx|]. exists (clockReads st). split; [lia | exact Ix].
    + eapply Forall_impl; [|exact Fa].
      intros n [H|[Fn [k [Hk Ik]]]]; [now left|].
      right. split; [exact Fn|]. exists k. split; [lia | exact Ik].
  - intros U. specialize (Nd U).
    destruct (addNode_cases _ _ _ E) as [->| ->]; [exact Nd|].
    apply (Permutation_NoDup
             (l := map id (x :: filter (keep x) (parsedNodes st)))).
    + apply Permutation_map. apply Permutation_sym.
      eapply perm_trans; [apply sortByKey_perm|].
      apply Permutation_sym, Permutation_cons_append.
    + cbn [map]. constructor; [|now apply NoDup_map_filter].
      intros X. apply in_map_iff in X as [n [En Hn]].
      apply filter_In in Hn as [Hn _].
      destruct U as [_ [U2 U3]].
      destruct (proj1 (Forall_forall _ _) Fa n Hn) as [Hk|[_ [k [Hk Ik]]]].
      * apply (U2 n (clockReads st) Hk Le). congruence.
      * assert (k = clockReads st) by (apply U3; [lia | lia | congruence]). lia.
Qed.

Lemma scanBody_traced (p i : nat) (t : string) (st st' : world) :
  traced now kept from st -> scanBody now p i t st = Ok st' -> traced now kept from st'.
Proof.
  intros T E. unfold scanBody in E.
  destruct (addNode _ (parsedNodes st)) as [res|e] eqn:A; [|discriminate E].
  simpl in E. injection E as <-.
  now apply (origin_step (freshNode p i t (now (clockReads st))) st res T).
Qed.

Lemma widenBody_traced (src : string) (node : ParsedNode) (i : nat) (t : string)
    (st st' : world) :
  traced now kept from st -> widenBody now src node i t st = Ok st' -> traced now kept from st'.
Proof.
  intros T E. unfold widenBody in E.
  destruct (negb (index node =? i)); [now injection E as <-|].
  destruct (addNode _ (parsedNodes st)) as [res|e] eqn:A; [|discriminate E].
  simpl in E. injection E as <-.
  now apply (origin_step (extensionNode src node i t (now (clockReads st)))
               st res T).
Qed.

Lemma search_traced (text : string) (targets : list ParsedNode) (st w0 : world) :
  traced now kept from st ->
  (w1 <- forEach (scanPattern now text) patterns st ;;
   w2 <- widen now text targets w1 ;;
   Ok {| parsedNodes := sortByKey index (parsedNodes w2);
         clockReads := clockReads w2 |}) = Ok w0 ->
  traced now kept from w0.
Proof.
  intros T E.
  destruct (forEach (scanPattern now text) patterns st) as [w1|e] eqn:S;
    [|discriminate E]. simpl in E.
  destruct (widen now text targets w1) as [w2|e] eqn:W; [|discriminate E].
  simpl in E. injection E as <-.
  assert (T1 : traced now kept from w1).
  { revert T S. apply (forEach_keeps (traced now kept from)). intros p a b _ Ta.
    unfold scanPattern. apply globalLoop_keeps; [|exact Ta].
    intros i t c d. apply scanBody_traced. }
  assert (T2 : traced now kept from w2).
  { revert T1 W. unfold widen. apply (forEach_keeps (traced now kept from)). intros node a b _.
    unfold widenNode. apply (forEach_keeps (traced now kept from)). intros p c d _ Tc.
    unfold widenPattern. destruct (sameObject p (format node));
      [now intros [= <-]|].
    cbv zeta. apply globalLoop_keeps; [|exact Tc].
    intros i t c' d'. apply widenBody_traced. }
  destruct T2 as [Le [Fa Nd]]. unfold traced. cbn [parsedNodes clockReads].
  split; [exact Le|]. split.
  - apply Forall_forall. intros n Hn. apply sortByKey_In in Hn.
    exact (proj1 (Forall_forall _ _) Fa n Hn).
  - intros U. apply (Permutation_NoDup (l := map id (parsedNodes w2)));
      [|exact (Nd U)].
    apply Permutation_map, Permutation_sym, sortByKey_perm.
Qed.

End Origin.

(** After [findTimesInOriginalSource] every held span is one the
    placeholder pass kept or a fresh one with a reading of the clock as its
    id; and when every span gets an id of its own, no two held spans have
    the same id. *)
Lemma pass_origin (now : nat -> Z) (text : string) (w w0 : world) :
  findTimesInOriginalSource now text w = Ok w0 ->
  clockReads w <= clockReads w0
  /\ Forall (fun n =>
               In n (filter (atPlaceholder text) (parsedNodes w))
               \/ (fresh n = true
                   /\ exists k, clockReads w <= k < clockReads w0 /\ id n = now k))
            (parsedNodes w0)
  /\ (ownIds now (clockReads w) (filter (atPlaceholder text) (parsedNodes w)) ->
      NoDup (map id (parsedNodes w0))).
Proof.
  intros E. unfold findTimesInOriginalSource, scan in E.
  destruct (placeholder_pass text (parsedNodes w)) as [R P]. rewrite R, P in E.
  apply (search_traced now (filter (atPlaceholder text) (parsedNodes w))
           (clockReads w) text _ _ w0) in E; [exact E|].
  unfold traced. cbn [parsedNodes clockReads]. split; [lia|]. split.
  - apply Forall_forall. intros n Hn. now left.
  - now intros [U _].
Qed.

(* ------------------------------------------------------------------ *)
(** ** The search, repeated *)

Lemma markSeen_seen (n : ParsedNode) : fresh n = false -> markSeen n = n.
Proof. destruct n as [i o f e x c ix fm]. simpl. now intros ->. Qed.

Lemma sorted_erase (l : list ParsedNode) :
  StronglySorted (fun a b => index a < index b) l ->
  StronglySorted (byKey index) (map eraseId l).
Proof.
  induction 1 as [|a l Hl IH Ha]; simpl; constructor; [exact IH|].
  apply Forall_forall. intros b Hb. apply in_map_iff in Hb as [c [<- Hc]].
  pose proof (proj1 (Forall_forall _ _) Ha c Hc) as Lt. cbv beta in Lt.
  unfold byKey. simpl. lia.
Qed.

Lemma map_fixed {A : Type} (f : A -> A) (l : list A) :
  (forall x, In x l -> f x = x) -> map f l = l.
Proof.
  induction l as [|x l IH]; intros H; simpl; [reflexivity|].
  rewrite (H x (or_introl eq_refl)). f_equal. apply IH. intros y Hy. apply H.
  now right.
Qed.

(** The search after a search that accepted no extension: the spans the
    placeholder pass keeps the second time are the seen spans the first
    search left, and the second search leaves the shapes the first left. *)
Lemma second_search (now : nat -> Z) (text : string) (w w0 w1 : world) :
  Forall (fun n => fresh n = false /\ engineNode n)
         (filter (atPlaceholder text) (parsedNodes w)) ->
  StronglySorted (fun a b => index a < index b)
                 (filter (atPlaceholder text) (parsedNodes w)) ->
  findTimesInOriginalSource now text w = Ok w0 ->
  Forall (fun n => fresh n = true -> isExtension n = false) (parsedNodes w0) ->
  parsedNodes w1 = parsedNodes w0 \/ parsedNodes w1 = map markSeen (parsedNodes w0) ->
  (exists w0',
      findTimesInOriginalSource now text w1 = Ok w0' /\ shapes w0' = shapes w0)
  /\ filter (atPlaceholder text) (parsedNodes w1)
     = filter (fun n => negb (fresh n)) (parsedNodes w0)
  /\ (forall n, In n (parsedNodes w0) -> fresh n = false ->
                In n (filter (atPlaceholder text) (parsedNodes w)))
  /\ (forall n, In n (parsedNodes w0) -> fresh n = true ->
                atPlaceholder text n = false).
Proof.
  intros HA HB E HC Hw1.
  set (kept := filter (atPlaceholder text) (parsedNodes w)) in *.
  set (A := map eraseId kept).
  (* the first search, with the clock set aside *)
  pose proof (pass_shapes now text w) as PS. rewrite E in PS. simpl in PS.
  fold kept in PS. unfold shapePass in PS. fold A in PS.
  destruct (shapeScan text A) as [S|e] eqn:Sc; [|discriminate PS]. simpl in PS.
  destruct (shapeWiden text (rev kept) S) as [S'|e] eqn:Wd; [|discriminate PS].
  simpl in PS. injection PS as PS.
  destruct (shapeScan_leaves text A S (sorted_erase kept HB) Sc) as [Fs [h Hh]].
  assert (NoExt : ~ holdsExtension S').
  { intros [n [Hn [Fn En]]].
    assert (Hn' : In n (shapes w0)) by (rewrite PS; now apply sortByKey_In).
    apply in_map_iff in Hn' as [m [<- Hm]].
    pose proof (proj1 (Forall_forall _ _) HC m Hm Fn) as X.
    simpl in En. congruence. }
  destruct (shapeWiden_unchanged text (rev kept) S S') as [-> Fixed];
    [|exact Wd|exact NoExt|].
  { apply Forall_forall. intros n Hn. apply in_rev in Hn.
    now destruct (proj1 (Forall_forall _ _) HA n Hn) as [_ [_ K]]. }
  clear Wd NoExt.
  (* the spans of the first search *)
  destruct (pass_origin now text w w0 E) as [_ [Org _]]. fold kept in Org.
  assert (Seen : forall n, In n (parsedNodes w0) -> fresh n = false -> In n kept).
  { intros n Hn Fn.
    destruct (proj1 (Forall_forall _ _) Org n Hn) as [H|[F _]];
      [exact H | congruence]. }
  assert (Fresh : forall n, In n (parsedNodes w0) -> fresh n = true ->
                            atPlaceholder text n = false).
  { intros n Hn Fn.
    assert (Hs : In (eraseId n) (sortByKey index S)).
    { rewrite <- PS. now apply in_map. }
    apply sortByKey_In in Hs.
    destruct (proj1 (Forall_forall _ _) Fs _ Hs) as [Ha|[_ [_ P]]]; [|exact P].
    apply in_map_iff in Ha as [o [Eo Ho]].
    destruct (proj1 (Forall_forall _ _) HA o Ho) as [Fo _].
    assert (X : fresh (eraseId o) = fresh (eraseId n)) by now rewrite Eo.
    simpl in X. congruence. }
  assert (Same : forall n, In n (parsedNodes w0) ->
                           atPlaceholder text n = negb (fresh n)).
  { intros n Hn. destruct (fresh n) eqn:Fn; simpl; [now apply Fresh|].
    pose proof (Seen n Hn Fn) as K. unfold kept in K.
    now apply filter_In in K. }
  assert (Kept' : filter (atPlaceholder text) (parsedNodes w1)
                  = filter (fun n => negb (fresh n)) (parsedNodes w0)).
  { destruct Hw1 as [->| ->]; [now apply filter_ext_in|].
    rewrite filter_map_comm.
    rewrite (filter_ext_in (fun x => atPlaceholder text (markSeen x))
               (fun n => negb (fresh n))) by exact Same.
    apply map_fixed. intros n Hn. apply filter_In in Hn as [_ Fn].
    apply markSeen_seen. now apply negb_true_iff. }
  split; [|split; [exact Kept' | split; [exact Seen | exact Fresh]]].
  (* the second search, with the clock set aside *)
  pose proof (pass_shapes now text w1) as PS1. rewrite Kept' in PS1.
  set (kept' := filter (fun n => negb (fresh n)) (parsedNodes w0)) in *.
  assert (In' : forall n, In n kept' -> In n kept).
  { intros n Hn. apply filter_In in Hn as [Hn Fn].
    apply Seen; [exact Hn | now apply negb_true_iff]. }
  assert (Shape' : map eraseId kept' = filter h A).
  { unfold kept'.
    rewrite <- (filter_map_comm (fun n => negb (fresh n)) eraseId).
    fold (shapes w0). rewrite PS, filter_sortByKey, Hh.
    apply sortByKey_sorted_id, StronglySorted_filter, sorted_erase, HB. }
  set (g := fun n : ParsedNode => fresh n || h n).
  assert (Ga : filter g A = filter h A).
  { apply filter_ext_in. intros n Hn. unfold g.
    apply in_map_iff in Hn as [o [<- Ho]].
    destruct (proj1 (Forall_forall _ _) HA o Ho) as [Fo _]. simpl.
    now rewrite Fo. }
  assert (Gs : filter g S = S).
  { apply filter_all. intros n Hn. unfold g.
    destruct (fresh n) eqn:Fn; [reflexivity|]. simpl.
    assert (Hf : In n (filter (fun n => negb (fresh n)) S)).
    { apply filter_In. split; [exact Hn | now rewrite Fn]. }
    rewrite Hh in Hf. now apply filter_In in Hf. }
  assert (Sc' : shapeScan text (map eraseId kept') = Ok S).
  { rewrite Shape', <- Ga.
    rewrite <- (shapeScan_filter text g A), Sc; [simpl; now rewrite Gs|].
    intros n Fn. unfold g. now rewrite Fn. }
  assert (Wd' : shapeWiden text (rev kept') S = Ok S).
  { unfold shapeWiden. apply forEach_fixed. intros node Hn.
    apply Fixed. apply in_rev in Hn. apply in_rev.
    rewrite rev_involutive. now apply In'. }
  unfold shapePass in PS1. rewrite Sc' in PS1. simpl in PS1.
  rewrite Wd' in PS1. simpl in PS1.
  destruct (findTimesInOriginalSource now text w1) as [w0'|e];
    [|discriminate PS1].
  simpl in PS1. injection PS1 as PS1. exists w0'. split; [reflexivity|].
  now rewrite PS1, PS.
Qed.

(* ------------------------------------------------------------------ *)
(** ** What [parse] draws for an entry *)

Lemma find_own (nodes : list ParsedNode) (a : ParsedNode) :
  NoDup (map id nodes) -> In a nodes ->
  forall held,
    convertedFrom (map markSeen nodes) held ->
    exists b,
      find (fun n => Z.eqb (id n) (id a)) held = Some b
      /\ (b = markSeen a \/ b = convert (markSeen a) (displayedText (markSeen a))).
Proof.
  induction nodes as [|n l IH]; intros Nd Ha held Cv; [contradiction|].
  cbn [map] in Cv, Nd. inversion Cv as [|? b ? hs Hb Hs]; subst.
  inversion Nd as [|? ? Hn Hl]; subst.
  assert (Ib : id b = id n) by (destruct Hb as [->| ->]; reflexivity).
  cbn [find]. rewrite Ib.
  destruct Ha as [->|Ha].
  - rewrite Z.eqb_refl. now exists b.
  - destruct (Z.eqb_spec (id n) (id a)) as [Q|_]; [|now apply IH].
    elim Hn. rewrite Q. now apply in_map.
Qed.

(** When no two held spans have the same id, [parse] answers for an entry
    with the span the entry was pushed for: its offset and the text it
    displays, whether or not the span was converted before. *)
Lemma resolves_own {Moment : Type}
    (momentStrict : option string -> string -> Moment)
    (momentLenient : option string -> Moment) (isValid : Moment -> bool)
    (nodes held : list ParsedNode) (a : ParsedNode) (shown match0 : string) :
  NoDup (map id nodes) -> In a nodes -> displayedText a = Some shown ->
  convertedFrom (map markSeen nodes) held ->
  drawn (fst (parseValidTime momentStrict momentLenient isValid match0
                (Split.id (spanEntry a)) held))
  = Some (index a, Some shown).
Proof.
  intros Nd Ha Ds Cv.
  destruct (find_own nodes a Nd Ha held Cv) as [b [F Hb]].
  unfold parseValidTime. cbn [spanEntry Split.id]. rewrite F. cbn [fst drawn].
  unfold displayedText in Ds.
  destruct Hb as [->| ->]; cbn; [now rewrite Ds|].
  unfold displayedText. cbn. now rewrite Ds.
Qed.

Lemma Forall2_of_map {A B : Type} (f : A -> B) (P : A -> A -> Prop) (l1 : list A) :
  forall l2,
    map f l1 = map f l2 ->
    (forall a b, In a l1 -> In b l2 -> f a = f b -> P a b) ->
    Forall2 P l1 l2.
Proof.
  induction l1 as [|a l1 IH]; intros [|b l2] E H; try discriminate E;
    [constructor|].
  injection E as Eab E. constructor.
  - apply H; [now left | now left | exact Eab].
  - apply IH; [exact E|]. intros x y Hx Hy. apply H; now right.
Qed.

Lemma atPlaceholder_index (text : string) (a b : ParsedNode) :
  index a = index b -> atPlaceholder text a = atPlaceholder text b.
Proof. unfold atPlaceholder. now intros ->. Qed.

(** The whole-string pass, once the search has returned. *)
Lemma matchWhole_unfold (now : nat -> Z) (text : string) (w w0 : world) :
  findTimesInOriginalSource now text w = Ok w0 ->
  matchWholeString now text w
  = Ok (if existsb fresh (parsedNodes w0)
        then (Some (splitNodes text (parsedNodes w0)),
              {| parsedNodes := map markSeen (parsedNodes w0);
                 clockReads := clockReads w0 |})
        else (None, w0)).
Proof.
  intros E. unfold matchWholeString. rewrite E. cbn [bind].
  destruct (existsb fresh (parsedNodes w0)) eqn:F; cbn [negb]; [|reflexivity].
  apply existsb_exists in F as [n [Hn _]].
  destruct (splitNodes_spans text (parsedNodes w0)) as [_ H].
  specialize (H n Hn). now destruct (splitNodes text (parsedNodes w0)).
Qed.

(** From a registry with no span at a marker the search accepts no
    extension: there is no span to widen. *)
Lemma clear_accepts_no_extension (now : nat -> Z) (text : string) (w w0 : world) :
  clearOfMarkers text (parsedNodes w) ->
  findTimesInOriginalSource now text w = Ok w0 ->
  Forall (fun n => fresh n = true -> isExtension n = false) (parsedNodes w0).
Proof.
  intros C E. destruct (findTimes_from_clear now text w C) as [w0' [E' [L _]]].
  rewrite E in E'. injection E' as <-.
  eapply Forall_impl; [|exact L]. intros n [_ [X _]] _. exact X.
Qed.

(* ------------------------------------------------------------------ *)
(** ** The whole-string pass, run twice *)

Lemma erased_twin (w0 w0' : world) (a : ParsedNode) :
  shapes w0' = shapes w0 -> In a (parsedNodes w0') ->
  exists m, In m (parsedNodes w0) /\ eraseId m = eraseId a.
Proof.
  intros Sh Ha. assert (H : In (eraseId a) (shapes w0)).
  { rewrite <- Sh. now apply in_map. }
  apply in_map_iff in H as [m [E Hm]]. now exists m.
Qed.

Lemma displayedText_erase (a b : ParsedNode) :
  eraseId a = eraseId b ->
  displayedText a = displayedText b /\ index a = index b
  /\ fresh a = fresh b /\ originalText a = originalText b.
Proof.
  intros E. unfold displayedText.
  change (isExtension a) with (isExtension (eraseId a)).
  change (extendedText a) with (extendedText (eraseId a)).
  change (originalText a) with (originalText (eraseId a)).
  change (index a) with (index (eraseId a)).
  change (fresh a) with (fresh (eraseId a)).
  now rewrite E.
Qed.



(** Without an id of its own for every span the second run need not draw
    what the first run drew, though it returns the same entries: on a clock
    that advances during the first run and stands still during the second,
    the third entry of "5pm and 13:30" is drawn as "13:30" at offset 8 the
    first time and as "5pm" at offset 0 the second time. *)
Example drawing_follows_the_clock :
  exists entries1 w1 entries2 w2 e1 e2,
    matchWholeString stallingClock "5pm and 13:30"
      {| parsedNodes := []; clockReads := 0 |} = Ok (Some entries1, w1)
    /\ matchWholeString stallingClock "5pm and 13:30" w1 = Ok (Some entries2, w2)
    /\ map Split.view entries2 = map Split.view entries1
    /\ nth_error entries1 2 = Some e1
    /\ nth_error entries2 2 = Some e2
    /\ drawn (fst (parseValidTime (fun _ _ => tt) (fun _ => tt) (fun _ => true)
                     "13:30" (Split.id e1) (parsedNodes w1)))
       = Some (8, Some "13:30")
    /\ drawn (fst (parseValidTime (fun _ _ => tt) (fun _ => tt) (fun _ => true)
                     "13:30" (Split.id e2) (parsedNodes w2)))
       = Some (0, Some "5pm").
Proof.
  do 6 eexists.
  split; [vm_compute; reflexivity|].
  split; [vm_compute; reflexivity|].
  split; [reflexivity|].
  split; [reflexivity|].
  split; [reflexivity|].
  split; vm_compute; reflexivity.
Qed.

(* ------------------------------------------------------------------ *)
(** ** The registries a session reaches *)

Lemma addNode_distinct (x : ParsedNode) (arr res : list ParsedNode) :
  NoDup (map index arr) -> addNode x arr = Ok res -> NoDup (map index res).
Proof.
  intros Nd E. destruct (addNode_cases _ _ _ E) as [->| ->]; [exact Nd|].
  apply (Permutation_NoDup (l := map index (x :: filter (keep x) arr))).
  - apply Permutation_map, Permutation_sym.
    eapply perm_trans; [apply sortByKey_perm|].
    apply Permutation_sym, Permutation_cons_append.
  - cbn [map]. constructor; [|now apply NoDup_map_filter].
    intros X. apply in_map_iff in X as [n [En Hn]].
    apply filter_In in Hn as [_ K]. unfold keep in K.
    apply orb_true_iff in K as [K|K]; apply Nat.ltb_lt in K; lia.
Qed.

Lemma strict_distinct (l : list ParsedNode) :
  StronglySorted (fun a b => index a < index b) l -> NoDup (map index l).
Proof.
  induction 1 as [|a l Hl IH Ha]; simpl; constructor; [|exact IH].
  intros X. apply in_map_iff in X as [b [E Hb]].
  pose proof (proj1 (Forall_forall _ _) Ha b Hb) as Lt. cbv beta in Lt. lia.
Qed.

Lemma sorted_distinct_strict (l : list ParsedNode) :
  StronglySorted (byKey index) l -> NoDup (map index l) ->
  StronglySorted (fun a b => index a < index b) l.
Proof.
  induction 1 as [|a l Hl IH Ha]; intros Nd; constructor;
    inversion Nd as [|? ? Hn Hd]; subst.
  - now apply IH.
  - apply Forall_forall. intros b Hb.
    pose proof (proj1 (Forall_forall _ _) Ha b Hb) as Le. unfold byKey in Le.
    assert (index a <> index b) by (intros Q; apply Hn; rewrite Q; now apply in_map).
    lia.
Qed.

Lemma search_distinct (now : nat -> Z) (text : string) (w w0 : world) :
  NoDup (map index (filter (atPlaceholder text) (parsedNodes w))) ->
  findTimesInOriginalSource now text w = Ok w0 ->
  NoDup (map index (parsedNodes w0)).
Proof.
  intros Nd E. unfold findTimesInOriginalSource, scan in E.
  destruct (placeholder_pass text (parsedNodes w)) as [R P]. rewrite R, P in E.
  set (Inv := fun st : world => NoDup (map index (parsedNodes st))).
  destruct (forEach (scanPattern now text) patterns _) as [w1|e] eqn:S;
    [|discriminate E]. simpl in E.
  destruct (widen now text _ w1) as [w2|e] eqn:W; [|discriminate E].
  simpl in E. injection E as <-. cbn [parsedNodes].
  assert (I1 : Inv w1).
  { revert S. apply (forEach_keeps Inv); [|exact Nd]. intros p a b _ Ia.
    unfold scanPattern. apply globalLoop_keeps; [|exact Ia].
    intros i t c d Ic Ec. unfold scanBody in Ec.
    destruct (addNode _ (parsedNodes c)) as [res|e] eqn:A; [|discriminate Ec].
    simpl in Ec. injection Ec as <-. exact (addNode_distinct _ _ _ Ic A). }
  assert (I2 : Inv w2).
  { revert I1 W. unfold widen. apply (forEach_keeps Inv). intros node a b _.
    unfold widenNode. apply (forEach_keeps Inv). intros p c d _ Ic.
    unfold widenPattern. destruct (sameObject p (format node));
      [now intros [= <-]|].
    cbv zeta. apply globalLoop_keeps; [|exact Ic].
    intros i t c' d' Ic' Ec. unfold widenBody in Ec.
    destruct (negb (index node =? i)); [now injection Ec as <-|].
    destruct (addNode _ (parsedNodes c')) as [res|e] eqn:A; [|discriminate Ec].
    simpl in Ec. injection Ec as <-. exact (addNode_distinct _ _ _ Ic' A). }
  apply (Permutation_NoDup (l := map index (parsedNodes w2))); [|exact I2].
  apply Permutation_map, Permutation_sym, sortByKey_perm.
Qed.

Lemma existsb_none {A : Type} (f : A -> bool) (l : list A) :
  existsb f l = false -> forall x, In x l -> f x = false.
Proof.
  intros H x Hx. destruct (f x) eqn:F; [|reflexivity].
  assert (existsb f l = true) by (apply existsb_exists; now exists x). congruence.
Qed.

Lemma strict_by_index (l : list ParsedNode) :
  forall l',
    map index l = map index l' ->
    StronglySorted (fun a b => index a < index b) l ->
    StronglySorted (fun a b => index a < index b) l'.
Proof.
  induction l as [|a l IH]; intros [|a' l'] E So; try discriminate E;
    [constructor|].
  injection E as Ea El. inversion So as [|? ? Hl Ha]; subst.
  constructor; [now apply IH|].
  apply Forall_forall. intros b' Hb'.
  assert (Hi : In (index b') (map index l)) by (rewrite El; now apply in_map).
  apply in_map_iff in Hi as [b [Eb Hb]].
  pose proof (proj1 (Forall_forall _ _) Ha b Hb) as Lt. cbv beta in Lt. lia.
Qed.

Lemma updateFirst_index (test : ParsedNode -> bool)
    (f : ParsedNode -> ParsedNode) (l : list ParsedNode) :
  (forall n, index (f n) = index n) ->
  map index (updateFirst test f l) = map index l.
Proof.
  intros H. induction l as [|a l IH]; simpl; [reflexivity|].
  destruct (test a); simpl; [now rewrite H | now rewrite IH].
Qed.

(** The registry of a session is settled: the empty registry is, the
    whole-string pass leaves a settled registry when it starts from one,
    and so does the conversion done by [parse].  So the spans a session
    holds at the markers of a text are always seen, built by the engine and
    at distinct ascending offsets. *)
Lemma session_registries_settled (now : nat -> Z) (text : string) (w : world) :
  settled (parsedNodes w) ->
  settled (filter (atPlaceholder text) (parsedNodes w))
  /\ (exists out w1,
        matchWholeString now text w = Ok (out, w1) /\ settled (parsedNodes w1))
  /\ (forall (Moment : Type) strict lenient (valid : Moment -> bool) match0 matchId,
        settled (snd (parseValidTime strict lenient valid match0 matchId
                        (parsedNodes w)))).
Proof.
  intros [Fa So].
  assert (Kept : settled (filter (atPlaceholder text) (parsedNodes w))).
  { split; [|now apply StronglySorted_filter].
    apply Forall_forall. intros n Hn. apply filter_In in Hn as [Hn _].
    exact (proj1 (Forall_forall _ _) Fa n Hn). }
  split; [exact Kept|]. split.
  - destruct (pass_returns now text w) as [w0 [E [En Sb]]].
    { eapply Forall_impl; [|exact Fa]. now intros n [_ X]. }
    assert (St : StronglySorted (fun a b => index a < index b) (parsedNodes w0)).
    { apply sorted_distinct_strict; [exact Sb|].
      apply (search_distinct now text w w0); [|exact E].
      apply strict_distinct, Kept. }
    rewrite (matchWhole_unfold now text w w0 E).
    destruct (existsb fresh (parsedNodes w0)) eqn:F.
    + eexists. eexists. split; [reflexivity|]. cbn [parsedNodes]. split.
      * apply Forall_forall. intros n Hn. apply in_map_iff in Hn as [m [<- Hm]].
        split; [reflexivity|]. apply markSeen_engine.
        exact (proj1 (Forall_forall _ _) En m Hm).
      * apply (strict_by_index (parsedNodes w0)); [|exact St].
        rewrite map_map. now apply map_ext.
    + eexists. eexists. split; [reflexivity|]. split; [|exact St].
      apply Forall_forall. intros n Hn. split.
      * exact (existsb_none fresh _ F n Hn).
      * exact (proj1 (Forall_forall _ _) En n Hn).
  - intros Moment strict lenient valid match0 matchId. unfold parseValidTime.
    destruct (find _ (parsedNodes w)) as [node|]; cbn [snd]; [|now split].
    set (test := fun n : ParsedNode =>
                   match matchId with
                   | Some m => Z.eqb (id n) m
                   | None => false
                   end).
    set (f := fun n : ParsedNode =>
                convert n (if isExtension node then extendedText node
                           else Some (originalText node))).
    split.
    + apply updateFirst_Forall; [|exact Fa].
      intros n [_ [_ K]]. split; [reflexivity|].
      split; [intros X; discriminate X | exact K].
    + apply (strict_by_index (parsedNodes w)); [|exact So].
      symmetry. now apply updateFirst_index.
Qed.
